(** * mw-ocg-texter: a shallow embedding of lib/index.js

    The development follows the source file top to bottom: the text
    normaliser [textEscape], the line-layout engine [Formatter], the
    inline collector, the macro interpreter [cleanMath] and the tree
    walking [Visitor].

    JavaScript strings are sequences of UTF-16 code units; they are
    modelled as lists of code units ([N]), so that the smart quotes and
    the sub/superscript code points of the source are single
    characters, exactly as they are for the regular expressions of the
    source. *)

From Stdlib Require Import String Ascii.
From Stdlib Require Import NArith ZArith Bool Arith Lia List.
Import ListNotations.


(* ------------------------------------------------------------------ *)
(** * JavaScript strings *)

Module Js.

Definition char := N.
Definition jsstring := list char.

(** ASCII literals of the source. *)
Definition lit (s : string) : jsstring :=
  map N_of_ascii (list_ascii_of_string s).

Definition LF : char := 10%N.
Definition CR : char := 13%N.
Definition SP : char := 32%N.
Definition BACKSLASH : char := 92%N.

Definition ceq (a b : char) : bool := N.eqb a b.

Fixpoint seq_eqb (a b : jsstring) : bool :=
  match a, b with
  | [], [] => true
  | x :: a', y :: b' => ceq x y && seq_eqb a' b'
  | _, _ => false
  end.

Definition mem (c : char) (cls : jsstring) : bool := existsb (ceq c) cls.

(** The class [\s] of ECMAScript regular expressions: WhiteSpace and
    LineTerminator code points.  [String.prototype.trim] strips the same
    set. *)
Definition is_space (c : char) : bool :=
  mem c [9; 10; 11; 12; 13; 32; 160; 0x1680; 0x2028; 0x2029; 0x202F; 0x205F;
         0x3000; 0xFEFF]%N
  || ((0x2000 <=? c) && (c <=? 0x200A))%N.

(** The line terminators, which [.] does not match. *)
Definition is_line_terminator (c : char) : bool :=
  mem c [10; 13; 0x2028; 0x2029]%N.

Definition is_letter (c : char) : bool :=
  ((65 <=? c) && (c <=? 90) || (97 <=? c) && (c <=? 122))%N.

Definition is_digit (c : char) : bool := ((48 <=? c) && (c <=? 57))%N.

(** [s.slice(n)] and [s.slice(0, n)] for [0 <= n]. *)
Definition slice_from (n : nat) (s : jsstring) : jsstring := skipn n s.
Definition slice_to (n : nat) (s : jsstring) : jsstring := firstn n s.

(** [str.replace(/^\s+/, '')] *)
Fixpoint strip_leading_space (s : jsstring) : jsstring :=
  match s with
  | c :: s' => if is_space c then strip_leading_space s' else s
  | [] => []
  end.

(** [str.replace(/\s+/g, ' ')]: every maximal run of white space becomes
    one space. *)
Fixpoint collapse_space (s : jsstring) : jsstring :=
  match s with
  | [] => []
  | c :: s' =>
      if is_space c then
        match s' with
        | d :: _ => if is_space d then collapse_space s'
                    else SP :: collapse_space s'
        | [] => [SP]
        end
      else c :: collapse_space s'
  end.

(** [str.trim()] *)
Definition trim (s : jsstring) : jsstring :=
  rev (strip_leading_space (rev (strip_leading_space s))).

(** Decimal rendering of a non-negative integer, as [String(n)] gives. *)
Fixpoint digits_fuel (fuel : nat) (n : N) (acc : jsstring) : jsstring :=
  match fuel with
  | O => acc
  | S fuel' =>
      let acc' := (48 + n mod 10)%N :: acc in
      if (n <? 10)%N then acc' else digits_fuel fuel' (n / 10)%N acc'
  end.

Definition decimal (n : N) : jsstring := digits_fuel (S (N.to_nat n)) n [].

End Js.
Import Js.

(* ------------------------------------------------------------------ *)
(** * textEscape *)

(** [str.replace(/\r\n?/g, '\n')] *)
Fixpoint unix_newlines (s : jsstring) : jsstring :=
  match s with
  | [] => []
  | c :: s' =>
      if ceq c CR then
        LF :: match s' with
              | d :: s'' => if ceq d LF then unix_newlines s''
                            else unix_newlines s'
              | [] => []
              end
      else c :: unix_newlines s'
  end.

(** [str.replace(/\n\n+/g, '\n')]: a newline that is followed by a
    newline is dropped, so each run of two or more becomes one. *)
Fixpoint compress_newlines (s : jsstring) : jsstring :=
  match s with
  | [] => []
  | c :: s' =>
      match s' with
      | d :: _ => if ceq c LF && ceq d LF then compress_newlines s'
                  else c :: compress_newlines s'
      | [] => [c]
      end
  end.

(** [str.replace(/^\n+/, '')] *)
Fixpoint trim_leading_newlines (s : jsstring) : jsstring :=
  match s with
  | c :: s' => if ceq c LF then trim_leading_newlines s' else s
  | [] => []
  end.

(** [str.replace(/\n$/, '')]: without the [m] flag [$] is the end of the
    input, so at most the last character goes. *)
Fixpoint trim_trailing_newline (s : jsstring) : jsstring :=
  match s with
  | [] => []
  | [c] => if ceq c LF then [] else [c]
  | c :: s' => c :: trim_trailing_newline s'
  end.

Definition LDQUO : char := 0x201C%N.
Definition RDQUO : char := 0x201D%N.
Definition LSQUO : char := 0x2018%N.
Definition RSQUO : char := 0x2019%N.
Definition DQUOTE : char := 34%N.
Definition SQUOTE : char := 39%N.

(** The replacement of U+201C and U+201D by a plain double quote. *)
Definition plain_double_quotes (s : jsstring) : jsstring :=
  map (fun c => if ceq c LDQUO || ceq c RDQUO then DQUOTE else c) s.

(** The replacement of U+2018 and U+2019 by a plain single quote. *)
Definition plain_single_quotes (s : jsstring) : jsstring :=
  map (fun c => if ceq c LSQUO || ceq c RSQUO then SQUOTE else c) s.

Definition textEscape (str : jsstring) : jsstring :=
  let str := compress_newlines (unix_newlines str) in
  let str := trim_trailing_newline (trim_leading_newlines str) in
  let str := plain_double_quotes str in
  let str := plain_single_quotes str in
  str.

(* ------------------------------------------------------------------ *)
(** * Effects: mutable state and exceptions

    A method of the source runs on a mutable object and either returns
    or throws; a computation is a function from the state before to an
    outcome and the state after.  What was mutated before a throw stays
    mutated.  [OutOfFuel] is the outcome of a recursion cut short by the
    fuel of the model; the source has no such outcome. *)

Inductive exn : Type :=
| TypeError      (* property access on null or undefined, call of a non-function *)
| SyntaxError    (* JSON.parse on malformed text *)
| ExternalError. (* thrown by a collaborator outside lib/index.js *)

Inductive res (A : Type) : Type :=
| Ok (a : A)
| Throw (e : exn)
| OutOfFuel.
Arguments Ok {A} a.
Arguments Throw {A} e.
Arguments OutOfFuel {A}.

Definition M (St A : Type) : Type := St -> res A * St.

Definition ret {St A} (a : A) : M St A := fun s => (Ok a, s).
Definition throw {St A} (e : exn) : M St A := fun s => (Throw e, s).
Definition out_of_fuel {St A} : M St A := fun s => (OutOfFuel, s).
Definition bind {St A B} (c : M St A) (k : A -> M St B) : M St B :=
  fun s =>
    match c s with
    | (Ok a, s') => k a s'
    | (Throw e, s') => (Throw e, s')
    | (OutOfFuel, s') => (OutOfFuel, s')
    end.
Definition get {St} : M St St := fun s => (Ok s, s).
Definition put {St} (s : St) : M St unit := fun _ => (Ok tt, s).
Definition modify {St} (f : St -> St) : M St unit := fun s => (Ok tt, f s).
Definition gets {St A} (f : St -> A) : M St A := fun s => (Ok (f s), s).

(** The result of a collaborator, lifted into a computation. *)
Definition lift_res {St A} (r : res A) : M St A := fun s => (r, s).

Declare Scope monad_scope.
Delimit Scope monad_scope with monad.
Notation "x <- c ;; k" := (bind c (fun x => k))
  (at level 61, c at next level, right associativity) : monad_scope.
Notation "c ;; k" := (bind c (fun _ => k))
  (at level 61, right associativity) : monad_scope.
Open Scope monad_scope.

(** [for (...) { body }] over the elements of a list. *)
Fixpoint forM {St A} (l : list A) (body : A -> M St unit) : M St unit :=
  match l with
  | [] => ret tt
  | a :: l' => body a ;; forM l' body
  end.

(** [array.map(f)] with an effectful [f]. *)
Fixpoint mapM {St A B} (f : A -> M St B) (l : list A) : M St (list B) :=
  match l with
  | [] => ret []
  | a :: l' => b <- f a ;; bs <- mapM f l' ;; ret (b :: bs)
  end.

Definition when {St} (b : bool) (c : M St unit) : M St unit :=
  if b then c else ret tt.

(** Truthiness of an optional string: [undefined], [null] and the empty
    string are falsy. *)
Definition truthy (o : option jsstring) : bool :=
  match o with
  | Some (_ :: _) => true
  | _ => false
  end.

(** [a || b] on optional strings. *)
Definition or_else (a b : option jsstring) : option jsstring :=
  if truthy a then a else b.

(** [a !== b] on optional strings ([None] stands for null and for
    undefined; the source only compares a truthy string with a field, or
    a field with itself). *)
Definition opt_neq (a b : option jsstring) : bool :=
  match a, b with
  | Some x, Some y => negb (seq_eqb x y)
  | None, None => false
  | _, _ => true
  end.

(* ------------------------------------------------------------------ *)
(** * Formatter *)

(** The options object given to [linewrap]. *)
Record LinewrapOpts : Type := {
  whitespace : jsstring;
  respectLineBreaks : jsstring;
  lw_tabWidth : Z;
  wrapLineIndent : option Z
}.

Module Formatter.

Record Options : Type := {
  column : option Z;
  tabWidth_opt : option Z;
  noWrap : bool
}.

(** [x || d] on an optional number: undefined and 0 are falsy. *)
Definition num_or (x : option Z) (d : Z) : Z :=
  match x with
  | Some v => if (v =? 0)%Z then d else v
  | None => d
  end.

Record State : Type := {
  indent_of : Z;
  wrap : jsstring -> jsstring
}.

(** The fields of a Formatter object.  [outStream] holds what was
    written to the stream so far; [stateStack] has its top at the head;
    [state] is [None] once [dedent] popped an empty stack. *)
Record t : Type := {
  options : Options;
  columns : Z;
  tabWidth : Z;
  buffer : list jsstring;
  outStream : jsstring;
  newLine : bool;
  newPara : bool;
  stateStack : list (option State);
  state : option State
}.

Definition set_buffer (b : list jsstring) (f : t) : t :=
  {| options := options f; columns := columns f; tabWidth := tabWidth f;
     buffer := b; outStream := outStream f; newLine := newLine f;
     newPara := newPara f; stateStack := stateStack f; state := state f |}.
Definition set_outStream (o : jsstring) (f : t) : t :=
  {| options := options f; columns := columns f; tabWidth := tabWidth f;
     buffer := buffer f; outStream := o; newLine := newLine f;
     newPara := newPara f; stateStack := stateStack f; state := state f |}.
Definition set_newLine (b : bool) (f : t) : t :=
  {| options := options f; columns := columns f; tabWidth := tabWidth f;
     buffer := buffer f; outStream := outStream f; newLine := b;
     newPara := newPara f; stateStack := stateStack f; state := state f |}.
Definition set_newPara (b : bool) (f : t) : t :=
  {| options := options f; columns := columns f; tabWidth := tabWidth f;
     buffer := buffer f; outStream := outStream f; newLine := newLine f;
     newPara := b; stateStack := stateStack f; state := state f |}.
Definition set_stateStack (k : list (option State)) (f : t) : t :=
  {| options := options f; columns := columns f; tabWidth := tabWidth f;
     buffer := buffer f; outStream := outStream f; newLine := newLine f;
     newPara := newPara f; stateStack := k; state := state f |}.
Definition set_state (st : option State) (f : t) : t :=
  {| options := options f; columns := columns f; tabWidth := tabWidth f;
     buffer := buffer f; outStream := outStream f; newLine := newLine f;
     newPara := newPara f; stateStack := stateStack f; state := st |}.

(** [(n/2)|0]: the quotient, coerced to a signed 32-bit integer. *)
Definition to_int32 (x : Z) : Z :=
  ((x + 2147483648) mod 4294967296 - 2147483648)%Z.

(** The local function [mkspace] of [_makeWrap]. *)
Fixpoint mkspace (fuel : nat) (n : Z) : jsstring :=
  if (n <=? 1)%Z then (if (n =? 1)%Z then [SP] else [])
  else
    match fuel with
    | O => []
    | S fuel' =>
        let m := to_int32 (n / 2) in
        mkspace fuel' m ++ mkspace fuel' (n - m)%Z
    end.

Section WithLinewrap.

(** The [linewrap] package: [linewrap a b opts] is the wrapping function
    it returns. *)
Variable linewrap : Z -> Z -> LinewrapOpts -> jsstring -> jsstring.

Definition _makeWrap (f : t) (indent : Z) (tag : option jsstring)
  : jsstring -> jsstring :=
  if noWrap (options f) then
    let indent := if truthy tag then (indent - tabWidth f)%Z else indent in
    let spc := mkspace (Z.to_nat indent) indent in
    fun t => spc ++ trim (collapse_space t)
  else
    let opts := {| whitespace := lit "collapse";
                   respectLineBreaks := lit "none";
                   lw_tabWidth := tabWidth f;
                   wrapLineIndent := None |} in
    let indent := if (columns f <=? indent + 20)%Z
                  then (columns f - 20)%Z else indent in
    if truthy tag then
      linewrap (columns f) (indent - tabWidth f)%Z
        {| whitespace := whitespace opts;
           respectLineBreaks := respectLineBreaks opts;
           lw_tabWidth := lw_tabWidth opts;
           wrapLineIndent := Some (tabWidth f) |}
    else linewrap (columns f) indent opts.

(** [new Formatter(outStream, options)] on a fresh stream. *)
Definition create (o : Options) : t :=
  let f0 := {| options := o;
               columns := num_or (column o) 75;
               tabWidth := num_or (tabWidth_opt o) 2;
               buffer := []; outStream := [];
               newLine := true; newPara := true;
               stateStack := []; state := None |} in
  set_state (Some {| indent_of := 0; wrap := _makeWrap f0 0 None |}) f0.

Definition _write (text : jsstring) : M t unit :=
  modify (fun f => set_outStream (outStream f ++ text) f).

Definition _writeWrap (text : jsstring) : M t unit :=
  st <- gets state ;;
  match st with
  | Some st => _write (wrap st text)
  | None => throw TypeError
  end.

Definition lineBreak : M t unit :=
  nl <- gets newLine ;;
  if nl then ret tt
  else
    b <- gets buffer ;;
    _writeWrap (concat b) ;;
    _write [LF] ;;
    modify (set_buffer []) ;;
    modify (set_newLine true).

Definition paragraphBreak : M t unit :=
  np <- gets newPara ;;
  if np then ret tt
  else
    nl <- gets newLine ;;
    when (negb nl) lineBreak ;;
    _write [LF] ;;
    modify (set_newPara true).

Definition write (text : jsstring) : M t unit :=
  nl <- gets newLine ;;
  np <- gets newPara ;;
  if nl || np then
    let text := strip_leading_space text in
    match text with
    | [] => ret tt
    | _ :: _ =>
        modify (set_newLine false) ;;
        modify (set_newPara false) ;;
        modify (fun f => set_buffer (buffer f ++ [text]) f)
    end
  else modify (fun f => set_buffer (buffer f ++ [text]) f).

Definition indent (tag : option jsstring) : M t unit :=
  lineBreak ;;
  modify (fun f => set_stateStack (state f :: stateStack f) f) ;;
  st <- gets state ;;
  match st with
  | None => throw TypeError
  | Some st =>
      tw <- gets tabWidth ;;
      let nIndent := (indent_of st + tw)%Z in
      modify (fun f =>
        set_state (Some {| indent_of := nIndent;
                           wrap := _makeWrap f nIndent tag |}) f) ;;
      match tag with
      | Some (c :: tg) => write (c :: tg) ;; write [SP]
      | _ => ret tt
      end
  end.

Definition dedent : M t unit :=
  lineBreak ;;
  modify (fun f =>
    match stateStack f with
    | top :: k => set_state top (set_stateStack k f)
    | [] => set_state None f
    end).

Definition writeTitle (title : jsstring) (subtitle : option jsstring)
  : M t unit :=
  write (trim title) ;;
  lineBreak ;;
  match subtitle with
  | Some (c :: sub) => write (trim (c :: sub)) ;; lineBreak
  | _ => ret tt
  end ;;
  paragraphBreak.

Definition writeSummary (summary : jsstring) : M t unit :=
  paragraphBreak ;;
  indent None ;;
  write (trim summary) ;;
  dedent ;;
  paragraphBreak.

Definition writeHeading (level : option Z) (heading : jsstring) : M t unit :=
  paragraphBreak ;;
  write (trim heading) ;;
  paragraphBreak.

(** The synchronous part of [flush]: the promise it returns resolves
    once the stream accepted an empty write. *)
Definition flush : M t unit :=
  lineBreak ;;
  _write [].

End WithLinewrap.

End Formatter.

(* ------------------------------------------------------------------ *)
(** * Sub/superscript tables *)

(** The object [submap], its keys in the order of [Object.keys]
    (integer keys ascending, then the others as written). *)
Definition submap : list (char * char) :=
  [(48, 0x2080); (49, 0x2081); (50, 0x2082); (51, 0x2083); (52, 0x2084);
   (53, 0x2085); (54, 0x2086); (55, 0x2087); (56, 0x2088); (57, 0x2089);
   (43, 0x208A); (45, 0x208B); (61, 0x208C); (40, 0x208D); (41, 0x208E);
   (97, 0x2090); (101, 0x2091); (111, 0x2092); (120, 0x2093); (104, 0x2095);
   (107, 0x2096); (108, 0x2097); (109, 0x2098); (110, 0x2099); (112, 0x209A);
   (115, 0x209B); (116, 0x209C); (32, 0x0020); (160, 0x00A0)]%N.

Definition supmap : list (char * char) :=
  [(48, 0x2070); (49, 0x00B9); (50, 0x00B2); (51, 0x00B3); (52, 0x2074);
   (53, 0x2075); (54, 0x2076); (55, 0x2077); (56, 0x2078); (57, 0x2079);
   (105, 0x2071); (43, 0x207A); (45, 0x207B); (61, 0x207C); (40, 0x207D);
   (41, 0x207E); (110, 0x207F); (32, 0x0020); (160, 0x00A0)]%N.

Definition keys (m : list (char * char)) : jsstring := map fst m.

(** [map[c]], [None] for undefined. *)
Fixpoint lookup (m : list (char * char)) (c : char) : option char :=
  match m with
  | [] => None
  | (k, v) :: m' => if ceq c k then Some v else lookup m' c
  end.

(** [s.replace(/[\s\S]/g, function(c) { return map[c]; })]: an undefined
    result is spliced in as the text undefined. *)
Definition transliterate (m : list (char * char)) (s : jsstring) : jsstring :=
  flat_map (fun c => match lookup m c with
                     | Some v => [v]
                     | None => lit "undefined"
                     end) s.

(** [subre] and [supre]: the class is made of the keys, the hyphen
    escaped, between [^] and [+$]. *)
Definition class_test (cls : jsstring) (s : jsstring) : bool :=
  match s with
  | [] => false
  | _ :: _ => forallb (fun c => mem c cls) s
  end.
Definition subre_test : jsstring -> bool := class_test (keys submap).
Definition supre_test : jsstring -> bool := class_test (keys supmap).

(* ------------------------------------------------------------------ *)
(** * The macro interpreter cleanMath *)

Inductive diagnostic : Type :=
| UnterminatedMathArgument (fname math : jsstring)
| UnknownMathFunction (fname : jsstring)
| NonStandardDir (lang dir newdir : option jsstring).

(** What outlives a call of the interpreter: the module-level object
    [warned] (the names of its own properties, each set to true) and
    the messages given to [console.warn], oldest first. *)
Record Proc : Type := {
  warned : list jsstring;
  console : list diagnostic
}.

Definition console_warn {St} (lens : St -> Proc) (upd : Proc -> St -> St)
  (d : diagnostic) : M St unit :=
  modify (fun s => upd {| warned := warned (lens s);
                          console := console (lens s) ++ [d] |} s).

Module Math.

Inductive handler : Type :=
| Const (s : jsstring)   (* function() { return s; } *)
| Identity               (* function(s) { return s || the empty string; } *)
| Sqrt.                  (* function(arg) { return root ( arg ) } *)

Definition funcMap : list (jsstring * handler) := [
    (lit "cdot", Const [0x00B7]);
    (lit "cdots", Const [0x22EF]);
    (lit "dots", Const [0x2026]);
    (lit "ldots", Const [0x2026]);
    ([], Identity);              (* the empty name *)
    (lit "mathbf", Identity);
    (lit "rm", Identity);
    (lit "scriptstyle", Identity);
    (lit "text", Identity);
    (lit "alpha", Const [0x03B1]);
    (lit "beta", Const [0x03B2]);
    (lit "gamma", Const [0x03B3]);
    (lit "delta", Const [0x03B4]);
    (lit "epsilon", Const [0x03F5]);
    (lit "varepsilon", Const [0x03B5]);
    (lit "zeta", Const [0x03B6]);
    (lit "eta", Const [0x03B7]);
    (lit "theta", Const [0x03B8]);
    (lit "vartheta", Const [0x03D1]);
    (lit "iota", Const [0x03B9]);
    (lit "kappa", Const [0x03BA]);
    (lit "lambda", Const [0x03BB]);
    (lit "mu", Const [0x03BC]);
    (lit "nu", Const [0x03BD]);
    (lit "xi", Const [0x03BE]);
    (lit "pi", Const [0x03C0]);
    (lit "varpi", Const [0x03D6]);
    (lit "rho", Const [0x03C1]);
    (lit "varrho", Const [0x03F1]);
    (lit "sigma", Const [0x03C3]);
    (lit "varsigma", Const [0x03C2]);
    (lit "tau", Const [0x03C4]);
    (lit "upsilon", Const [0x03C5]);
    (lit "phi", Const [0x03D5]);
    (lit "varphi", Const [0x03C6]);
    (lit "chi", Const [0x03C7]);
    (lit "psi", Const [0x03C8]);
    (lit "omega", Const [0x03C9]);
    (lit "Gamma", Const [0x0393]);
    (lit "Delta", Const [0x0394]);
    (lit "Theta", Const [0x0398]);
    (lit "Lambda", Const [0x039B]);
    (lit "Xi", Const [0x039E]);
    (lit "Pi", Const [0x03A0]);
    (lit "Sigma", Const [0x03A3]);
    (lit "Upsilon", Const [0x03A5]);
    (lit "Phi", Const [0x03A6]);
    (lit "Psi", Const [0x03A8]);
    (lit "Omega", Const [0x03A9]);
    (lit "approx", Const [0x2248]);
    (lit "bigcap", Const [0x2229]);
    (lit "bigcup", Const [0x222A]);
    (lit "cap", Const [0x2229]);
    (lit "cup", Const [0x222A]);
    (lit "equiv", Const [0x2261]);
    (lit "exists", Const [0x2203]);
    (lit "forall", Const [0x2200]);
    (lit "int", Const [0x222B]);
    (lit "sqrt", Sqrt);
    (lit "sum", Const [0x03A3]);
    (lit "vee", Const [0x2228]);
    (lit "wedge", Const [0x2227]);
    (lit "leftarrow", Const [0x2190]);
    (lit "gets", Const [0x2190]);
    (lit "Leftarrow", Const [0x21D0]);
    (lit "rightarrow", Const [0x2192]);
    (lit "to", Const [0x2192]);
    (lit "Rightarrow", Const [0x21D2]);
    (lit "leftrightarrow", Const [0x2194]);
    (lit "Leftrightarrow", Const [0x21D4]);
    (lit "mapsto", Const [0x21A6]);
    (lit "hookleftarrow", Const [0x21A9]);
    (lit "hookrightarrow", Const [0x21AA]);
    (lit "leftharpoonup", Const [0x21BC]);
    (lit "leftharpoondown", Const [0x21BD]);
    (lit "rightharpoonup", Const [0x21C0]);
    (lit "rightharpoondown", Const [0x21C1]);
    (lit "rightleftharpoons", Const [0x21CC]);
    (lit "uparrow", Const [0x2191]);
    (lit "Uparrow", Const [0x21D1]);
    (lit "downarrow", Const [0x2193]);
    (lit "Downarrow", Const [0x21D3]);
    (lit "updownarrow", Const [0x2195]);
    (lit "Updownarrow", Const [0x21D5]);
    ([32], Const [32]);
    (lit "quad", Const [32]);
    ([59], Const [32]);
    ([58], Const [32]);
    ([44], Const [32]);
    ([33], Const []);
    ([36], Const [36]);
    ([38], Const [38]);
    ([123], Const [123]);
    ([125], Const [125]);
    ([92], Const [10])
]%N.

(** [funcMap.hasOwnProperty(fname)] and [funcMap[fname]] *)
Fixpoint own (m : list (jsstring * handler)) (fname : jsstring)
  : option handler :=
  match m with
  | [] => None
  | (k, h) :: m' => if seq_eqb fname k then Some h else own m' fname
  end.

(** [funcMap[fname].apply(null, args)] *)
Definition apply (h : handler) (args : list jsstring) : jsstring :=
  match h with
  | Const s => s
  | Identity => match args with
                | s :: _ => s
                | [] => []
                end
  | Sqrt => [0x221A; 40]%N
            ++ match args with
               | arg :: _ => arg
               | [] => lit "undefined"
               end
            ++ [41]%N
  end.

(** The classes of [subsupre]: the keys with the hyphen removed. *)
Definition no_hyphen (cls : jsstring) : jsstring :=
  filter (fun c => negb (ceq c 45%N)) cls.
Definition sub_class : jsstring := no_hyphen (keys submap).
Definition sup_class : jsstring := no_hyphen (keys supmap).

Inductive run : Type := Plain | InSub | InSup.

(** [subsup]: an underscore or a caret followed by a non-empty run of
    its class is replaced by the run transliterated; the scan resumes
    after the run. *)
Fixpoint subsup_from (r : run) (s : jsstring) : jsstring :=
  match s with
  | [] => []
  | c :: s' =>
      let plain :=
        match s' with
        | d :: _ =>
            if ceq c 95%N && mem d sub_class then subsup_from InSub s'
            else if ceq c 94%N && mem d sup_class then subsup_from InSup s'
            else c :: subsup_from Plain s'
        | [] => [c]
        end in
      match r with
      | Plain => plain
      | InSub => if mem c sub_class
                 then transliterate submap [c] ++ subsup_from InSub s'
                 else plain
      | InSup => if mem c sup_class
                 then transliterate supmap [c] ++ subsup_from InSup s'
                 else plain
      end
  end.
Definition subsup (s : jsstring) : jsstring := subsup_from Plain s.

(** The index of the first character satisfying [p]:
    [s.search(/[...]/)], [None] for -1. *)
Fixpoint search (p : char -> bool) (s : jsstring) : option nat :=
  match s with
  | [] => None
  | c :: s' => if p c then Some O else option_map S (search p s')
  end.

Fixpoint take_while (p : char -> bool) (s : jsstring) : jsstring :=
  match s with
  | c :: s' => if p c then c :: take_while p s' else []
  | [] => []
  end.

Definition is_open (c : char) : bool := ceq c 123%N || ceq c 91%N.
Definition is_delim (c : char) : bool :=
  is_open c || ceq c 125%N || ceq c 93%N.

(** The match of the macro pattern: a backslash, the name (letters, or
    one character that is no line terminator, or nothing), then
    optionally an opening brace or bracket, or white space. *)
Record MacroMatch : Type := {
  m_index : nat;            (* m.index *)
  m_length : nat;           (* m[0].length *)
  m_fname : jsstring;       (* m[1] *)
  m_open : option char      (* m[2] *)
}.

Definition macro_exec (math : jsstring) : option MacroMatch :=
  match search (ceq BACKSLASH) math with
  | None => None
  | Some i =>
      let after := skipn (S i) math in
      let fname :=
        match take_while is_letter after with
        | c :: l => c :: l
        | [] => match after with
                | c :: _ => if is_line_terminator c then [] else [c]
                | [] => []
                end
        end in
      let rest := skipn (length fname) after in
      let '(opn, n) :=
        match rest with
        | c :: _ => if is_open c then (Some c, 1)
                    else (None, length (take_while is_space rest))
        | [] => (None, 0)
        end in
      Some {| m_index := i; m_length := 1 + length fname + n;
              m_fname := fname; m_open := opn |}
  end.

(** The match of the pattern for a chained argument, white space then
    an opening brace or bracket at the start: the length of the match. *)
Definition chained_exec (math : jsstring) : option nat :=
  let ws := take_while is_space math in
  match skipn (length ws) math with
  | c :: _ => if is_open c then Some (S (length ws)) else None
  | [] => None
  end.

Definition warn (d : diagnostic) : M Proc unit :=
  console_warn (fun p => p) (fun p _ => p) d.

(** The inner loop, which finds the arguments.  [opn] and [last] are
    the variables [open] and [last] of the source. *)
Fixpoint find_args (fuel : nat) (fname : jsstring) (math : jsstring)
  (opn : Z) (last : nat) (args : list jsstring)
  : M Proc (list jsstring * jsstring) :=
  match fuel with
  | O => out_of_fuel
  | S fuel' =>
      match search is_delim (slice_from last math) with
      | None =>
          warn (UnterminatedMathArgument fname math) ;;
          ret (args ++ [math], [])
      | Some next =>
          if is_open (nth (last + next) math 0%N) then
            find_args fuel' fname math (opn + 1)%Z (last + next + 1) args
          else
            let opn := (opn - 1)%Z in
            if (opn =? 0)%Z then
              let args := args ++ [slice_to (last + next) math] in
              let math := slice_from (last + next + 1) math in
              match chained_exec math with
              | None => ret (args, math)
              | Some n => find_args fuel' fname (slice_from n math) 1%Z 0 args
              end
            else find_args fuel' fname math opn (last + next + 1) args
      end
  end.

(** [warned.hasOwnProperty(fname)]: the method is looked up on the
    object itself first, so once [warned] has an own property of that
    name (whose value is true) the call throws. *)
Definition warned_hasOwnProperty (fname : jsstring) : M Proc bool :=
  w <- gets warned ;;
  if existsb (seq_eqb (lit "hasOwnProperty")) w then throw TypeError
  else ret (existsb (seq_eqb fname) w).

Definition set_warned (fname : jsstring) : M Proc unit :=
  modify (fun p =>
    {| warned := if existsb (seq_eqb fname) (warned p) then warned p
                 else warned p ++ [fname];
       console := console p |}).

(** The end of an iteration: the function of the name applied to the
    arguments, or an unknown name written back with its arguments in
    braces and a space, after a warning the first time. *)
Definition render (fname : jsstring) (args : list jsstring)
  : M Proc jsstring :=
  match own funcMap fname with
  | None =>
      seen <- warned_hasOwnProperty fname ;;
      when (negb seen)
        (warn (UnknownMathFunction fname) ;;
         set_warned fname) ;;
      ret ([BACKSLASH] ++ fname
           ++ concat (map (fun a => [123%N] ++ a ++ [125%N]) args)
           ++ [SP])
  | Some h => ret (apply h args)
  end.

(** The loop of [cleanMath], from the values [result] and [math] of its
    variables; a recursive call on an argument starts from the empty
    result. *)
Fixpoint cleanMath_loop (fuel : nat) (result math : jsstring)
  : M Proc jsstring :=
  match fuel with
  | O => out_of_fuel
  | S fuel' =>
      match macro_exec math with
      | None => ret (result ++ subsup math)
      | Some m =>
          let fname := m_fname m in
          let result := result ++ slice_to (m_index m) math in
          let math := slice_from (m_index m + m_length m) math in
          am <- match m_open m with
                | Some _ =>
                    am <- find_args (S (length math)) fname math 1%Z 0 [] ;;
                    args <- mapM (cleanMath_loop fuel' []) (fst am) ;;
                    ret (args, snd am)
                | None => ret ([], math)
                end ;;
          out <- render (m_fname m) (fst am) ;;
          cleanMath_loop fuel' (result ++ out) (snd am)
      end
  end.

Definition cleanMath (fuel : nat) (math : jsstring) : M Proc jsstring :=
  cleanMath_loop fuel [] math.

(** [cleanMathTable]: [replace] with a string pattern replaces the first
    occurrence only. *)
Fixpoint replace_first_bsbs (s : jsstring) : jsstring :=
  match s with
  | c :: s' =>
      match s' with
      | d :: s'' => if ceq c BACKSLASH && ceq d BACKSLASH then LF :: s''
                    else c :: replace_first_bsbs s'
      | [] => [c]
      end
  | [] => []
  end.
Fixpoint replace_first_amp (s : jsstring) : jsstring :=
  match s with
  | c :: s' => if ceq c 38%N then SP :: s' else c :: replace_first_amp s'
  | [] => []
  end.
Definition cleanMathTable (math : jsstring) : jsstring :=
  replace_first_amp (replace_first_bsbs math).

End Math.

(* ------------------------------------------------------------------ *)
(** * JSON.parse *)

Module Json.

#[warnings="-register-all"] Inductive value : Type :=
| Null
| Bool (b : bool)
| Number (lexeme : jsstring)
| Str (s : jsstring)
| Array (l : list value)
| Object (l : list (jsstring * value)).

Definition is_ws (c : char) : bool := mem c [9; 10; 13; 32]%N.

Fixpoint skip_ws (s : jsstring) : jsstring :=
  match s with
  | c :: s' => if is_ws c then skip_ws s' else s
  | [] => []
  end.

Definition hex_digit (c : char) : option N :=
  if is_digit c then Some (c - 48)%N
  else if ((97 <=? c) && (c <=? 102))%N then Some (c - 87)%N
  else if ((65 <=? c) && (c <=? 70))%N then Some (c - 55)%N
  else None.

Definition hex4 (a b c d : char) : option char :=
  match hex_digit a, hex_digit b, hex_digit c, hex_digit d with
  | Some x, Some y, Some z, Some w => Some (((x * 16 + y) * 16 + z) * 16 + w)%N
  | _, _, _, _ => None
  end.

Definition escape (e : char) : option char :=
  if mem e [34; 92; 47]%N then Some e
  else if ceq e 98%N then Some 8%N
  else if ceq e 102%N then Some 12%N
  else if ceq e 110%N then Some 10%N
  else if ceq e 114%N then Some 13%N
  else if ceq e 116%N then Some 9%N
  else None.

(** The characters of a string, after the opening quote. *)
Fixpoint string_body (s acc : jsstring) : option (jsstring * jsstring) :=
  match s with
  | [] => None
  | c :: s1 =>
      if ceq c 34%N then Some (rev acc, s1)
      else if ceq c 92%N then
        match s1 with
        | e :: s2 =>
            if ceq e 117%N then
              match s2 with
              | h1 :: h2 :: h3 :: h4 :: s3 =>
                  match hex4 h1 h2 h3 h4 with
                  | Some u => string_body s3 (u :: acc)
                  | None => None
                  end
              | _ => None
              end
            else
              match escape e with
              | Some u => string_body s2 (u :: acc)
              | None => None
              end
        | [] => None
        end
      else if (c <? 32)%N then None
      else string_body s1 (c :: acc)
  end.

Definition digits (s : jsstring) : jsstring := Math.take_while is_digit s.

(** The lexeme of a number at the head of [s]: an optional minus, the
    integer part (a lone zero, or digits not starting with zero), an
    optional fraction and an optional exponent. *)
Definition number (s : jsstring) : option (jsstring * jsstring) :=
  let '(sign, s1) := match s with
                     | c :: s' => if ceq c 45%N then ([c], s') else ([], s)
                     | [] => ([], s)
                     end in
  let all := digits s1 in
  let int := match all with
             | d :: _ => if ceq d 48%N then [d] else all
             | [] => []
             end in
  match int with
  | [] => None
  | _ :: _ =>
      let s2 := skipn (length int) s1 in
      let '(frac, s3) :=
        match s2 with
        | c :: s' => if ceq c 46%N
                     then match digits s' with
                          | [] => ([c], s2)
                          | f => (c :: f, skipn (length f) s')
                          end
                     else ([], s2)
        | [] => ([], s2)
        end in
      match frac with
      | [_] => None (* a point without digits *)
      | _ =>
          let '(ex, s4) :=
            match s3 with
            | c :: s' =>
                if ceq c 101%N || ceq c 69%N then
                  let '(sg, s'') :=
                    match s' with
                    | g :: t => if ceq g 43%N || ceq g 45%N
                                then ([g], t) else ([], s')
                    | [] => ([], s')
                    end in
                  match digits s'' with
                  | [] => ([c], s3)
                  | e => (c :: sg ++ e, skipn (length e) s'')
                  end
                else ([], s3)
            | [] => ([], s3)
            end in
          match ex with
          | [_] => None (* an exponent mark without digits *)
          | _ => Some (sign ++ int ++ frac ++ ex, s4)
          end
      end
  end.

Definition literal (word : jsstring) (v : value) (s : jsstring)
  : option (value * jsstring) :=
  if seq_eqb (firstn (length word) s) word
  then Some (v, skipn (length word) s) else None.

Fixpoint parse_value (fuel : nat) (s : jsstring) : option (value * jsstring) :=
  match fuel with
  | O => None
  | S fuel' =>
      match skip_ws s with
      | [] => None
      | c :: s' =>
          if ceq c 123%N then
            match skip_ws s' with
            | d :: s'' => if ceq d 125%N then Some (Object [], s'')
                          else parse_members fuel' (skip_ws s') []
            | [] => None
            end
          else if ceq c 91%N then
            match skip_ws s' with
            | d :: s'' => if ceq d 93%N then Some (Array [], s'')
                          else parse_elements fuel' (skip_ws s') []
            | [] => None
            end
          else if ceq c 34%N then
            match string_body s' [] with
            | Some (str, rest) => Some (Str str, rest)
            | None => None
            end
          else if ceq c 116%N then literal (lit "true") (Bool true) (c :: s')
          else if ceq c 102%N then literal (lit "false") (Bool false) (c :: s')
          else if ceq c 110%N then literal (lit "null") Null (c :: s')
          else
            match number (c :: s') with
            | Some (lx, rest) => Some (Number lx, rest)
            | None => None
            end
      end
  end
with parse_elements (fuel : nat) (s : jsstring) (acc : list value)
  : option (value * jsstring) :=
  match fuel with
  | O => None
  | S fuel' =>
      match parse_value fuel' s with
      | None => None
      | Some (v, rest) =>
          match skip_ws rest with
          | c :: rest' =>
              if ceq c 44%N then parse_elements fuel' rest' (v :: acc)
              else if ceq c 93%N then Some (Array (rev (v :: acc)), rest')
              else None
          | [] => None
          end
      end
  end
with parse_members (fuel : nat) (s : jsstring) (acc : list (jsstring * value))
  : option (value * jsstring) :=
  match fuel with
  | O => None
  | S fuel' =>
      match skip_ws s with
      | q :: s' =>
          if ceq q 34%N then
            match string_body s' [] with
            | Some (key, rest) =>
                match skip_ws rest with
                | c :: rest' =>
                    if ceq c 58%N then
                      match parse_value fuel' rest' with
                      | Some (v, rest2) =>
                          match skip_ws rest2 with
                          | d :: rest3 =>
                              if ceq d 44%N
                              then parse_members fuel' rest3 ((key, v) :: acc)
                              else if ceq d 125%N
                              then Some (Object (rev ((key, v) :: acc)), rest3)
                              else None
                          | [] => None
                          end
                      | None => None
                      end
                    else None
                | [] => None
                end
            | None => None
            end
          else None
      | [] => None
      end
  end.

(** [JSON.parse(text)]; a text that is no JSON throws a SyntaxError.
    The argument null is first turned into the text null. *)
Definition parse (text : option jsstring) : res value :=
  match text with
  | None => Ok Null
  | Some s =>
      match parse_value (2 * length s + 2) s with
      | Some (v, rest) =>
          match skip_ws rest with
          | [] => Ok v
          | _ :: _ => Throw SyntaxError
          end
      | None => Throw SyntaxError
      end
  end.

(** Property of an object by name: the last member of that name. *)
Fixpoint member (l : list (jsstring * value)) (k : jsstring) : option value :=
  match l with
  | [] => None
  | (k', v) :: l' =>
      match member l' k with
      | Some w => Some w
      | None => if seq_eqb k k' then Some v else None
      end
  end.

(** [v.name] for one of the names [parts], [template], [target],
    [href], [body], [extsrc], none of which is a property of a
    prototype: [None] is undefined, and reading a property of null or
    undefined throws. *)
Definition get (v : option value) (name : jsstring) : res (option value) :=
  match v with
  | None | Some Null => Throw TypeError
  | Some (Object l) => Ok (member l name)
  | Some _ => Ok None
  end.

(** [v[0]] *)
Definition get0 (v : option value) : res (option value) :=
  match v with
  | None | Some Null => Throw TypeError
  | Some (Object l) => Ok (member l (lit "0"))
  | Some (Array l) => Ok (nth_error l 0)
  | Some (Str (c :: _)) => Ok (Some (Str [c]))
  | Some _ => Ok None
  end.

End Json.

(* ------------------------------------------------------------------ *)
(** * Document nodes *)

(** A node of the document tree, as the visitor reads it: elements with
    their [nodeName], attributes and [childNodes]; text and CDATA nodes
    with their [data]; every other node type (comments, processing
    instructions, doctypes) is swallowed alike. *)
#[warnings="-register-all"] Inductive Node : Type :=
| Element (nodeName : jsstring) (attributes : list (jsstring * jsstring))
          (childNodes : list Node)
| Text (data : jsstring)
| CData (data : jsstring)
| OtherNode.

Module Dom.

Definition childNodes (n : Node) : list Node :=
  match n with
  | Element _ _ ch => ch
  | _ => []
  end.

Definition nodeName (n : Node) : jsstring :=
  match n with
  | Element name _ _ => name
  | Text _ => lit "#text"
  | CData _ => lit "#cdata-section"
  | OtherNode => lit "#comment"
  end.

Definition is_element (n : Node) : bool :=
  match n with
  | Element _ _ _ => true
  | _ => false
  end.

Fixpoint assoc (l : list (jsstring * jsstring)) (k : jsstring)
  : option jsstring :=
  match l with
  | [] => None
  | (k', v) :: l' => if seq_eqb k k' then Some v else assoc l' k
  end.

(** [node.getAttribute(name)], [None] for null. *)
Definition getAttribute (n : Node) (name : jsstring) : option jsstring :=
  match n with
  | Element _ attrs _ => assoc attrs name
  | _ => None
  end.

Definition hasAttribute (n : Node) (name : jsstring) : bool :=
  match getAttribute n name with
  | Some _ => true
  | None => false
  end.

Definition attr_is (n : Node) (name value : jsstring) : bool :=
  match getAttribute n name with
  | Some v => seq_eqb v value
  | None => false
  end.

(** The tokens of the [class] attribute, split at ASCII white space. *)
Definition is_ascii_ws (c : char) : bool := mem c [9; 10; 12; 13; 32]%N.

Fixpoint tokens (s cur : jsstring) : list jsstring :=
  match s with
  | [] => match cur with
          | [] => []
          | _ :: _ => [rev cur]
          end
  | c :: s' =>
      if is_ascii_ws c then
        match cur with
        | [] => tokens s' []
        | _ :: _ => rev cur :: tokens s' []
        end
      else tokens s' (c :: cur)
  end.

Definition classList (n : Node) : list jsstring :=
  match getAttribute n (lit "class") with
  | Some v => tokens v []
  | None => []
  end.

Definition classList_contains (n : Node) (c : jsstring) : bool :=
  existsb (seq_eqb c) (classList n).

(** The element children, in order: [firstElementChild] is the head,
    [nextElementSibling] the next one. *)
Definition elements (n : Node) : list Node := filter is_element (childNodes n).

Definition firstElementChild (n : Node) : option Node := hd_error (elements n).

End Dom.

(* ------------------------------------------------------------------ *)
(** * Predicates on elements *)

(** The try block of [isMultipleImageTemplate]. *)
Definition multipleImage_try (node : Node) : res bool :=
  match Json.parse (Dom.getAttribute node (lit "data-mw")) with
  | Ok data =>
      match Json.get (Some data) (lit "parts") with
      | Ok parts =>
          match Json.get0 parts with
          | Ok part0 =>
              match Json.get part0 (lit "template") with
              | Ok template =>
                  match Json.get template (lit "target") with
                  | Ok target =>
                      match Json.get target (lit "href") with
                      | Ok (Some (Json.Str href)) =>
                          Ok (seq_eqb href (lit "./Template:Triple_image")
                              || seq_eqb href (lit "./Template:Double_image"))
                      | Ok _ => Ok false
                      | Throw e => Throw e
                      | OutOfFuel => OutOfFuel
                      end
                  | Throw e => Throw e
                  | OutOfFuel => OutOfFuel
                  end
              | Throw e => Throw e
              | OutOfFuel => OutOfFuel
              end
          | Throw e => Throw e
          | OutOfFuel => OutOfFuel
          end
      | Throw e => Throw e
      | OutOfFuel => OutOfFuel
      end
  | Throw e => Throw e
  | OutOfFuel => OutOfFuel
  end.

(** [catch (e) { /* ignore */ }], then [return false]. *)
Definition isMultipleImageTemplate (node : Node) : bool :=
  if Dom.attr_is node (lit "typeof") (lit "mw:Transclusion") then
    match multipleImage_try node with
    | Ok true => true
    | _ => false
    end
  else false.

(** ASCII case folding of the [i] flag. *)
Definition lower (c : char) : char :=
  if ((65 <=? c) && (c <=? 90))%N then (c + 32)%N else c.

Fixpoint ci_prefix (word s : jsstring) : option jsstring :=
  match word, s with
  | [], _ => Some s
  | w :: word', c :: s' => if ceq (lower c) w then ci_prefix word' s' else None
  | _ :: _, [] => None
  end.

(** The pattern for an inline display:none, tried at the head of [s]
    (after the start of the text or a semicolon): white space, display,
    white space, a colon, white space, none, white space, then a
    semicolon or the end. *)
Definition display_none_here (s : jsstring) : bool :=
  match ci_prefix (lit "display") (strip_leading_space s) with
  | Some s1 =>
      match strip_leading_space s1 with
      | c :: s2 =>
          if ceq c 58%N then
            match ci_prefix (lit "none") (strip_leading_space s2) with
            | Some s3 =>
                match strip_leading_space s3 with
                | [] => true
                | d :: _ => ceq d 59%N
                end
            | None => false
            end
          else false
      | [] => false
      end
  | None => false
  end.

Fixpoint display_none_after_semicolon (s : jsstring) : bool :=
  match s with
  | [] => false
  | c :: s' => (ceq c 59%N && display_none_here s')
               || display_none_after_semicolon s'
  end.

Definition display_none_test (style : jsstring) : bool :=
  display_none_here style || display_none_after_semicolon style.

Definition hidden_classes : list jsstring :=
  [lit "infobox"; lit "navbox"; lit "rellink"; lit "dablink"; lit "toplink";
   lit "metadata"].

Definition isHidden (node : Node) : bool :=
  if isMultipleImageTemplate node then false
  else if Dom.classList_contains node (lit "noprint") then true
  else if display_none_test
            (match Dom.getAttribute node (lit "style") with
             | Some (c :: st) => c :: st
             | _ => []
             end) then true
  else if existsb (Dom.classList_contains node) hidden_classes then true
  else false.

(* ------------------------------------------------------------------ *)
(** * The environment pattern of the math handler *)

Module Env.

Definition names : list jsstring :=
  [lit "eqnarray"; lit "equation"; lit "align"; lit "gather"; lit "falign";
   lit "multiline"; lit "alignat"].

Fixpoint prefix (word s : jsstring) : option jsstring :=
  match word, s with
  | [], _ => Some s
  | w :: word', c :: s' => if ceq c w then prefix word' s' else None
  | _ :: _, [] => None
  end.

(** After a name: an optional star, white space, a closing brace. *)
Definition close_begin (s : jsstring) : option jsstring :=
  let s := match s with
           | c :: s' => if ceq c 42%N then s' else s
           | [] => s
           end in
  match strip_leading_space s with
  | c :: s' => if ceq c 125%N then Some s' else None
  | [] => None
  end.

(** The alternatives of the name, in the order of the pattern; the
    first whose continuation matches is the one captured. *)
Fixpoint begin_name (alts : list jsstring) (s : jsstring)
  : option (jsstring * jsstring) :=
  match alts with
  | [] => None
  | w :: alts' =>
      match prefix w s with
      | Some s1 =>
          match close_begin s1 with
          | Some s2 => Some (w, s2)
          | None => begin_name alts' s
          end
      | None => begin_name alts' s
      end
  end.

(** The head of the pattern, up to the closing brace of begin. *)
Definition begin_exec (s : jsstring) : option (jsstring * jsstring) :=
  match prefix (lit "\begin") (strip_leading_space s) with
  | Some s1 =>
      match strip_leading_space s1 with
      | c :: s2 => if ceq c 123%N
                   then begin_name names (strip_leading_space s2)
                   else None
      | [] => None
      end
  | None => None
  end.

Definition not_brace_star (c : char) : bool :=
  negb (ceq c 125%N || ceq c 42%N).

(** The tail of the pattern, from the backslash of end to the end of
    the text. *)
Definition end_here (s : jsstring) : bool :=
  match prefix (lit "\end") s with
  | Some s1 =>
      match strip_leading_space s1 with
      | c :: s2 =>
          if ceq c 123%N then
            match Math.take_while not_brace_star s2 with
            | [] => false
            | y =>
                match close_begin (skipn (length y) s2) with
                | Some s3 => match strip_leading_space s3 with
                             | [] => true
                             | _ :: _ => false
                             end
                | None => false
                end
            end
          else false
      | [] => false
      end
  | None => false
  end.

(** The greedy body: the longest prefix after which the tail matches. *)
Fixpoint body (s pre : jsstring) (best : option jsstring) : option jsstring :=
  let best := if end_here s then Some (rev pre) else best in
  match s with
  | [] => best
  | c :: s' => body s' (c :: pre) best
  end.

(** The match of the whole pattern: the name and the body captured. *)
Definition exec (math : jsstring) : option (jsstring * jsstring) :=
  match begin_exec math with
  | Some (name, rest) =>
      match body rest [] None with
      | Some b => Some (name, b)
      | None => None
      end
  | None => None
  end.

(** The test of the name against array, align and eqnarray. *)
Definition is_table (name : jsstring) : bool :=
  existsb (seq_eqb name) [lit "array"; lit "align"; lit "eqnarray"].

End Env.

(* ------------------------------------------------------------------ *)
(** * The sinks of the visitor *)

(** The object that [collect] puts in place of the formatter: its two
    flags and the array [b] it pushes to. *)
Record Collector : Type := {
  c_newLine : bool;
  c_newPara : bool;
  c_b : list jsstring
}.

Module Collect.

Definition create : Collector :=
  {| c_newLine := true; c_newPara := true; c_b := [] |}.

Definition push (text : jsstring) (c : Collector) : Collector :=
  {| c_newLine := c_newLine c; c_newPara := c_newPara c;
     c_b := c_b c ++ [text] |}.

Definition write (text : jsstring) (c : Collector) : Collector :=
  {| c_newLine := false; c_newPara := false; c_b := c_b c ++ [text] |}.

Definition lineBreak (c : Collector) : Collector :=
  if c_newLine c then c
  else {| c_newLine := true; c_newPara := c_newPara c;
          c_b := c_b c ++ [[SP]] |}.

Definition paragraphBreak (c : Collector) : Collector :=
  if c_newPara c then c
  else let c := lineBreak c in
       {| c_newLine := c_newLine c; c_newPara := true; c_b := c_b c |}.

Definition indent (tag : option jsstring) (c : Collector) : Collector :=
  let c := lineBreak c in
  match tag with
  | Some (x :: tg) => push [SP] (push (x :: tg) c)
  | _ => c
  end.

Definition dedent (c : Collector) : Collector := lineBreak c.

End Collect.

(** [this.format]: the formatter of the conversion, or a collector. *)
Inductive Sink : Type :=
| Real (f : Formatter.t)
| Coll (c : Collector).

(* ------------------------------------------------------------------ *)
(** * Visitor *)

(** [this.listInfo].  A field that was never assigned is [None]; [sawDT]
    is only ever tested for truth, so undefined is [false]. *)
Record ListInfo : Type := {
  li_type : option jsstring;
  li_num : option Z;
  li_depth : Z;
  li_sawDT : bool
}.

Record VOptions : Type := {
  o_base : option jsstring;
  o_noWrap : bool;
  o_noRefs : bool;
  o_singleItem : bool;
  o_hasChapters : bool;
  o_lang : option jsstring;
  o_dir : option jsstring
}.

(** The fields of a Visitor object, with the process state ([warned]
    and the console) that its math handler reaches. *)
Record Visitor : Type := {
  format : Sink;
  v_options : VOptions;
  templates : list jsstring;
  base : jsstring;
  currentLanguage : option jsstring;
  tocLanguage : option jsstring;
  currentDirectionality : option jsstring;
  usedLanguages : list (option jsstring);
  listInfo : ListInfo;
  proc : Proc
}.

Definition set_format (x : Sink) (v : Visitor) : Visitor :=
  {| format := x; v_options := v_options v; templates := templates v;
     base := base v; currentLanguage := currentLanguage v;
     tocLanguage := tocLanguage v;
     currentDirectionality := currentDirectionality v;
     usedLanguages := usedLanguages v; listInfo := listInfo v;
     proc := proc v |}.
Definition set_templates (x : list jsstring) (v : Visitor) : Visitor :=
  {| format := format v; v_options := v_options v; templates := x;
     base := base v; currentLanguage := currentLanguage v;
     tocLanguage := tocLanguage v;
     currentDirectionality := currentDirectionality v;
     usedLanguages := usedLanguages v; listInfo := listInfo v;
     proc := proc v |}.
Definition set_currentLanguage (x : option jsstring) (v : Visitor) : Visitor :=
  {| format := format v; v_options := v_options v; templates := templates v;
     base := base v; currentLanguage := x;
     tocLanguage := tocLanguage v;
     currentDirectionality := currentDirectionality v;
     usedLanguages := usedLanguages v; listInfo := listInfo v;
     proc := proc v |}.
Definition set_currentDirectionality (x : option jsstring) (v : Visitor)
  : Visitor :=
  {| format := format v; v_options := v_options v; templates := templates v;
     base := base v; currentLanguage := currentLanguage v;
     tocLanguage := tocLanguage v;
     currentDirectionality := x;
     usedLanguages := usedLanguages v; listInfo := listInfo v;
     proc := proc v |}.
Definition set_usedLanguages (x : list (option jsstring)) (v : Visitor)
  : Visitor :=
  {| format := format v; v_options := v_options v; templates := templates v;
     base := base v; currentLanguage := currentLanguage v;
     tocLanguage := tocLanguage v;
     currentDirectionality := currentDirectionality v;
     usedLanguages := x; listInfo := listInfo v;
     proc := proc v |}.
Definition set_listInfo (x : ListInfo) (v : Visitor) : Visitor :=
  {| format := format v; v_options := v_options v; templates := templates v;
     base := base v; currentLanguage := currentLanguage v;
     tocLanguage := tocLanguage v;
     currentDirectionality := currentDirectionality v;
     usedLanguages := usedLanguages v; listInfo := x;
     proc := proc v |}.
Definition set_proc (x : Proc) (v : Visitor) : Visitor :=
  {| format := format v; v_options := v_options v; templates := templates v;
     base := base v; currentLanguage := currentLanguage v;
     tocLanguage := tocLanguage v;
     currentDirectionality := currentDirectionality v;
     usedLanguages := usedLanguages v; listInfo := listInfo v;
     proc := x |}.

Definition set_sawDT (b : bool) (li : ListInfo) : ListInfo :=
  {| li_type := li_type li; li_num := li_num li; li_depth := li_depth li;
     li_sawDT := b |}.
Definition set_num (n : option Z) (li : ListInfo) : ListInfo :=
  {| li_type := li_type li; li_num := n; li_depth := li_depth li;
     li_sawDT := li_sawDT li |}.

(** [set.add(x)] on a Set kept in insertion order. *)
Definition set_add (x : option jsstring) (l : list (option jsstring))
  : list (option jsstring) :=
  if existsb (fun y => negb (opt_neq x y)) l then l else l ++ [x].

(** [obj[key] = true] on an object kept as the list of its keys; a null
    key is the property named null. *)
Definition key_add (key : option jsstring) (l : list jsstring)
  : list jsstring :=
  let k := match key with
           | Some k => k
           | None => lit "null"
           end in
  if existsb (seq_eqb k) l then l else l ++ [k].

(** [new Visitor(document, format, options)] *)
Definition new_Visitor (fmt : Sink) (o : VOptions) (p : Proc) : Visitor :=
  {| format := fmt; v_options := o; templates := [];
     base := match o_base o with
             | Some (c :: b) => c :: b
             | _ => []
             end;
     currentLanguage := or_else (o_lang o) (Some (lit "en"));
     tocLanguage := or_else (o_lang o) (Some (lit "en"));
     currentDirectionality := or_else (o_dir o) (Some (lit "ltr"));
     usedLanguages := [];
     listInfo := {| li_type := None; li_num := None; li_depth := 0;
                    li_sawDT := false |};
     proc := p |}.

(** An entry of the Polyglossia table. *)
Record Poly : Type := { poly_dir : option jsstring }.

(** The methods of [Visitor.prototype] whose property name starts with
    visit: what [this['visit' + ...]] can find. *)
Inductive method : Type :=
| m_visit | m_visitChildren | m_visitBODY | m_visitA | m_visitP | m_visitSUB
| m_visitSUP | m_visitCENTER | m_visitBR | m_visitHn | m_visitH (n : Z)
| m_REL_references | m_visitOL | m_visitLI | m_visitDL | m_visitDT
| m_visitDD | m_visitBLOCKQUOTE | m_REL_referencedBy | m_TYPEOF_references
| m_visitTABLE | m_visitFIGURE | m_TYPEOF_math | m_LANG | m_DIR
| m_TYPEOF_Image | m_visitMultipleImage | m_visitDIV.

Definition prototype : list (jsstring * method) := [
  (lit "visit", m_visit);
  (lit "visitChildren", m_visitChildren);
  (lit "visitBODY", m_visitBODY);
  (lit "visitA", m_visitA);
  (lit "visitP", m_visitP);
  (lit "visitSUB", m_visitSUB);
  (lit "visitSUP", m_visitSUP);
  (lit "visitCENTER", m_visitCENTER);
  (lit "visitBR", m_visitBR);
  (lit "visitHn", m_visitHn);
  (lit "visitH1", m_visitH 1);
  (lit "visitH2", m_visitH 2);
  (lit "visitH3", m_visitH 3);
  (lit "visitH4", m_visitH 4);
  (lit "visitH5", m_visitH 5);
  (lit "visitH6", m_visitH 6);
  (lit "visitREL=dc:references", m_REL_references);
  (lit "visitUL", m_visitOL);
  (lit "visitOL", m_visitOL);
  (lit "visitLI", m_visitLI);
  (lit "visitDL", m_visitDL);
  (lit "visitDT", m_visitDT);
  (lit "visitDD", m_visitDD);
  (lit "visitBLOCKQUOTE", m_visitBLOCKQUOTE);
  (lit "visitREL=mw:referencedBy", m_REL_referencedBy);
  (lit "visitTYPEOF=mw:Extension/references", m_TYPEOF_references);
  (lit "visitTABLE", m_visitTABLE);
  (lit "visitFIGURE", m_visitFIGURE);
  (lit "visitTYPEOF=mw:Extension/math", m_TYPEOF_math);
  (lit "visitLANG=", m_LANG);
  (lit "visitDIR=", m_DIR);
  (lit "visitTYPEOF=mw:Image", m_TYPEOF_Image);
  (lit "visitTYPEOF=mw:Image/Thumb", m_TYPEOF_Image);
  (lit "visitMultipleImage", m_visitMultipleImage);
  (lit "visitDIV", m_visitDIV)
]%Z.

(** [this[name]], [None] when the property is undefined. *)
Fixpoint property (tbl : list (jsstring * method)) (name : jsstring)
  : option method :=
  match tbl with
  | [] => None
  | (k, m) :: tbl' => if seq_eqb name k then Some m else property tbl' name
  end.

(** The comparison [this.listInfo === 'OL'] of [visitLI]: strict
    equality of an object with a string primitive, which is false
    whatever the object holds. *)
Definition strict_equal_object_string (o : ListInfo) (s : jsstring) : bool :=
  false.

(** The marker [(++this.listInfo.num) + ".)]".charAt(depth)]; the
    increment of an undefined counter is NaN. *)
Definition charAt (s : jsstring) (i : Z) : jsstring :=
  if (i <? 0)%Z then []
  else match nth_error s (Z.to_nat i) with
       | Some c => [c]
       | None => []
       end.

Definition number_text (n : option Z) : jsstring :=
  match n with
  | Some z => if (z <? 0)%Z then 45%N :: decimal (Z.to_N (- z))
              else decimal (Z.to_N z)
  | None => lit "NaN"
  end.

Definition ordered_tag (num : option Z) (depth : Z) : jsstring :=
  number_text num ++ charAt (lit ".)]") depth.

(** The pattern of a reference marker: a bracket, digits, a bracket. *)
Definition is_ref_marker (s : jsstring) : bool :=
  match s with
  | c :: s' =>
      ceq c 91%N &&
      match rev s' with
      | d :: ds => ceq d 93%N
                   && match ds with
                      | [] => false
                      | _ :: _ => forallb is_digit ds
                      end
      | [] => false
      end
  | [] => false
  end.

(** [contents.slice(1, -1)] *)
Definition slice_1_m1 (s : jsstring) : jsstring := removelast (skipn 1 s).

Section Visitor.

(** Collaborators outside lib/index.js. *)

(** the [linewrap] package; *)
Variable linewrap : Z -> Z -> LinewrapOpts -> jsstring -> jsstring.

(** [DomUtil.first_child], the first non-ws child node, [None] for null; *)
Variable first_child : Node -> option Node.

(** [Polyglossia.lookup]: it may throw, or return undefined ([None]); *)
Variable Polyglossia_lookup : option jsstring -> res (option Poly).

(** the selector engine behind [visitMultipleImage]: the images and the
    captions that the two [querySelectorAll] calls find from the parent
    element of the node; it throws when there is no parent element or
    the selector is rejected; *)
Variable multiple_image_query : Node -> res (list Node * list Node).

(** ToString of a value that is no string, as the patterns of the math
    handler coerce their argument; *)
Variable ToString : option Json.value -> res jsstring.

(** and [cleanMath] run on an array. *)
Variable cleanMath_array : list Json.value -> M Proc jsstring.

(** ** The active sink *)

Definition lift_format (real : M Formatter.t unit)
  (coll : Collector -> Collector) : M Visitor unit :=
  fun v =>
    match format v with
    | Real f => let '(r, f') := real f in (r, set_format (Real f') v)
    | Coll c => (Ok tt, set_format (Coll (coll c)) v)
    end.

Definition format_write (text : jsstring) : M Visitor unit :=
  lift_format (Formatter.write text) (Collect.write text).
Definition format_lineBreak : M Visitor unit :=
  lift_format Formatter.lineBreak Collect.lineBreak.
Definition format_paragraphBreak : M Visitor unit :=
  lift_format Formatter.paragraphBreak Collect.paragraphBreak.
Definition format_indent (tag : option jsstring) : M Visitor unit :=
  lift_format (Formatter.indent linewrap tag) (Collect.indent tag).
Definition format_dedent : M Visitor unit :=
  lift_format Formatter.dedent Collect.dedent.

(** A collector has no [writeHeading]: calling it throws. *)
Definition format_writeHeading (level : option Z) (heading : jsstring)
  : M Visitor unit :=
  fun v =>
    match format v with
    | Real f => let '(r, f') := Formatter.writeHeading level heading f in
                (r, set_format (Real f') v)
    | Coll c => (Throw TypeError, v)
    end.

(** The math interpreter, run on the process state. *)
Definition lift_proc {A} (c : M Proc A) : M Visitor A :=
  fun v => let '(r, p) := c (proc v) in (r, set_proc p v).

(** ** Handlers, over the method [visit] they call back *)

Section Handlers.

Variable visit : Node -> M Visitor unit.

Definition visitChildren (node : Node) : M Visitor unit :=
  forM (Dom.childNodes node) visit.

(** [collect]: the text is read from the array [b] of the collector put
    in place. *)
Definition collect (node : Node) (f : jsstring -> M Visitor unit)
  : M Visitor unit :=
  wasFormat <- gets format ;;
  modify (set_format (Coll Collect.create)) ;;
  visitChildren node ;;
  fmt <- gets format ;;
  let b := match fmt with
           | Coll c => c_b c
           | Real _ => []
           end in
  let text := collapse_space (concat b) in
  modify (set_format wasFormat) ;;
  f text.

Definition visitBODY (node : Node) : M Visitor unit :=
  (* the title worked out from the document is not used *)
  visitChildren node.

Definition visitA (node : Node) : M Visitor unit :=
  visitChildren node.

Definition visitP (node : Node) : M Visitor unit :=
  format_paragraphBreak ;;
  visitChildren node ;;
  format_paragraphBreak.

Definition visitSUB (node : Node) : M Visitor unit :=
  collect node (fun contents =>
    if subre_test contents
    then format_write (transliterate submap contents)
    else format_write (textEscape contents)).

Definition visitSUP (node : Node) : M Visitor unit :=
  o <- gets v_options ;;
  if o_noRefs o && Dom.classList_contains node (lit "Template-Fact")
  then ret tt
  else
    collect node (fun contents =>
      if supre_test contents
      then format_write (transliterate supmap contents)
      else format_write (textEscape contents)).

Definition visitCENTER (node : Node) : M Visitor unit :=
  format_lineBreak ;;
  visitChildren node ;;
  format_lineBreak.

Definition visitBR (node : Node) : M Visitor unit :=
  format_lineBreak.

(** [n] is [None] when the argument is missing; minus one it is NaN,
    which is [None] too. *)
Definition visitHn (node : Node) (n : option Z) : M Visitor unit :=
  o <- gets v_options ;;
  let n := if negb (o_hasChapters o) then option_map (fun z => z - 1)%Z n
           else n in
  if o_singleItem o && match n with
                       | Some z => (z =? 0)%Z
                       | None => false
                       end
  then ret tt
  else collect node (fun contents => format_writeHeading n contents).

Definition REL_references (node : Node) : M Visitor unit :=
  o <- gets v_options ;;
  if o_noRefs o then ret tt
  else
    collect node (fun contents =>
      let node :=
        if is_ref_marker contents
        then Element (lit "SUP") [] [Text (slice_1_m1 contents ++ [SP])]
        else node in
      visitSUP node).

Definition visitOL (node : Node) : M Visitor unit :=
  match first_child node with
  | None => ret tt
  | Some _ =>
      wasListInfo <- gets listInfo ;;
      modify (set_listInfo {| li_type := Some (Dom.nodeName node);
                              li_num := Some 0%Z;
                              li_depth := (li_depth wasListInfo + 1)%Z;
                              li_sawDT := false |}) ;;
      visitChildren node ;;
      modify (set_listInfo wasListInfo)
  end.

Definition visitLI (node : Node) : M Visitor unit :=
  li <- gets listInfo ;;
  let depth := Z.rem (li_depth li) 3 in
  let tag := charAt (lit "*-+") depth in
  tag <- (if strict_equal_object_string li (lit "OL") then
            let num := option_map (fun z => z + 1)%Z (li_num li) in
            modify (fun v => set_listInfo (set_num num (listInfo v)) v) ;;
            ret (ordered_tag num depth)
          else ret tag) ;;
  format_indent (Some tag) ;;
  visitChildren node ;;
  format_dedent.

(** The math handler; [display] is its second argument. *)
Definition TYPEOF_math (node : option Node) (display : bool)
  : M Visitor unit :=
  match node with
  | None => throw TypeError
  | Some node =>
      data <- lift_res (Json.parse (Dom.getAttribute node (lit "data-mw"))) ;;
      body <- lift_res (Json.get (Some data) (lit "body")) ;;
      extsrc <- lift_res (Json.get body (lit "extsrc")) ;;
      coerced <- match extsrc with
                 | Some (Json.Str s) => ret s
                 | other => lift_res (ToString other)
                 end ;;
      let m := Env.exec coerced in
      let interpreted :=
        match m with
        | Some (name, inner) =>
            let math := if Env.is_table name then Math.cleanMathTable inner
                        else inner in
            lift_proc (Math.cleanMath (S (length math)) math)
        | None =>
            match extsrc with
            | Some (Json.Str math) =>
                lift_proc (Math.cleanMath (S (length math)) math)
            | Some (Json.Array l) => lift_proc (cleanMath_array l)
            | _ => throw TypeError
            end
        end in
      let display := match m with
                     | Some _ => true
                     | None => display
                     end in
      text <- interpreted ;;
      format_write text ;;
      when display format_lineBreak
  end.

(** The first loop of [visitDL] over the element children: it stops
    after a DT. *)
Fixpoint dl_scan (dds : list Node) (sawDT allMath : bool) : bool * bool :=
  match dds with
  | [] => (sawDT, allMath)
  | dd :: dds' =>
      if sawDT then (sawDT, allMath)
      else
        let sawDT := seq_eqb (Dom.nodeName dd) (lit "DT") in
        let allMath :=
          match Dom.elements dd with
          | [math] => if Dom.attr_is math (lit "typeof")
                                     (lit "mw:Extension/math")
                      then allMath else false
          | _ => false
          end in
        dl_scan dds' sawDT allMath
  end.

Definition visitDL (node : Node) : M Visitor unit :=
  match first_child node with
  | None => ret tt
  | Some _ =>
      let '(sawDT, allMath) := dl_scan (Dom.elements node) false true in
      if allMath && negb sawDT then
        forM (Dom.elements node)
             (fun dd => TYPEOF_math (Dom.firstElementChild dd) true)
      else
        wasListInfo <- gets listInfo ;;
        modify (set_listInfo
                  {| li_type := Some (if sawDT then Dom.nodeName node
                                      else lit "BLOCKQUOTE");
                     li_num := Some 0%Z;
                     li_depth := (li_depth wasListInfo + 1)%Z;
                     li_sawDT := false |}) ;;
        visitChildren node ;;
        li <- gets listInfo ;;
        when (li_sawDT li) format_dedent ;;
        modify (set_listInfo wasListInfo)
  end.

Definition mark_sawDT (b : bool) : M Visitor unit :=
  modify (fun v => set_listInfo (set_sawDT b (listInfo v)) v).

Definition visitDT (node : Node) : M Visitor unit :=
  li <- gets listInfo ;;
  when (li_sawDT li) (format_dedent ;; mark_sawDT false) ;;
  collect node (fun contents =>
    format_indent (Some contents) ;;
    mark_sawDT true).

Definition visitDD (node : Node) : M Visitor unit :=
  li <- gets listInfo ;;
  when (negb (li_sawDT li)) (format_indent None ;; mark_sawDT true) ;;
  visitChildren node.

Definition visitBLOCKQUOTE (node : Node) : M Visitor unit :=
  format_indent None ;;
  visitChildren node ;;
  format_dedent.

Definition REL_referencedBy (node : Node) : M Visitor unit :=
  ret tt.

(** The loop over all the child nodes, numbered from 1. *)
Fixpoint references_loop (refs : list Node) (i : N) : M Visitor unit :=
  match refs with
  | [] => ret tt
  | ref :: refs' =>
      let name := textEscape ([91%N] ++ decimal (i + 1) ++ [93%N]) in
      format_indent (Some name) ;;
      visitChildren ref ;;
      format_dedent ;;
      references_loop refs' (i + 1)%N
  end.

Definition TYPEOF_references (node : Node) : M Visitor unit :=
  o <- gets v_options ;;
  if o_noRefs o then ret tt
  else references_loop (Dom.childNodes node) 0%N.

Definition visitTABLE (node : Node) : M Visitor unit :=
  ret tt.

Definition visitFIGURE (node : option Node) (extraCaption : option Node)
  : M Visitor unit :=
  ret tt.

Definition TYPEOF_Image (node : Node) : M Visitor unit :=
  visitFIGURE (Some node) None.

(** [images[i]] with [captions[i]], for every image. *)
Fixpoint figures_loop (images captions : list Node) : M Visitor unit :=
  match images with
  | [] => ret tt
  | img :: images' =>
      visitFIGURE (Some img) (hd_error captions) ;;
      figures_loop images' (tl captions)
  end.

Definition visitMultipleImage (node : Node) : M Visitor unit :=
  modify (fun v =>
    set_templates (key_add (Dom.getAttribute node (lit "about")) (templates v))
                  v) ;;
  found <- lift_res (multiple_image_query node) ;;
  figures_loop (fst found) (snd found).

Definition visitDIV (node : Node) : M Visitor unit :=
  if isMultipleImageTemplate node then visitMultipleImage node
  else
    format_lineBreak ;;
    visitChildren node ;;
    format_lineBreak.

Definition visitLANG (node : Node) : M Visitor unit :=
  savedLanguage <- gets currentLanguage ;;
  savedDirectionality <- gets currentDirectionality ;;
  let lang := Dom.getAttribute node (lit "lang") in
  poly <- lift_res (Polyglossia_lookup lang) ;;
  modify (set_currentLanguage lang) ;;
  match poly with
  | None => throw TypeError
  | Some poly =>
      modify (set_currentDirectionality (poly_dir poly)) ;;
      visit node ;;
      modify (set_currentLanguage savedLanguage) ;;
      modify (set_currentDirectionality savedDirectionality)
  end.

Definition visitDIR (node : Node) : M Visitor unit :=
  savedDirectionality <- gets currentDirectionality ;;
  let dir := Dom.getAttribute node (lit "dir") in
  lang <- gets currentLanguage ;;
  console_warn proc set_proc (NonStandardDir lang savedDirectionality dir) ;;
  modify (set_currentDirectionality dir) ;;
  visit node ;;
  modify (set_currentDirectionality savedDirectionality).

(** [this[name].apply(this, arguments)], the arguments being the node. *)
Definition apply_method (m : method) (node : Node) : M Visitor unit :=
  match m with
  | m_visit => visit node
  | m_visitChildren => visitChildren node
  | m_visitBODY => visitBODY node
  | m_visitA => visitA node
  | m_visitP => visitP node
  | m_visitSUB => visitSUB node
  | m_visitSUP => visitSUP node
  | m_visitCENTER => visitCENTER node
  | m_visitBR => visitBR node
  | m_visitHn => visitHn node None
  | m_visitH n => visitHn node (Some n)
  | m_REL_references => REL_references node
  | m_visitOL => visitOL node
  | m_visitLI => visitLI node
  | m_visitDL => visitDL node
  | m_visitDT => visitDT node
  | m_visitDD => visitDD node
  | m_visitBLOCKQUOTE => visitBLOCKQUOTE node
  | m_REL_referencedBy => REL_referencedBy node
  | m_TYPEOF_references => TYPEOF_references node
  | m_visitTABLE => visitTABLE node
  | m_visitFIGURE => visitFIGURE (Some node) None
  | m_TYPEOF_math => TYPEOF_math (Some node) false
  | m_LANG => visitLANG node
  | m_DIR => visitDIR node
  | m_TYPEOF_Image => TYPEOF_Image node
  | m_visitMultipleImage => visitMultipleImage node
  | m_visitDIV => visitDIV node
  end.

(** The handler found for an element by its typeof attribute, else by
    its rel attribute, else by its tag name. *)
Definition handler_of (node : Node) : option method :=
  let by_typeof :=
    match Dom.getAttribute node (lit "typeof") with
    | Some typeo => property prototype (lit "visitTYPEOF=" ++ typeo)
    | None => None
    end in
  match by_typeof with
  | Some m => Some m
  | None =>
      let by_rel :=
        match Dom.getAttribute node (lit "rel") with
        | Some rel => property prototype (lit "visitREL=" ++ rel)
        | None => None
        end in
      match by_rel with
      | Some m => Some m
      | None => property prototype (lit "visit" ++ Dom.nodeName node)
      end
  end.

(** The body of [visit]. *)
Definition visit_body (node : Node) : M Visitor unit :=
  match node with
  | Element _ _ _ =>
      if isHidden node then ret tt
      else
        cur <- gets currentLanguage ;;
        let lang := or_else (Dom.getAttribute node (lit "lang")) cur in
        if opt_neq lang cur then
          modify (fun v => set_usedLanguages (set_add lang (usedLanguages v)) v) ;;
          visitLANG node
        else
          cur <- gets currentDirectionality ;;
          let dir := or_else (Dom.getAttribute node (lit "dir")) cur in
          let dir := if negb (opt_neq dir (Some (lit "auto"))) then cur
                     else dir in
          if opt_neq dir cur then visitDIR node
          else
            match handler_of node with
            | Some m => apply_method m node
            | None => visitChildren node
            end
  | Text data | CData data =>
      match textEscape data with
      | [] => ret tt
      | c :: text => format_write (c :: text)
      end
  | OtherNode => ret tt
  end.

End Handlers.

(** [visit], the recursion through [this.visit] unfolded [fuel] deep. *)
Fixpoint visit (fuel : nat) (node : Node) : M Visitor unit :=
  match fuel with
  | O => out_of_fuel
  | S fuel' => visit_body (visit fuel') node
  end.

End Visitor.

(* ------------------------------------------------------------------ *)
(** * Vocabulary of the properties *)

(** [c] run [n] times in a row. *)
Fixpoint times {St} (n : nat) (c : M St unit) : M St unit :=
  match n with
  | O => ret tt
  | S n' => c ;; times n' c
  end.

(** The operations of a Formatter, as a caller sequences them. *)
Inductive FormatterOp : Type :=
| OpWrite (text : jsstring)
| OpLineBreak
| OpParagraphBreak
| OpIndent (tag : option jsstring)
| OpDedent
| OpWriteTitle (title : jsstring) (subtitle : option jsstring)
| OpWriteSummary (summary : jsstring)
| OpWriteHeading (level : option Z) (heading : jsstring)
| OpFlush.

Section FormatterRuns.

Variable linewrap : Z -> Z -> LinewrapOpts -> jsstring -> jsstring.

Definition run_op (o : FormatterOp) : M Formatter.t unit :=
  match o with
  | OpWrite text => Formatter.write text
  | OpLineBreak => Formatter.lineBreak
  | OpParagraphBreak => Formatter.paragraphBreak
  | OpIndent tag => Formatter.indent linewrap tag
  | OpDedent => Formatter.dedent
  | OpWriteTitle title subtitle => Formatter.writeTitle title subtitle
  | OpWriteSummary summary => Formatter.writeSummary linewrap summary
  | OpWriteHeading level heading => Formatter.writeHeading level heading
  | OpFlush => Formatter.flush
  end.

(** A series of operations; a caller that catches a throw goes on with
    the object as the throw left it. *)
Fixpoint run_ops (ops : list FormatterOp) (f : Formatter.t) : Formatter.t :=
  match ops with
  | [] => f
  | o :: ops' => run_ops ops' (snd (run_op o f))
  end.


End FormatterRuns.

(** Reading a text line by line: [k] counts the line terminators that
    end what was read so far (the start of the stream counts as one, so
    a terminator read at [k >= 1] ends a blank line).  The scan fails
    when a terminator is read at [limit <= k]. *)
Fixpoint blank_scan (limit k : nat) (s : jsstring) : option nat :=
  match s with
  | [] => Some k
  | c :: s' =>
      if ceq c LF then
        if limit <=? k then None else blank_scan limit (S k) s'
      else blank_scan limit 0 s'
  end.

(** No two blank lines in a row in the stream. *)
Definition no_two_blank_lines (out : jsstring) : Prop :=
  blank_scan 2 1 out <> None.

(** Non-empty lines only, the last one without its terminator. *)
Definition full_lines (w : jsstring) : Prop := blank_scan 1 1 w = Some 0.

Definition starts_nonspace (t : jsstring) : Prop :=
  match t with
  | c :: _ => is_space c = false
  | [] => False
  end.

(** What the layout needs of the [linewrap] package: a text that starts
    with a character other than white space is wrapped into non-empty
    lines. *)
Definition wraps_to_lines
  (linewrap : Z -> Z -> LinewrapOpts -> jsstring -> jsstring) : Prop :=
  forall a b opts t, starts_nonspace t -> full_lines (linewrap a b opts t).


Section FormatterInvariant.

Variable linewrap : Z -> Z -> LinewrapOpts -> jsstring -> jsstring.

Definition wrap_ok (w : jsstring -> jsstring) : Prop :=
  forall t, starts_nonspace t -> full_lines (w t).

Definition state_ok (st : option Formatter.State) : Prop :=
  match st with
  | Some st => wrap_ok (Formatter.wrap st)
  | None => True
  end.

(** The invariant of the layout engine. *)
Record layout_inv (f : Formatter.t) : Prop := {
  inv_scan : exists k, blank_scan 2 1 (Formatter.outStream f) = Some k /\
               (Formatter.newLine f = true -> Formatter.newPara f = false ->
                k <= 1);
  inv_flags : Formatter.newPara f = true -> Formatter.newLine f = true;
  inv_empty : Formatter.newLine f = true -> Formatter.buffer f = [];
  inv_buffer : Formatter.newLine f = false ->
               starts_nonspace (concat (Formatter.buffer f));
  inv_state : state_ok (Formatter.state f);
  inv_stack : Forall state_ok (Formatter.stateStack f);
  inv_wrapper : Formatter.noWrap (Formatter.options f) = true \/
                wraps_to_lines linewrap
}.

End FormatterInvariant.

(** The [linewrap] of the examples: it only collapses white space. *)
Definition sample_linewrap : Z -> Z -> LinewrapOpts -> jsstring -> jsstring :=
  fun _ _ _ t => trim (collapse_space t).


(** [c] does not run out of fuel, and what it returns satisfies [Q]. *)
Definition returns {St A} (c : M St A) (Q : A -> Prop) : Prop :=
  forall s, match fst (c s) with
            | Ok a => Q a
            | Throw _ => True
            | OutOfFuel => False
            end.

(** Whether the text after an opened brace or bracket holds the
    delimiter that closes it: [depth] delimiters are open, each opening
    one adds one and each closing one removes one, and the one that
    brings the count to zero is the match. *)
Fixpoint has_matching_close (depth : nat) (s : jsstring) : bool :=
  match s with
  | [] => false
  | c :: s' =>
      if Math.is_open c then has_matching_close (S depth) s'
      else if Math.is_delim c then
        match depth with
        | S (S d) => has_matching_close (S d) s'
        | _ => true
        end
      else has_matching_close depth s'
  end.

(** The process state after one more message on the console. *)
Definition warned_of (d : diagnostic) (p : Proc) : Proc :=
  {| warned := warned p; console := console p ++ [d] |}.

Definition fresh_proc : Proc := {| warned := []; console := [] |}.


(* ------------------------------------------------------------------ *)
(** ** The classification of an element, in the words of the
    specification *)

Inductive classification : Type :=
| SkipHidden
| SwitchLanguage (lang : option jsstring)
| SwitchDirection
| ByTypeof (m : method)
| ByRel (m : method)
| ByTag (m : method)
| Flatten.

(** Hidden: the no-print marker, an inline display:none, or one of the
    non-printing classes. *)
Definition marked_hidden (node : Node) : bool :=
  Dom.classList_contains node (lit "noprint")
  || display_none_test (match Dom.getAttribute node (lit "style") with
                        | Some st => st
                        | None => []
                        end)
  || existsb (Dom.classList_contains node) hidden_classes.

(** The element declares the value [x] of an attribute: the attribute
    is there and not empty. *)
Definition declares (node : Node) (attr : jsstring) : option jsstring :=
  match Dom.getAttribute node attr with
  | Some (c :: x) => Some (c :: x)
  | _ => None
  end.

Definition differs (x : jsstring) (current : option jsstring) : bool :=
  match current with
  | Some y => negb (seq_eqb x y)
  | None => true
  end.

Definition registered (prefix : jsstring) (node : Node) (attr : jsstring)
  : option method :=
  match Dom.getAttribute node attr with
  | Some x => property prototype (prefix ++ x)
  | None => None
  end.

(** The priority order of the specification, first match wins: hidden,
    language, directionality, then the handlers by semantic type, by
    relation and by tag, then the children. *)
Definition classify_handler (node : Node) : classification :=
  match registered (lit "visitTYPEOF=") node (lit "typeof") with
  | Some m => ByTypeof m
  | None =>
      match registered (lit "visitREL=") node (lit "rel") with
      | Some m => ByRel m
      | None =>
          match property prototype (lit "visit" ++ Dom.nodeName node) with
          | Some m => ByTag m
          | None => Flatten
          end
      end
  end.

Definition switches_direction (node : Node) (v : Visitor) : bool :=
  match declares node (lit "dir") with
  | Some d => negb (seq_eqb d (lit "auto"))
              && differs d (currentDirectionality v)
  | None => false
  end.

Definition switches_language (node : Node) (v : Visitor) : bool :=
  match declares node (lit "lang") with
  | Some l => differs l (currentLanguage v)
  | None => false
  end.

Definition classify (node : Node) (v : Visitor) : classification :=
  if marked_hidden node && negb (isMultipleImageTemplate node) then SkipHidden
  else if switches_language node v
  then SwitchLanguage (Dom.getAttribute node (lit "lang"))
  else if switches_direction node v then SwitchDirection
  else classify_handler node.

Section Classified.

Variable linewrap : Z -> Z -> LinewrapOpts -> jsstring -> jsstring.
Variable first_child : Node -> option Node.
Variable Polyglossia_lookup : option jsstring -> res (option Poly).
Variable multiple_image_query : Node -> res (list Node * list Node).
Variable ToString : option Json.value -> res jsstring.
Variable cleanMath_array : list Json.value -> M Proc jsstring.
Variable visit : Node -> M Visitor unit.

Definition run_method : method -> Node -> M Visitor unit :=
  apply_method linewrap first_child Polyglossia_lookup multiple_image_query
    ToString cleanMath_array visit.

(** What each classification does. *)
Definition act (c : classification) (node : Node) : M Visitor unit :=
  match c with
  | SkipHidden => ret tt
  | SwitchLanguage lang =>
      modify (fun v => set_usedLanguages (set_add lang (usedLanguages v)) v) ;;
      visitLANG Polyglossia_lookup visit node
  | SwitchDirection => visitDIR visit node
  | ByTypeof m | ByRel m | ByTag m => run_method m node
  | Flatten => visitChildren visit node
  end.

End Classified.

(* ------------------------------------------------------------------ *)
(** ** Frames *)

(** Whenever [c] returns, the states before and after are related by
    [R]. *)
Definition keeps {St A} (R : St -> St -> Prop) (c : M St A) : Prop :=
  forall s a s', c s = (Ok a, s') -> R s s'.

(** The language fields of the visitor: the current language and
    directionality (and the language of the contents table) are as
    before, the set of used languages has only grown. *)
Definition lang_frame (v v' : Visitor) : Prop :=
  currentLanguage v' = currentLanguage v
  /\ currentDirectionality v' = currentDirectionality v
  /\ tocLanguage v' = tocLanguage v
  /\ incl (usedLanguages v) (usedLanguages v').

(* ------------------------------------------------------------------ *)
(** ** A sample environment, for the examples *)

Definition is_blank_text (n : Node) : bool :=
  match n with
  | Text data => forallb is_space data
  | _ => false
  end.

(** Modelled from the spec: [DomUtil.first_child] (lib/domutil.js is not
    among the sources), which the call site describes as the first
    non-ws child node: the first child that is not a text node made of
    white space only, null when there is none. *)
Definition sample_first_child (n : Node) : option Node :=
  find (fun c => negb (is_blank_text c)) (Dom.childNodes n).

(** A Polyglossia table with two right-to-left languages. *)
Definition sample_Polyglossia (lang : option jsstring) : res (option Poly) :=
  match lang with
  | Some l =>
      if seq_eqb l (lit "ar") || seq_eqb l (lit "he")
      then Ok (Some {| poly_dir := Some (lit "rtl") |})
      else Ok (Some {| poly_dir := Some (lit "ltr") |})
  | None => Ok None
  end.

(** A document in which the selectors of [visitMultipleImage] find
    nothing. *)
Definition sample_query (n : Node) : res (list Node * list Node) :=
  Ok ([], []).

Definition sample_ToString (v : option Json.value) : res jsstring :=
  match v with
  | None => Ok (lit "undefined")
  | Some Json.Null => Ok (lit "null")
  | Some (Json.Bool true) => Ok (lit "true")
  | Some (Json.Bool false) => Ok (lit "false")
  | Some (Json.Number lexeme) => Ok lexeme
  | Some (Json.Str s) => Ok s
  | Some (Json.Array _) => Ok []
  | Some (Json.Object _) => Ok (lit "[object Object]")
  end.

Definition sample_cleanMath_array (l : list Json.value) : M Proc jsstring :=
  throw TypeError.

Definition sample_visit : nat -> Node -> M Visitor unit :=
  visit sample_linewrap sample_first_child sample_Polyglossia sample_query
    sample_ToString sample_cleanMath_array.

(** A visitor on a new Formatter, in no-wrap mode or not. *)
Definition sample_visitor (noWrap noRefs : bool) : Visitor :=
  new_Visitor
    (Real (Formatter.create sample_linewrap
             {| Formatter.column := None; Formatter.tabWidth_opt := None;
                Formatter.noWrap := noWrap |}))
    {| o_base := None; o_noWrap := noWrap; o_noRefs := noRefs;
       o_singleItem := false; o_hasChapters := false;
       o_lang := None; o_dir := None |}
    fresh_proc.

(** What was written to the stream of the formatter. *)
Definition written (v : Visitor) : option jsstring :=
  match format v with
  | Real f => Some (Formatter.outStream f)
  | Coll _ => None
  end.

(** The depth of the indent-state stack of the formatter. *)
Definition stack_depth (v : Visitor) : Z :=
  match format v with
  | Real f => Z.of_nat (length (Formatter.stateStack f))
  | Coll _ => 0
  end.

(** A JSON text written with single quotes in place of double ones. *)
Definition json_lit (s : string) : jsstring :=
  map (fun c => if ceq c 39%N then 34%N else c) (lit s).

(* ------------------------------------------------------------------ *)
(** ** Subscripts and superscripts, in the words of the specification *)

(** What the two quote replacements of [textEscape] do to a character. *)
Definition plain_quote (c : char) : char :=
  let c := if ceq c LDQUO || ceq c RDQUO then DQUOTE else c in
  if ceq c LSQUO || ceq c RSQUO then SQUOTE else c.

(** The restricted sets: digits, the signs, a handful of Latin letters,
    and the space. *)
Definition sub_safe : jsstring := lit "0123456789+-=()aeoxhklmnpst ".
Definition sup_safe : jsstring := lit "0123456789+-=()in ".

Definition all_in (safe contents : jsstring) : bool :=
  forallb (fun c => mem c safe) contents.

(** The code point that a table gives for a character. *)
Definition to_script (m : list (char * char)) (c : char) : char :=
  match lookup m c with
  | Some v => v
  | None => c
  end.

(** The text emitted for the flattened text [contents]: character by
    character through the table when every character is in the safe
    set, else the text itself (smart quotes made plain). *)
Definition emitted (m : list (char * char)) (safe contents : jsstring)
  : jsstring :=
  if all_in safe contents then map (to_script m) contents
  else map plain_quote contents.

(** The first half of [collect]: the children visited into a new
    collector, the sink put back, the flattened text returned. *)
Definition collected (visit : Node -> M Visitor unit) (node : Node)
  : M Visitor jsstring :=
  wasFormat <- gets format ;;
  modify (set_format (Coll Collect.create)) ;;
  visitChildren visit node ;;
  fmt <- gets format ;;
  let b := match fmt with
           | Coll c => c_b c
           | Real _ => []
           end in
  modify (set_format wasFormat) ;;
  ret (collapse_space (concat b)).

(* ------------------------------------------------------------------ *)
(** ** List markers *)

(** The list information that a list element (UL or OL) sets up for its
    children. *)
Definition list_scope (node : Node) (outer : ListInfo) : ListInfo :=
  {| li_type := Some (Dom.nodeName node); li_num := Some 0%Z;
     li_depth := (li_depth outer + 1)%Z; li_sawDT := false |}.

(** Lines of ASCII text, each with its terminator. *)
Definition lines (l : list string) : jsstring :=
  concat (map (fun s => lit s ++ [LF]) l).

(* ------------------------------------------------------------------ *)
(** ** Indent scopes *)

Definition is_real (v : Visitor) : bool :=
  match format v with
  | Real _ => true
  | Coll _ => false
  end.

Definition is_term_or_definition (m : option method) : bool :=
  match m with
  | Some m_visitDT | Some m_visitDD => true
  | _ => false
  end.

Definition is_description_list (m : option method) : bool :=
  match m with
  | Some m_visitDL => true
  | _ => false
  end.

Definition is_footnote_list (m : option method) : bool :=
  match m with
  | Some m_TYPEOF_references => true
  | _ => false
  end.

(** Every element that goes to the term (DT) or definition (DD) handler
    is visited as a direct child by the description-list handler:
    [scoped in_dl n] reads the tree of [n], [in_dl] telling whether [n]
    itself is visited by the loop of a description list.  The footnote
    list visits the children of its children itself. *)
Fixpoint scoped (in_dl : bool) (n : Node) : bool :=
  match n with
  | Element _ _ ch =>
      let h := handler_of n in
      (if is_term_or_definition h then in_dl else true)
      && (if is_footnote_list h then
            forallb (fun c => match c with
                              | Element _ _ gs => forallb (scoped false) gs
                              | _ => true
                              end) ch
          else forallb (scoped (is_description_list h)) ch)
  | _ => true
  end.

(** The change of the indent stack by [k] scopes: the kind of sink and
    the list information are kept, the depth of the stack of a real
    formatter moves by [k]. *)
Definition shift (k : Z) (v v' : Visitor) : Prop :=
  is_real v' = is_real v
  /\ listInfo v' = listInfo v
  /\ stack_depth v' = (stack_depth v + if is_real v then k else 0)%Z.

(** The stack is balanced. *)
Definition balanced : Visitor -> Visitor -> Prop := shift 0.

(** Under a description list, the scope of the last term stays open:
    what is kept is the depth without that scope. *)
Definition term_scope_open (v : Visitor) : Z :=
  if li_sawDT (listInfo v) then 1%Z else 0%Z.

Definition open_scope_real (v : Visitor) : Prop :=
  (term_scope_open v <= stack_depth v)%Z.

Definition balanced_term (v v' : Visitor) : Prop :=
  is_real v' = is_real v
  /\ li_type (listInfo v') = li_type (listInfo v)
  /\ li_num (listInfo v') = li_num (listInfo v)
  /\ li_depth (listInfo v') = li_depth (listInfo v)
  /\ (is_real v = true -> open_scope_real v ->
      (stack_depth v' - term_scope_open v' = stack_depth v - term_scope_open v)%Z
      /\ open_scope_real v').

Definition balance (in_dl : bool) : Visitor -> Visitor -> Prop :=
  if in_dl then balanced_term else balanced.

(** The indent stack of a formatter is [k]. *)
Definition stack_is (k : list (option Formatter.State)) (f : Formatter.t)
  : Prop := Formatter.stateStack f = k.

(* ------------------------------------------------------------------ *)
(** ** Normal form of text and invariants of computations *)

(** Normal form of a text: what [textEscape] leaves nothing to do on. *)
Fixpoint no_double_lf (s : jsstring) : Prop :=
  match s with
  | c :: (d :: _) as s' => ~ (c = LF /\ d = LF) /\ no_double_lf s'
  | _ => True
  end.

Definition is_smart_quote (c : char) : bool :=
  ceq c LDQUO || ceq c RDQUO || ceq c LSQUO || ceq c RSQUO.

Record normal_text (s : jsstring) : Prop := {
  nt_cr : Forall (fun c => c <> CR) s;
  nt_double : no_double_lf s;
  nt_head : hd SP s <> LF;
  nt_last : last s SP <> LF;
  nt_quotes : Forall (fun c => is_smart_quote c = false) s
}.

(** [c] keeps [I], also when it throws. *)
Definition preserves {St A} (I : St -> Prop) (c : M St A) : Prop :=
  forall s, I s -> I (snd (c s)).

(* ------------------------------------------------------------------ *)
(** * Further vocabulary *)

(** The operations that lay text out without opening or closing an
    indent scope. *)
Definition flat_op (o : FormatterOp) : bool :=
  match o with
  | OpWrite _ | OpLineBreak | OpParagraphBreak => true
  | _ => false
  end.

(** The text without its line terminators (carriage returns and line
    feeds). *)
Definition is_newline (c : char) : bool := ceq c CR || ceq c LF.

Definition without_newlines (s : jsstring) : jsstring :=
  filter (fun c => negb (is_newline c)) s.

(** A text with no subscript or superscript mark (underscore, caret). *)
Definition no_script_mark (s : jsstring) : Prop :=
  Forall (fun c => c <> 95%N /\ c <> 94%N) s.

(** The text [rest] does not go on with a character of the class. *)
Definition run_ends (cls rest : jsstring) : Prop :=
  match rest with
  | [] => True
  | c :: _ => mem c cls = false
  end.

(** An argument written back in braces. *)
Definition in_braces (a : jsstring) : jsstring := [123%N] ++ a ++ [125%N].

(** The position of the delimiter that closes an argument, [depth]
    delimiters being open at the start of [s]: every opening brace or
    bracket opens one more, every closing one closes the innermost,
    braces and brackets alike. *)
Fixpoint close_pos (depth : nat) (s : jsstring) : option nat :=
  match s with
  | [] => None
  | c :: s' =>
      if Math.is_open c then option_map S (close_pos (S depth) s')
      else if Math.is_delim c then
        match depth with
        | S (S d) => option_map S (close_pos (S d) s')
        | _ => Some 0
        end
      else option_map S (close_pos depth s')
  end.

(** A piece of a table row: no backslash and no ampersand. *)
Definition cell_text (s : jsstring) : Prop :=
  Forall (fun c => c <> BACKSLASH /\ c <> 38%N) s.

(** A flattened text: its only white space is the space character, and
    no space is followed by white space. *)
Fixpoint single_spaced (s : jsstring) : Prop :=
  match s with
  | [] => True
  | c :: s' =>
      (is_space c = true ->
       c = SP /\ match s' with
                 | d :: _ => is_space d = false
                 | [] => True
                 end)
      /\ single_spaced s'
  end.

(** A heading of level [n] is left out: a top heading in a collection
    of a single item. *)
Definition heading_skipped (o : VOptions) (n : Z) : bool :=
  o_singleItem o
  && ((if o_hasChapters o then n else n - 1) =? 0)%Z.

(** What reached the stream of the conversion, as seen from the
    visitor: nothing while a collector is in place. *)
Definition stream_of (v : Visitor) : jsstring :=
  match format v with
  | Real f => Formatter.outStream f
  | Coll _ => []
  end.

(** The stream after is the stream before and more. *)
Definition appends (f f' : Formatter.t) : Prop :=
  exists ext, Formatter.outStream f' = Formatter.outStream f ++ ext.

Definition extends (v v' : Visitor) : Prop :=
  is_real v' = is_real v
  /\ exists ext, stream_of v' = stream_of v ++ ext.

(** [R] relates the state before [c] to the state after, whatever the
    outcome. *)
Definition always {St A} (R : St -> St -> Prop) (c : M St A) : Prop :=
  forall s, R s (snd (c s)).

(** [c] does not run out of fuel, from any state. *)
Definition terminates {St A} (c : M St A) : Prop :=
  forall s, fst (c s) <> OutOfFuel.

(** The depth of a tree of nodes. *)
Fixpoint height (n : Node) : nat :=
  match n with
  | Element _ _ ch => S (list_max (map height ch))
  | _ => 0
  end.

(** The element names for which the lookup of [visit] by tag name finds
    [visit] itself or one of the two switching methods: the empty
    name, LANG= and DIR=.  No element of a document has such a name. *)
Definition reserved_name (name : jsstring) : bool :=
  seq_eqb name [] || seq_eqb name (lit "LANG=") || seq_eqb name (lit "DIR=").

Fixpoint well_named (n : Node) : bool :=
  match n with
  | Element name _ ch => negb (reserved_name name) && forallb well_named ch
  | _ => true
  end.

(** The three methods that call [visit] on the node itself. *)
Definition is_self_visit (m : method) : bool :=
  match m with
  | m_visit | m_LANG | m_DIR => true
  | _ => false
  end.

(** What [visit] does for an element once the hidden elements and the
    switches are out of the way: the handler found, or the children. *)
Definition handler_part
  (linewrap : Z -> Z -> LinewrapOpts -> jsstring -> jsstring)
  (first_child : Node -> option Node)
  (Polyglossia_lookup : option jsstring -> res (option Poly))
  (multiple_image_query : Node -> res (list Node * list Node))
  (ToString : option Json.value -> res jsstring)
  (cleanMath_array : list Json.value -> M Proc jsstring)
  (visit : Node -> M Visitor unit) (node : Node) : M Visitor unit :=
  match handler_of node with
  | Some m => apply_method linewrap first_child Polyglossia_lookup
                multiple_image_query ToString cleanMath_array visit m node
  | None => visitChildren visit node
  end.

(** The nodes that the handler of [node] visits: its children, the
    children of its children, and text nodes it makes itself. *)
Definition visited_from (node c : Node) : Prop :=
  In c (Dom.childNodes node)
  \/ (exists r, In r (Dom.childNodes node) /\ In c (Dom.childNodes r))
  \/ (exists t, c = Text t).

(** The element [node] does not switch the language, or the
    directionality, of the visitor [v]. *)
Definition same_language (node : Node) (v : Visitor) : Prop :=
  opt_neq (or_else (Dom.getAttribute node (lit "lang")) (currentLanguage v))
          (currentLanguage v) = false.

Definition same_direction (node : Node) (v : Visitor) : Prop :=
  opt_neq (let dir := or_else (Dom.getAttribute node (lit "dir"))
                        (currentDirectionality v) in
           if negb (opt_neq dir (Some (lit "auto")))
           then currentDirectionality v else dir)
          (currentDirectionality v) = false.

(* ------------------------------------------------------------------ *)
(** * The items of a collection *)

(** An item of the metabook, as [countItems] reads it: its property
    [items], [None] when the item has none (an article). *)
#[warnings="-register-all"] Inductive Item : Type :=
| MkItem (items : option (list Item)).

(** [countItems]: [(item.items || []).reduce(function(sum, item) {
    return sum + countItems(item); }, 1)]; the reduction of the empty
    array is its initial value. *)
Fixpoint countItems (item : Item) : nat :=
  match item with
  | MkItem (Some l) => fold_left (fun sum item => sum + countItems item) l 1
  | MkItem None => 1
  end.

(** The items of a tree, the root first. *)
Fixpoint all_items (item : Item) : list Item :=
  item :: match item with
          | MkItem (Some l) => flat_map all_items l
          | MkItem None => []
          end.

(* ================================================================== *)
(** * Properties *)

(* ------------------------------------------------------------------ *)
(** ** Characters *)

Lemma ceq_true (a b : char) : ceq a b = true <-> a = b.
Proof. unfold ceq. apply N.eqb_eq. Qed.

Lemma ceq_false (a b : char) : ceq a b = false <-> a <> b.
Proof. unfold ceq. apply N.eqb_neq. Qed.

Lemma ceq_refl (a : char) : ceq a a = true.
Proof. apply ceq_true. reflexivity. Qed.

Lemma seq_eqb_true (a b : jsstring) : seq_eqb a b = true <-> a = b.
Proof.
  revert b. induction a as [|x a IH]; intros [|y b]; simpl; split;
    try congruence; try reflexivity.
  - intros H. apply andb_true_iff in H. destruct H as [H1 H2].
    apply ceq_true in H1. apply IH in H2. congruence.
  - intros H. injection H as -> ->. rewrite ceq_refl. apply IH. reflexivity.
Qed.

Lemma seq_eqb_refl (a : jsstring) : seq_eqb a a = true.
Proof. apply seq_eqb_true. reflexivity. Qed.

(* ------------------------------------------------------------------ *)
(** ** textEscape *)

Lemma unix_newlines_id s : Forall (fun c => c <> CR) s -> unix_newlines s = s.
Proof.
  induction 1 as [|c s Hc _ IH]; simpl; [reflexivity|].
  apply ceq_false in Hc. rewrite Hc, IH. reflexivity.
Qed.

Lemma compress_newlines_id s : no_double_lf s -> compress_newlines s = s.
Proof.
  induction s as [|c s IH]; [reflexivity|].
  destruct s as [|d s]; [reflexivity|].
  intros [Hcd Hs]. change (compress_newlines (c :: d :: s))
    with (if ceq c LF && ceq d LF then compress_newlines (d :: s)
          else c :: compress_newlines (d :: s)).
  rewrite (IH Hs).
  destruct (ceq c LF && ceq d LF) eqn:E; [|reflexivity].
  apply andb_true_iff in E. destruct E as [E1 E2].
  apply ceq_true in E1, E2. tauto.
Qed.

Lemma trim_leading_newlines_id s : hd SP s <> LF -> trim_leading_newlines s = s.
Proof.
  destruct s as [|c s]; simpl; [reflexivity|].
  intros H. apply ceq_false in H. rewrite H. reflexivity.
Qed.

Lemma trim_trailing_newline_id s : last s SP <> LF -> trim_trailing_newline s = s.
Proof.
  induction s as [|c s IH]; [reflexivity|].
  destruct s as [|d s].
  - simpl. intros H. apply ceq_false in H. rewrite H. reflexivity.
  - intros H. change (trim_trailing_newline (c :: d :: s))
      with (c :: trim_trailing_newline (d :: s)).
    rewrite IH; [reflexivity|exact H].
Qed.

Lemma plain_quotes_id s :
  Forall (fun c => is_smart_quote c = false) s ->
  plain_single_quotes (plain_double_quotes s) = s.
Proof.
  unfold plain_single_quotes, plain_double_quotes. rewrite map_map.
  induction 1 as [|c s Hc _ IH]; simpl; [reflexivity|].
  rewrite IH. unfold is_smart_quote in Hc.
  apply orb_false_iff in Hc. destruct Hc as [Hc H4].
  apply orb_false_iff in Hc. destruct Hc as [Hc H3].
  apply orb_false_iff in Hc. destruct Hc as [H1 H2].
  rewrite H1, H2. simpl. rewrite H3, H4. reflexivity.
Qed.

Lemma textEscape_normal_id s : normal_text s -> textEscape s = s.
Proof.
  intros [H1 H2 H3 H4 H5]. unfold textEscape.
  rewrite unix_newlines_id, compress_newlines_id, trim_leading_newlines_id,
    trim_trailing_newline_id by assumption.
  apply plain_quotes_id. assumption.
Qed.

(** What each step establishes, and what the later steps keep. *)

Lemma unix_newlines_no_cr_aux n :
  forall s, length s <= n -> Forall (fun c => c <> CR) (unix_newlines s).
Proof.
  induction n as [|n IH]; intros [|c s] Hl; simpl in *;
    try (constructor; fail); try lia.
  destruct (ceq c CR) eqn:E.
  - constructor; [discriminate|].
    destruct s as [|d s]; [constructor|].
    destruct (ceq d LF); apply IH; simpl in *; lia.
  - constructor; [apply ceq_false; exact E|]. apply IH. lia.
Qed.

Lemma unix_newlines_no_cr s : Forall (fun c => c <> CR) (unix_newlines s).
Proof. apply (unix_newlines_no_cr_aux (length s)). lia. Qed.

Lemma compress_newlines_incl s c : In c (compress_newlines s) -> In c s.
Proof.
  induction s as [|x s IH]; [simpl; tauto|].
  destruct s as [|d s]; [simpl; tauto|].
  change (compress_newlines (x :: d :: s))
    with (if ceq x LF && ceq d LF then compress_newlines (d :: s)
          else x :: compress_newlines (d :: s)).
  destruct (ceq x LF && ceq d LF); simpl; intros H.
  - right. apply IH. exact H.
  - destruct H as [H|H]; [left; exact H|right; apply IH; exact H].
Qed.

Lemma trim_leading_newlines_incl s c : In c (trim_leading_newlines s) -> In c s.
Proof.
  induction s as [|x s IH]; simpl; [tauto|].
  destruct (ceq x LF); simpl; tauto.
Qed.

Lemma trim_trailing_newline_incl s c : In c (trim_trailing_newline s) -> In c s.
Proof.
  induction s as [|x s IH]; [simpl; tauto|].
  destruct s as [|d s].
  - simpl. destruct (ceq x LF); simpl; tauto.
  - change (trim_trailing_newline (x :: d :: s))
      with (x :: trim_trailing_newline (d :: s)).
    simpl. intros [H|H]; [left; exact H|right; apply IH; exact H].
Qed.

Lemma hd_compress_newlines s : hd SP (compress_newlines s) = hd SP s.
Proof.
  induction s as [|x s IH]; [reflexivity|].
  destruct s as [|d s]; [reflexivity|].
  change (compress_newlines (x :: d :: s))
    with (if ceq x LF && ceq d LF then compress_newlines (d :: s)
          else x :: compress_newlines (d :: s)).
  destruct (ceq x LF && ceq d LF) eqn:E; [|reflexivity].
  rewrite IH. apply andb_true_iff in E. destruct E as [E1 E2].
  apply ceq_true in E1, E2. simpl. congruence.
Qed.

Lemma compress_newlines_no_double s : no_double_lf (compress_newlines s).
Proof.
  induction s as [|x s IH]; [exact I|].
  destruct s as [|d s]; [exact I|].
  change (compress_newlines (x :: d :: s))
    with (if ceq x LF && ceq d LF then compress_newlines (d :: s)
          else x :: compress_newlines (d :: s)).
  destruct (ceq x LF && ceq d LF) eqn:E; [exact IH|].
  pose proof (hd_compress_newlines (d :: s)) as Hh.
  destruct (compress_newlines (d :: s)) as [|e r] eqn:Er; [exact I|].
  split; [|exact IH]. simpl in Hh. subst e.
  intros [Hx Hd]. subst. rewrite !ceq_refl in E. discriminate.
Qed.

Lemma no_double_lf_tail c s : no_double_lf (c :: s) -> no_double_lf s.
Proof. destruct s; simpl; tauto. Qed.

Lemma trim_leading_no_double s :
  no_double_lf s -> no_double_lf (trim_leading_newlines s).
Proof.
  induction s as [|x s IH]; simpl; [tauto|]. intros H.
  destruct (ceq x LF); [apply IH; eapply no_double_lf_tail; exact H|exact H].
Qed.

Lemma hd_trim_trailing s :
  hd SP s <> LF -> hd SP (trim_trailing_newline s) = hd SP s.
Proof.
  destruct s as [|x [|d s]]; simpl; try reflexivity.
  intros H. apply ceq_false in H. rewrite H. reflexivity.
Qed.

Lemma trim_trailing_no_double s :
  no_double_lf s -> no_double_lf (trim_trailing_newline s).
Proof.
  induction s as [|x s IH]; [simpl; tauto|].
  destruct s as [|d s].
  - simpl. destruct (ceq x LF); exact (fun _ => I).
  - intros [Hxd Hs].
    change (trim_trailing_newline (x :: d :: s))
      with (x :: trim_trailing_newline (d :: s)).
    specialize (IH Hs).
    destruct (trim_trailing_newline (d :: s)) as [|e r] eqn:Er; [exact I|].
    split; [|exact IH].
    assert (e = d).
    { destruct s as [|d' s].
      - simpl in Er. destruct (ceq d LF); [discriminate|congruence].
      - change (trim_trailing_newline (d :: d' :: s))
          with (d :: trim_trailing_newline (d' :: s)) in Er. congruence. }
    subst e. exact Hxd.
Qed.

Lemma hd_trim_leading s : hd SP (trim_leading_newlines s) <> LF.
Proof.
  induction s as [|x s IH]; simpl; [discriminate|].
  destruct (ceq x LF) eqn:E; [exact IH|]. simpl. apply ceq_false. exact E.
Qed.

Lemma last_trim_trailing s :
  no_double_lf s -> last (trim_trailing_newline s) SP <> LF.
Proof.
  induction s as [|x s IH]; [simpl; discriminate|].
  destruct s as [|d s].
  - simpl. intros _. destruct (ceq x LF) eqn:E; simpl; [discriminate|].
    apply ceq_false. exact E.
  - intros [Hxd Hs].
    change (trim_trailing_newline (x :: d :: s))
      with (x :: trim_trailing_newline (d :: s)).
    specialize (IH Hs).
    destruct (trim_trailing_newline (d :: s)) as [|e r] eqn:Er.
    + (* the tail was a lone newline *)
      destruct s as [|d' s].
      * simpl in Er. destruct (ceq d LF) eqn:E; [|discriminate].
        apply ceq_true in E. simpl. intros ->. tauto.
      * change (trim_trailing_newline (d :: d' :: s))
          with (d :: trim_trailing_newline (d' :: s)) in Er. discriminate.
    + exact IH.
Qed.

Lemma plain_quotes_map s :
  plain_single_quotes (plain_double_quotes s) = map plain_quote s.
Proof.
  unfold plain_single_quotes, plain_double_quotes. rewrite map_map. reflexivity.
Qed.

Lemma plain_quote_lf c : plain_quote c = LF <-> c = LF.
Proof.
  unfold plain_quote.
  destruct (ceq c LDQUO) eqn:E1; [apply ceq_true in E1; subst; vm_compute; split; discriminate|].
  destruct (ceq c RDQUO) eqn:E2; [apply ceq_true in E2; subst; vm_compute; split; discriminate|].
  simpl.
  destruct (ceq c LSQUO) eqn:E3; [apply ceq_true in E3; subst; vm_compute; split; discriminate|].
  destruct (ceq c RSQUO) eqn:E4; [apply ceq_true in E4; subst; vm_compute; split; discriminate|].
  simpl. tauto.
Qed.

Lemma plain_quote_cr c : c <> CR -> plain_quote c <> CR.
Proof.
  unfold plain_quote. intros H.
  destruct (ceq c LDQUO || ceq c RDQUO); simpl.
  - vm_compute. discriminate.
  - destruct (ceq c LSQUO || ceq c RSQUO); [vm_compute; discriminate|exact H].
Qed.

Lemma plain_quote_not_smart c : is_smart_quote (plain_quote c) = false.
Proof.
  unfold plain_quote, is_smart_quote.
  destruct (ceq c LDQUO) eqn:E1; [reflexivity|].
  destruct (ceq c RDQUO) eqn:E2; [reflexivity|]. simpl.
  destruct (ceq c LSQUO) eqn:E3; [reflexivity|].
  destruct (ceq c RSQUO) eqn:E4; [reflexivity|]. simpl.
  rewrite E1, E2, E3, E4. reflexivity.
Qed.

Lemma map_quote_no_double s : no_double_lf s -> no_double_lf (map plain_quote s).
Proof.
  induction s as [|x s IH]; [simpl; tauto|].
  destruct s as [|d s]; [simpl; tauto|].
  intros [Hxd Hs]. split; [|apply IH; exact Hs].
  rewrite !plain_quote_lf. exact Hxd.
Qed.

Lemma map_quote_hd s : hd SP s <> LF -> hd SP (map plain_quote s) <> LF.
Proof.
  destruct s as [|x s]; simpl; [discriminate|]. rewrite plain_quote_lf. tauto.
Qed.

Lemma map_quote_last s : last s SP <> LF -> last (map plain_quote s) SP <> LF.
Proof.
  induction s as [|x s IH]; [simpl; discriminate|].
  destruct s as [|d s].
  - simpl. rewrite plain_quote_lf. tauto.
  - intros H. apply IH in H. exact H.
Qed.

Lemma textEscape_normal s : normal_text (textEscape s).
Proof.
  unfold textEscape. rewrite plain_quotes_map.
  set (a := compress_newlines (unix_newlines s)).
  assert (Ha1 : Forall (fun c => c <> CR) a).
  { apply Forall_forall. intros c Hc. apply compress_newlines_incl in Hc.
    revert c Hc. apply Forall_forall. apply unix_newlines_no_cr. }
  assert (Ha2 : no_double_lf a) by apply compress_newlines_no_double.
  set (b := trim_leading_newlines a).
  assert (Hb2 : no_double_lf b) by (apply trim_leading_no_double; exact Ha2).
  assert (Hb3 : hd SP b <> LF) by apply hd_trim_leading.
  constructor.
  - apply Forall_forall. intros c Hc. apply in_map_iff in Hc.
    destruct Hc as [c0 [<- Hc0]]. apply plain_quote_cr.
    apply trim_trailing_newline_incl, trim_leading_newlines_incl in Hc0.
    revert c0 Hc0. apply Forall_forall. exact Ha1.
  - apply map_quote_no_double, trim_trailing_no_double. exact Hb2.
  - apply map_quote_hd. rewrite hd_trim_trailing; assumption.
  - apply map_quote_last, last_trim_trailing. exact Hb2.
  - apply Forall_forall. intros c Hc. apply in_map_iff in Hc.
    destruct Hc as [c0 [<- _]]. apply plain_quote_not_smart.
Qed.

(** C10: the text normaliser is idempotent, for every string
    [textEscape (textEscape s)] is [textEscape s], because its output
    has no carriage return, no two newlines in a row, no newline at
    either end and no smart quote. *)
Theorem textEscape_idempotent (s : jsstring) :
  textEscape (textEscape s) = textEscape s /\ normal_text (textEscape s).
Proof.
  split; [apply textEscape_normal_id|]; apply textEscape_normal.
Qed.

(* ------------------------------------------------------------------ *)
(** ** Computations *)

Lemma bind_ok {St A B} (c : M St A) (k : A -> M St B) s a s' :
  c s = (Ok a, s') -> bind c k s = k a s'.
Proof. unfold bind. intros ->. reflexivity. Qed.

Lemma bind_throw {St A B} (c : M St A) (k : A -> M St B) s e s' :
  c s = (Throw e, s') -> bind c k s = (Throw e, s').
Proof. unfold bind. intros ->. reflexivity. Qed.

Lemma bind_fuel {St A B} (c : M St A) (k : A -> M St B) s s' :
  c s = (OutOfFuel, s') -> bind c k s = (OutOfFuel, s').
Proof. unfold bind. intros ->. reflexivity. Qed.

(** A bind that returns went through both its parts. *)
Lemma bind_inv_ok {St A B} (c : M St A) (k : A -> M St B) s b s2 :
  bind c k s = (Ok b, s2) ->
  exists a s1, c s = (Ok a, s1) /\ k a s1 = (Ok b, s2).
Proof.
  unfold bind. destruct (c s) as [[a|e|] s1]; intros H; try discriminate.
  exists a, s1. split; [reflexivity|exact H].
Qed.

Lemma preserves_ret {St A} (I : St -> Prop) (a : A) : preserves I (ret a).
Proof. intros s H. exact H. Qed.

Lemma preserves_throw {St A} (I : St -> Prop) e : preserves I (@throw St A e).
Proof. intros s H. exact H. Qed.

Lemma preserves_fuel {St A} (I : St -> Prop) : preserves I (@out_of_fuel St A).
Proof. intros s H. exact H. Qed.

Lemma preserves_gets {St A} (I : St -> Prop) (f : St -> A) :
  preserves I (gets f).
Proof. intros s H. exact H. Qed.

Lemma preserves_lift_res {St A} (I : St -> Prop) (r : res A) :
  preserves I (@lift_res St A r).
Proof. intros s H. exact H. Qed.

Lemma preserves_bind {St A B} (I : St -> Prop) (c : M St A) (k : A -> M St B) :
  preserves I c -> (forall a, preserves I (k a)) -> preserves I (bind c k).
Proof.
  intros Hc Hk s Hs. unfold bind. specialize (Hc s Hs).
  destruct (c s) as [[a|e|] s1]; simpl in *; try exact Hc.
  apply Hk. exact Hc.
Qed.

Lemma preserves_when {St} (I : St -> Prop) (b : bool) (c : M St unit) :
  preserves I c -> preserves I (when b c).
Proof. destruct b; [tauto|intros _; apply preserves_ret]. Qed.

Lemma preserves_forM {St A} (I : St -> Prop) (l : list A) (body : A -> M St unit) :
  (forall a, In a l -> preserves I (body a)) -> preserves I (forM l body).
Proof.
  induction l as [|a l IH]; intros H; simpl.
  - apply preserves_ret.
  - apply preserves_bind; [apply H; left; reflexivity|].
    intros _. apply IH. intros b Hb. apply H. right. exact Hb.
Qed.

Lemma times_fixed {St} (c : M St unit) (s s' : St) (r : res unit) n :
  c s = (r, s') ->
  (r = Ok tt -> c s' = (Ok tt, s')) ->
  times (S n) c s = (r, s').
Proof.
  intros H1 H2. change (times (S n) c s) with (bind c (fun _ => times n c) s).
  destruct r as [[]|e|].
  - rewrite (bind_ok _ _ _ _ _ H1). specialize (H2 eq_refl).
    induction n as [|n IH]; [reflexivity|].
    change (times (S n) c s') with (bind c (fun _ => times n c) s').
    rewrite (bind_ok _ _ _ _ _ H2). exact IH.
  - apply bind_throw. exact H1.
  - apply bind_fuel. exact H1.
Qed.

(* ------------------------------------------------------------------ *)
(** ** Lines of a stream *)

Lemma blank_scan_app limit k a b :
  blank_scan limit k (a ++ b) =
  match blank_scan limit k a with
  | Some k' => blank_scan limit k' b
  | None => None
  end.
Proof.
  revert k. induction a as [|c a IH]; intros k; simpl; [reflexivity|].
  destruct (ceq c LF); [destruct (limit <=? k)|]; try reflexivity; apply IH.
Qed.

Lemma blank_scan_1_2 w : forall j k r,
  blank_scan 1 j w = Some r -> k <= j -> exists r', blank_scan 2 k w = Some r' /\ r' <= r.
Proof.
  induction w as [|c w IH]; intros j k r H Hk; simpl in *.
  - exists k. split; [reflexivity|]. injection H as <-. exact Hk.
  - destruct (ceq c LF).
    + destruct j as [|j]; simpl in H; [|discriminate].
      assert (k = 0) by lia. subst k. simpl. apply (IH 1 1 r H). lia.
    + apply (IH 0 0 r H). lia.
Qed.

Lemma full_lines_scan w k : full_lines w -> blank_scan 2 k w = Some 0.
Proof.
  unfold full_lines. destruct w as [|c w]; simpl; [discriminate|].
  destruct (ceq c LF); simpl; [discriminate|]. intros H.
  destruct (blank_scan_1_2 w 0 0 0 H (le_n 0)) as [r' [H1 H2]].
  rewrite H1. f_equal. lia.
Qed.

Lemma no_lf_full_lines w :
  Forall (fun c => c <> LF) w -> w <> [] -> full_lines w.
Proof.
  unfold full_lines. intros H Hne. destruct w as [|c w]; [congruence|].
  inversion H as [|? ? Hc Hw]; subst. simpl.
  apply ceq_false in Hc. rewrite Hc. clear Hne H Hc.
  induction Hw as [|d w Hd _ IH]; simpl; [reflexivity|].
  apply ceq_false in Hd. rewrite Hd. exact IH.
Qed.

(* ------------------------------------------------------------------ *)
(** ** White space *)

Lemma is_space_LF : is_space LF = true.
Proof. reflexivity. Qed.

Lemma strip_leading_space_incl s c : In c (strip_leading_space s) -> In c s.
Proof.
  induction s as [|x s IH]; simpl; [tauto|].
  destruct (is_space x); simpl; tauto.
Qed.

Lemma strip_leading_space_head s :
  strip_leading_space s = [] \/ starts_nonspace (strip_leading_space s).
Proof.
  induction s as [|x s IH]; simpl; [left; reflexivity|].
  destruct (is_space x) eqn:E; [exact IH|right; exact E].
Qed.

Lemma strip_leading_space_last s c :
  is_space c = false -> strip_leading_space (s ++ [c]) <> [].
Proof.
  intros Hc. induction s as [|x s IH]; simpl.
  - rewrite Hc. discriminate.
  - destruct (is_space x); [exact IH|discriminate].
Qed.

Lemma trim_incl s c : In c (trim s) -> In c s.
Proof.
  unfold trim. intros H. apply in_rev in H.
  apply strip_leading_space_incl in H. apply in_rev in H.
  apply strip_leading_space_incl in H. exact H.
Qed.

Lemma collapse_space_chars s c :
  In c (collapse_space s) -> c = SP \/ (is_space c = false /\ In c s).
Proof.
  induction s as [|x s IH]; [simpl; tauto|].
  change (collapse_space (x :: s))
    with (if is_space x then
            match s with
            | d :: _ => if is_space d then collapse_space s
                        else SP :: collapse_space s
            | [] => [SP]
            end
          else x :: collapse_space s).
  destruct (is_space x) eqn:E.
  - destruct s as [|d s].
    + simpl. intros [H|[]]. left. congruence.
    + destruct (is_space d); intros H.
      * destruct (IH H) as [H1|[H1 H2]]; [left; exact H1|right].
        split; [exact H1|right; exact H2].
      * destruct H as [H|H]; [left; congruence|].
        destruct (IH H) as [H1|[H1 H2]]; [left; exact H1|right].
        split; [exact H1|right; exact H2].
  - intros [H|H].
    + right. subst. split; [exact E|left; reflexivity].
    + destruct (IH H) as [H1|[H1 H2]]; [left; exact H1|right].
      split; [exact H1|right; exact H2].
Qed.

Lemma collapse_space_no_lf s : Forall (fun c => c <> LF) (collapse_space s).
Proof.
  apply Forall_forall. intros c Hc.
  destruct (collapse_space_chars _ _ Hc) as [->|[H _]]; [discriminate|].
  intros ->. discriminate.
Qed.

Lemma trim_collapse_nonempty t :
  starts_nonspace t -> trim (collapse_space t) <> [].
Proof.
  destruct t as [|c t]; simpl; [tauto|]. intros Hc. rewrite Hc.
  unfold trim. simpl. rewrite Hc. simpl.
  intros H. apply (f_equal (@rev char)) in H. rewrite rev_involutive in H.
  simpl in H. revert H. apply strip_leading_space_last. exact Hc.
Qed.

Lemma mkspace_spaces fuel : forall n, Forall (fun c => c = SP) (Formatter.mkspace fuel n).
Proof.
  induction fuel as [|fuel IH]; intros n; simpl.
  - destruct (n <=? 1)%Z; [destruct (n =? 1)%Z|]; repeat constructor.
  - destruct (n <=? 1)%Z; [destruct (n =? 1)%Z; repeat constructor|].
    apply Forall_app. split; apply IH.
Qed.

(* ------------------------------------------------------------------ *)
(** ** Formatter: paragraph breaks and blank lines *)

Section FormatterFacts.

Variable linewrap : Z -> Z -> LinewrapOpts -> jsstring -> jsstring.

Lemma makeWrap_ok f indent tag :
  Formatter.noWrap (Formatter.options f) = true \/ wraps_to_lines linewrap ->
  wrap_ok (Formatter._makeWrap linewrap f indent tag).
Proof.
  intros H t Ht. unfold Formatter._makeWrap.
  destruct (Formatter.noWrap (Formatter.options f)) eqn:E.
  - apply no_lf_full_lines.
    + apply Forall_app. split.
      * eapply Forall_impl; [|apply mkspace_spaces]. intros c ->. discriminate.
      * apply Forall_forall. intros c Hc. apply trim_incl in Hc.
        revert c Hc. apply Forall_forall. apply collapse_space_no_lf.
    + intros Happ. apply app_eq_nil in Happ. destruct Happ as [_ Happ].
      revert Happ. apply trim_collapse_nonempty. exact Ht.
  - destruct H as [H|H]; [discriminate|].
    destruct (truthy tag); apply H; exact Ht.
Qed.

Lemma create_inv o :
  Formatter.noWrap o = true \/ wraps_to_lines linewrap ->
  layout_inv linewrap (Formatter.create linewrap o).
Proof.
  intros H. constructor; simpl; try congruence; try tauto.
  - exists 1. split; [reflexivity|]. lia.
  - apply makeWrap_ok. exact H.
  - constructor.
Qed.

Lemma lineBreak_eq f :
  Formatter.lineBreak f =
  if Formatter.newLine f then (Ok tt, f)
  else match Formatter.state f with
       | None => (Throw TypeError, f)
       | Some st =>
           (Ok tt,
            Formatter.set_newLine true
              (Formatter.set_buffer []
                 (Formatter.set_outStream
                    ((Formatter.outStream f
                      ++ Formatter.wrap st (concat (Formatter.buffer f)))
                     ++ [LF]) f)))
       end.
Proof.
  destruct f as [o c tw b out nl np k st]. unfold Formatter.lineBreak.
  destruct nl; [reflexivity|]. destruct st; reflexivity.
Qed.

Lemma lineBreak_inv : preserves (layout_inv linewrap) Formatter.lineBreak.
Proof.
  intros f Hf. rewrite lineBreak_eq.
  destruct (Formatter.newLine f) eqn:Enl; [exact Hf|].
  destruct (Formatter.state f) as [st|] eqn:Est; [|exact Hf].
  destruct Hf as [[k [Hk Hk1]] Hfl He Hb Hst Hsk Hw].
  destruct f as [o c tw b out nl np stk st0]. simpl in *. subst.
  constructor; simpl; try tauto; try congruence.
  exists 1. split; [|lia].
  rewrite !blank_scan_app, Hk.
  rewrite (full_lines_scan _ k); [reflexivity|].
  apply Hst. apply Hb. reflexivity.
Qed.

Lemma lineBreak_newLine f :
  fst (Formatter.lineBreak f) = Ok tt ->
  Formatter.newLine (snd (Formatter.lineBreak f)) = true
  /\ Formatter.newPara (snd (Formatter.lineBreak f)) = Formatter.newPara f
  /\ Formatter.stateStack (snd (Formatter.lineBreak f)) = Formatter.stateStack f
  /\ Formatter.state (snd (Formatter.lineBreak f)) = Formatter.state f.
Proof.
  rewrite lineBreak_eq. destruct (Formatter.newLine f) eqn:E; [tauto|].
  destruct (Formatter.state f) eqn:Est; simpl; [|discriminate].
  destruct f; simpl in *. intuition congruence.
Qed.

Lemma paragraphBreak_eq f :
  Formatter.paragraphBreak f =
  if Formatter.newPara f then (Ok tt, f)
  else
    match (if Formatter.newLine f then (Ok tt, f) else Formatter.lineBreak f) with
    | (Ok _, f') =>
        (Ok tt, Formatter.set_newPara true
                  (Formatter.set_outStream (Formatter.outStream f' ++ [LF]) f'))
    | (Throw e, f') => (Throw e, f')
    | (OutOfFuel, f') => (OutOfFuel, f')
    end.
Proof.
  unfold Formatter.paragraphBreak, bind, gets.
  destruct (Formatter.newPara f); [reflexivity|].
  destruct (Formatter.newLine f); simpl; [reflexivity|].
  destruct (Formatter.lineBreak f) as [[[]|e|] f']; reflexivity.
Qed.

Lemma paragraphBreak_inv : preserves (layout_inv linewrap) Formatter.paragraphBreak.
Proof.
  intros f Hf. rewrite paragraphBreak_eq.
  destruct (Formatter.newPara f) eqn:Enp; [exact Hf|].
  assert (G : forall f', layout_inv linewrap f' -> Formatter.newLine f' = true ->
                Formatter.newPara f' = false ->
                layout_inv linewrap (Formatter.set_newPara true
                  (Formatter.set_outStream (Formatter.outStream f' ++ [LF]) f'))).
  { clear. intros f' [[k [Hk Hk1]] Hfl He Hb Hst Hsk Hw] Hnl Hnp.
    destruct f' as [o c tw b out nl np stk st0]. simpl in *. subst.
    constructor; simpl; try tauto; try congruence.
    exists (S k). split; [|discriminate].
    rewrite blank_scan_app, Hk. simpl.
    specialize (Hk1 eq_refl eq_refl).
    destruct k as [|[|k]]; try reflexivity. lia. }
  destruct (Formatter.newLine f) eqn:Enl.
  - simpl. apply G; assumption.
  - pose proof (lineBreak_inv f Hf) as Hi.
    pose proof (lineBreak_newLine f) as Hn.
    destruct (Formatter.lineBreak f) as [[[]|e|] f']; simpl in *; try exact Hi.
    destruct (Hn eq_refl) as [H1 [H2 _]]. apply G; congruence.
Qed.

Lemma paragraphBreak_newPara f r f' :
  Formatter.paragraphBreak f = (r, f') ->
  r = Ok tt -> Formatter.paragraphBreak f' = (Ok tt, f').
Proof.
  rewrite paragraphBreak_eq. intros H Hr. subst r.
  rewrite paragraphBreak_eq.
  destruct (Formatter.newPara f) eqn:Enp.
  - injection H as <-. rewrite Enp. reflexivity.
  - destruct (if Formatter.newLine f then (Ok tt, f) else Formatter.lineBreak f)
      as [[[]|e|] f1]; try discriminate.
    injection H as <-. reflexivity.
Qed.

Lemma write_inv text : preserves (layout_inv linewrap) (Formatter.write text).
Proof.
  intros f [[k [Hk Hk1]] Hfl He Hb Hst Hsk Hw].
  destruct f as [o c tw b out nl np stk st0]. simpl in *.
  unfold Formatter.write, bind, gets, modify. simpl.
  destruct (nl || np) eqn:E.
  - assert (nl = true) by (destruct nl, np; simpl in *; tauto). subst nl.
    destruct (strip_leading_space_head text) as [H0|H0].
    + rewrite H0. simpl. constructor; simpl; try tauto. exists k. tauto.
    + destruct (strip_leading_space text) as [|x t] eqn:Et; [destruct H0|].
      simpl. constructor; simpl; try tauto; try congruence.
      * exists k. split; [exact Hk|discriminate].
      * intros _. rewrite (He eq_refl). simpl. exact H0.
  - apply orb_false_iff in E. destruct E as [-> ->]. simpl.
    constructor; simpl; try tauto; try congruence.
    + exists k. split; [exact Hk|discriminate].
    + intros _. rewrite concat_app. specialize (Hb eq_refl).
      destruct (concat b); [destruct Hb|exact Hb].
Qed.

Lemma indent_inv tag : preserves (layout_inv linewrap) (Formatter.indent linewrap tag).
Proof.
  unfold Formatter.indent. apply preserves_bind; [apply lineBreak_inv|]. intros _.
  apply preserves_bind.
  { intros f [[k [Hk Hk1]] Hfl He Hb Hst Hsk Hw].
    destruct f; simpl in *. constructor; simpl; try tauto.
    - exists k. tauto.
    - constructor; assumption. }
  intros _. apply preserves_bind; [apply preserves_gets|]. intros [st|].
  2:{ apply preserves_throw. }
  apply preserves_bind; [apply preserves_gets|]. intros tw.
  apply preserves_bind.
  { intros f [[k [Hk Hk1]] Hfl He Hb Hst Hsk Hw].
    pose proof (makeWrap_ok f (Formatter.indent_of st + tw) tag Hw) as Hm.
    destruct f; simpl in *. constructor; simpl; try tauto.
    exists k. tauto. }
  intros _. destruct tag as [[|c tg]|]; try apply preserves_ret.
  apply preserves_bind; [apply write_inv|]. intros _. apply write_inv.
Qed.

Lemma dedent_inv : preserves (layout_inv linewrap) Formatter.dedent.
Proof.
  unfold Formatter.dedent. apply preserves_bind; [apply lineBreak_inv|]. intros _.
  intros f [[k [Hk Hk1]] Hfl He Hb Hst Hsk Hw].
  destruct f as [o c tw b out nl np stk st0]. simpl in *.
  destruct stk as [|top stk]; simpl.
  - constructor; simpl; try tauto. exists k. tauto.
  - inversion Hsk; subst. constructor; simpl; try tauto. exists k. tauto.
Qed.

Lemma run_op_inv o : preserves (layout_inv linewrap) (run_op linewrap o).
Proof.
  destruct o; simpl.
  - apply write_inv.
  - apply lineBreak_inv.
  - apply paragraphBreak_inv.
  - apply indent_inv.
  - apply dedent_inv.
  - unfold Formatter.writeTitle.
    apply preserves_bind; [apply write_inv|]. intros _.
    apply preserves_bind; [apply lineBreak_inv|]. intros _.
    apply preserves_bind; [|intros _; apply paragraphBreak_inv].
    destruct subtitle as [[|c sub]|]; try apply preserves_ret.
    apply preserves_bind; [apply write_inv|]. intros _. apply lineBreak_inv.
  - unfold Formatter.writeSummary.
    apply preserves_bind; [apply paragraphBreak_inv|]. intros _.
    apply preserves_bind; [apply indent_inv|]. intros _.
    apply preserves_bind; [apply write_inv|]. intros _.
    apply preserves_bind; [apply dedent_inv|]. intros _.
    apply paragraphBreak_inv.
  - unfold Formatter.writeHeading.
    apply preserves_bind; [apply paragraphBreak_inv|]. intros _.
    apply preserves_bind; [apply write_inv|]. intros _.
    apply paragraphBreak_inv.
  - unfold Formatter.flush.
    apply preserves_bind; [apply lineBreak_inv|]. intros _.
    intros f [[k [Hk Hk1]] Hfl He Hb Hst Hsk Hw].
    destruct f; simpl in *. constructor; simpl; try tauto.
    exists k. rewrite app_nil_r. tauto.
Qed.

Lemma run_ops_inv ops : forall f,
  layout_inv linewrap f -> layout_inv linewrap (run_ops linewrap ops f).
Proof.
  induction ops as [|o ops IH]; intros f Hf; simpl; [exact Hf|].
  apply IH. apply run_op_inv. exact Hf.
Qed.

End FormatterFacts.

Lemma sample_linewrap_lines : wraps_to_lines sample_linewrap.
Proof.
  intros a b opts t Ht. apply no_lf_full_lines.
  - apply Forall_forall. intros c Hc. apply trim_incl in Hc.
    revert c Hc. apply Forall_forall. apply collapse_space_no_lf.
  - apply trim_collapse_nonempty. exact Ht.
Qed.

(** C3: for every Formatter state and every N >= 1, N calls of
    [paragraphBreak] in a row leave the same stream and state as one
    call; and the stream produced by any series of Formatter
    operations on a new Formatter never holds two blank lines in a row
    (the lines wrapped by [linewrap] being non-empty lines). *)
Theorem paragraphBreak_once
  (linewrap : Z -> Z -> LinewrapOpts -> jsstring -> jsstring)
  (o : Formatter.Options)
  (Hwrap : Formatter.noWrap o = true \/ wraps_to_lines linewrap) :
  (forall (f : Formatter.t) (N : nat), 1 <= N ->
     times N Formatter.paragraphBreak f = Formatter.paragraphBreak f)
  /\ (forall ops : list FormatterOp,
        no_two_blank_lines
          (Formatter.outStream
             (run_ops linewrap ops (Formatter.create linewrap o)))).
Proof.
  split.
  - intros f [|n] HN; [lia|].
    destruct (Formatter.paragraphBreak f) as [r f'] eqn:E.
    apply times_fixed; [exact E|].
    intros Hr. eapply paragraphBreak_newPara; eassumption.
  - intros ops.
    destruct (run_ops_inv linewrap ops (Formatter.create linewrap o)
                (create_inv linewrap o Hwrap)) as [[k [Hk _]] _ _ _ _ _ _].
    unfold no_two_blank_lines. rewrite Hk. discriminate.
Qed.

Lemma paragraphBreak_once_witness :
  let o := {| Formatter.column := None; Formatter.tabWidth_opt := None;
              Formatter.noWrap := false |} in
  let f := snd (Formatter.write (lit "a") (Formatter.create sample_linewrap o)) in
  times 3 Formatter.paragraphBreak f = Formatter.paragraphBreak f
  /\ no_two_blank_lines
       (Formatter.outStream
          (run_ops sample_linewrap
             [OpWrite (lit "a"); OpParagraphBreak; OpParagraphBreak;
              OpIndent (Some (lit "*")); OpWrite (lit "b"); OpDedent;
              OpDedent; OpWrite (lit "c"); OpParagraphBreak; OpFlush]
             (Formatter.create sample_linewrap o))).
Proof.
  intros o f.
  destruct (paragraphBreak_once sample_linewrap o
              (or_intror sample_linewrap_lines)) as [H1 H2].
  split; [apply H1; lia|apply H2].
Defined.

(* ------------------------------------------------------------------ *)
(** ** cleanMath: termination *)

Lemma returns_ret {St A} (a : A) (Q : A -> Prop) : Q a -> returns (@ret St A a) Q.
Proof. intros H s. exact H. Qed.

Lemma returns_bind {St A B} (c : M St A) (k : A -> M St B)
  (Q : A -> Prop) (R : B -> Prop) :
  returns c Q -> (forall a, Q a -> returns (k a) R) -> returns (bind c k) R.
Proof.
  intros Hc Hk s. unfold bind. specialize (Hc s).
  destruct (c s) as [[a|e|] s1]; simpl in *; try tauto.
  apply Hk. exact Hc.
Qed.

Lemma returns_weaken {St A} (c : M St A) (Q R : A -> Prop) :
  returns c Q -> (forall a, Q a -> R a) -> returns c R.
Proof.
  intros Hc H s. specialize (Hc s). destruct (fst (c s)); auto.
Qed.

Lemma returns_mapM {St A B} (f : A -> M St B) (P : A -> Prop) (Q : B -> Prop) l :
  (forall a, P a -> returns (f a) Q) -> Forall P l ->
  returns (mapM f l) (Forall Q).
Proof.
  intros Hf. induction 1 as [|a l Ha _ IH]; simpl.
  - apply returns_ret. constructor.
  - eapply returns_bind; [apply Hf; exact Ha|]. intros b Hb.
    eapply returns_bind; [exact IH|]. intros bs Hbs.
    apply returns_ret. constructor; assumption.
Qed.

Lemma search_some p s n :
  Math.search p s = Some n ->
  n < length s /\ p (nth n s 0%N) = true /\ Forall (fun c => p c = false) (firstn n s).
Proof.
  revert n. induction s as [|c s IH]; intros n; simpl; [discriminate|].
  destruct (p c) eqn:E.
  - intros H. injection H as <-. simpl. repeat split; [lia|exact E|constructor].
  - destruct (Math.search p s) as [m|]; simpl; [|discriminate].
    intros H. injection H as <-. destruct (IH m eq_refl) as [H1 [H2 H3]].
    simpl. repeat split; [lia|exact H2|constructor; assumption].
Qed.

Lemma search_none p s :
  Math.search p s = None -> Forall (fun c => p c = false) s.
Proof.
  induction s as [|c s IH]; simpl; [constructor|].
  destruct (p c) eqn:E; [discriminate|].
  destruct (Math.search p s); simpl; [discriminate|].
  intros _. constructor; [exact E|apply IH; reflexivity].
Qed.

Lemma nth_skipn_add {A} (l : list A) a b d : nth (a + b) l d = nth b (skipn a l) d.
Proof.
  revert l. induction a as [|a IH]; intros l; simpl; [reflexivity|].
  destruct l as [|x l]; [destruct b; reflexivity|]. apply IH.
Qed.

Lemma find_args_returns fuel : forall fname math opn last args L,
  length math - last < fuel -> length math <= L ->
  Forall (fun a => length a <= L) args ->
  returns (Math.find_args fuel fname math opn last args)
    (fun am => Forall (fun a => length a <= L) (fst am) /\ length (snd am) <= L).
Proof.
  induction fuel as [|fuel IH]; intros fname math opn last args L Hm HL Hargs;
    [lia|]. simpl.
  destruct (Math.search Math.is_delim (slice_from last math)) as [next|] eqn:Es.
  - destruct (search_some _ _ _ Es) as [Hn _]. unfold slice_from in Hn.
    rewrite length_skipn in Hn.
    destruct (Math.is_open (nth (last + next) math 0%N)).
    + apply IH; [lia|exact HL|exact Hargs].
    + destruct (opn - 1 =? 0)%Z.
      * assert (Hargs' : Forall (fun a => length a <= L)
                           (args ++ [slice_to (last + next) math])).
        { apply Forall_app. split; [exact Hargs|]. constructor; [|constructor].
          unfold slice_to. rewrite length_firstn. lia. }
        destruct (Math.chained_exec (slice_from (last + next + 1) math)) as [n|].
        -- apply IH; [|unfold slice_from; rewrite !length_skipn; lia|exact Hargs'].
           unfold slice_from. rewrite !length_skipn. lia.
        -- apply returns_ret. simpl. split; [exact Hargs'|].
           unfold slice_from. rewrite length_skipn. lia.
      * apply IH; [lia|exact HL|exact Hargs].
  - eapply returns_bind with (Q := fun _ => True); [intros s; exact I|].
    intros _ _. apply returns_ret. simpl. split; [|lia].
    apply Forall_app. split; [exact Hargs|]. constructor; [exact HL|constructor].
Qed.

Lemma render_returns fname args : returns (Math.render fname args) (fun _ => True).
Proof.
  unfold Math.render. destruct (Math.own Math.funcMap fname).
  - apply returns_ret. exact I.
  - intros s. unfold bind, Math.warned_hasOwnProperty, gets, bind. simpl.
    destruct (existsb _ (warned s)); simpl; [exact I|].
    destruct (existsb (seq_eqb fname) (warned s)); simpl; exact I.
Qed.

Lemma macro_exec_some math m :
  Math.macro_exec math = Some m ->
  Math.m_index m < length math /\ 1 <= Math.m_length m.
Proof.
  unfold Math.macro_exec.
  destruct (Math.search (ceq BACKSLASH) math) as [i|] eqn:Es; [|discriminate].
  destruct (search_some _ _ _ Es) as [Hi _].
  match goal with |- context [let '(_, _) := ?x in _] => destruct x as [opn n] end.
  intros H. injection H as <-. simpl. lia.
Qed.

Lemma cleanMath_loop_returns fuel : forall result math,
  length math < fuel ->
  returns (Math.cleanMath_loop fuel result math) (fun _ => True).
Proof.
  induction fuel as [|fuel IH]; intros result math Hl; [lia|]. simpl.
  destruct (Math.macro_exec math) as [m|] eqn:Em; [|apply returns_ret; exact I].
  destruct (macro_exec_some _ _ Em) as [Hi Hlen].
  set (math1 := slice_from (Math.m_index m + Math.m_length m) math).
  assert (H1 : length math1 < fuel).
  { unfold math1, slice_from. rewrite length_skipn. lia. }
  eapply returns_bind
    with (Q := fun am : list jsstring * jsstring => length (snd am) < fuel).
  - destruct (Math.m_open m).
    + eapply returns_bind.
      * apply (find_args_returns (S (length math1)) (Math.m_fname m) math1 1%Z 0 []
                 (length math1)); [lia|lia|constructor].
      * intros am [Ha Hs]. simpl in *.
        eapply returns_bind.
        -- apply returns_mapM
             with (P := fun a => length a <= length math1) (Q := fun _ => True);
             [|exact Ha].
           intros a Hla. apply IH. lia.
        -- intros args _. apply returns_ret. simpl. lia.
    + apply returns_ret. exact H1.
  - intros am Ham. eapply returns_bind; [apply render_returns|].
    intros out _. apply IH. exact Ham.
Qed.

(** Enough fuel: one more than the length of the text. *)
Lemma cleanMath_total math fuel p :
  length math < fuel -> fst (Math.cleanMath fuel math p) <> OutOfFuel.
Proof.
  intros H. pose proof (cleanMath_loop_returns fuel [] math H p) as G.
  unfold Math.cleanMath. destruct (fst (Math.cleanMath_loop fuel [] math p));
    [discriminate|discriminate|destruct G].
Qed.

(* ------------------------------------------------------------------ *)
(** ** cleanMath: an argument that is not closed *)

Lemma is_open_delim c : Math.is_open c = true -> Math.is_delim c = true.
Proof. unfold Math.is_delim. intros ->. reflexivity. Qed.

Lemma has_matching_close_skip n : forall depth s,
  Forall (fun c => Math.is_delim c = false) (firstn n s) ->
  has_matching_close depth s = has_matching_close depth (skipn n s).
Proof.
  induction n as [|n IH]; intros depth [|c s] H; simpl in *; try reflexivity.
  inversion H as [|? ? Hc Hs]; subst. rewrite Hc.
  destruct (Math.is_open c) eqn:Eo.
  - apply is_open_delim in Eo. congruence.
  - apply IH. exact Hs.
Qed.

Lemma skipn_cons_nth {A} (l : list A) n d :
  n < length l -> skipn n l = nth n l d :: skipn (S n) l.
Proof.
  revert l. induction n as [|n IH]; intros [|x l] H; simpl in *; try lia.
  - reflexivity.
  - apply IH. lia.
Qed.

Lemma find_args_unterminated fuel : forall fname math depth last args p,
  length math - last < fuel ->
  has_matching_close (S depth) (skipn last math) = false ->
  Math.find_args fuel fname math (Z.of_nat (S depth)) last args p
  = (Ok (args ++ [math], []), warned_of (UnterminatedMathArgument fname math) p).
Proof.
  induction fuel as [|fuel IH]; intros fname math depth last args p Hm Hc; [lia|].
  cbn [Math.find_args]. unfold slice_from.
  destruct (Math.search Math.is_delim (skipn last math)) as [next|] eqn:Es.
  - destruct (search_some _ _ _ Es) as [Hn [Hd Hpre]].
    rewrite length_skipn in Hn.
    rewrite (has_matching_close_skip next _ _ Hpre) in Hc.
    rewrite skipn_skipn in Hc.
    replace (next + last) with (last + next) in Hc by lia.
    rewrite (skipn_cons_nth math (last + next) 0%N) in Hc by lia.
    cbn [has_matching_close] in Hc. rewrite <- nth_skipn_add in Hd.
    destruct (Math.is_open (nth (last + next) math 0%N)) eqn:Eo.
    + replace (Z.of_nat (S depth) + 1)%Z with (Z.of_nat (S (S depth))) by lia.
      apply IH; [lia|]. replace (last + next + 1) with (S (last + next)) by lia.
      exact Hc.
    + rewrite Hd in Hc. destruct depth as [|depth]; [discriminate|].
      replace (Z.of_nat (S (S depth)) - 1)%Z with (Z.of_nat (S depth)) by lia.
      replace (Z.of_nat (S depth) =? 0)%Z with false
        by (symmetry; apply Z.eqb_neq; lia).
      apply IH; [lia|]. replace (last + next + 1) with (S (last + next)) by lia.
      exact Hc.
  - reflexivity.
Qed.

Lemma find_args_unterminated_top fname math p :
  has_matching_close 1 math = false ->
  Math.find_args (S (length math)) fname math 1%Z 0 [] p
  = (Ok ([math], []), warned_of (UnterminatedMathArgument fname math) p).
Proof.
  intros H.
  apply (find_args_unterminated (S (length math)) fname math 0 0 [] p);
    [lia|exact H].
Qed.

Lemma cleanMath_loop_nil fuel result p :
  Math.cleanMath_loop (S fuel) result [] p = (Ok result, p).
Proof. simpl. unfold ret. rewrite app_nil_r. reflexivity. Qed.

Lemma cleanMath_loop_unterminated fuel result math m o p :
  Math.macro_exec math = Some m ->
  Math.m_open m = Some o ->
  has_matching_close 1
    (slice_from (Math.m_index m + Math.m_length m) math) = false ->
  Math.cleanMath_loop (S fuel) result math p
  = (let rest := slice_from (Math.m_index m + Math.m_length m) math in
     Math.warn (UnterminatedMathArgument (Math.m_fname m) rest) ;;
     arg <- Math.cleanMath_loop fuel [] rest ;;
     out <- Math.render (Math.m_fname m) [arg] ;;
     ret (result ++ slice_to (Math.m_index m) math ++ out)) p.
Proof.
  intros Em Ho Hc. cbn [Math.cleanMath_loop]. rewrite Em, Ho. cbv zeta.
  set (rest := slice_from (Math.m_index m + Math.m_length m) math) in *.
  set (fname := Math.m_fname m). set (pre := slice_to (Math.m_index m) math).
  pose proof (find_args_unterminated_top fname rest p Hc) as Hfa.
  assert (Hw : Math.warn (UnterminatedMathArgument fname rest) p
               = (Ok tt, warned_of (UnterminatedMathArgument fname rest) p))
    by reflexivity.
  rewrite (bind_ok _ _ _ _ _ Hw).
  set (p1 := warned_of (UnterminatedMathArgument fname rest) p) in *.
  destruct (Math.cleanMath_loop fuel [] rest p1) as [[arg|e|] p2] eqn:Ex.
  - assert (Hm : mapM (Math.cleanMath_loop fuel []) [rest] p1 = (Ok [arg], p2)).
    { cbn [mapM]. rewrite (bind_ok _ _ _ _ _ Ex). reflexivity. }
    rewrite (bind_ok _ _ _ _ _ Ex).
    match goal with
    | |- bind ?am _ p = _ =>
        assert (Ham : am p = (Ok ([arg], []), p2))
    end.
    { rewrite (bind_ok _ _ _ _ _ Hfa). cbn [fst snd].
      rewrite (bind_ok _ _ _ _ _ Hm). reflexivity. }
    rewrite (bind_ok _ _ _ _ _ Ham). cbn [fst snd].
    destruct (Math.render fname [arg] p2) as [[out|e|] p3] eqn:Er.
    + rewrite !(bind_ok _ _ _ _ _ Er).
      destruct fuel as [|fuel]; [discriminate Ex|].
      rewrite cleanMath_loop_nil. unfold ret, pre. rewrite app_assoc.
      reflexivity.
    + rewrite !(bind_throw _ _ _ _ _ Er). reflexivity.
    + rewrite !(bind_fuel _ _ _ _ Er). reflexivity.
  - assert (Hm : mapM (Math.cleanMath_loop fuel []) [rest] p1 = (Throw e, p2)).
    { cbn [mapM]. rewrite (bind_throw _ _ _ _ _ Ex). reflexivity. }
    rewrite (bind_throw _ _ _ _ _ Ex).
    apply bind_throw. rewrite (bind_ok _ _ _ _ _ Hfa). cbn [fst snd].
    apply bind_throw. exact Hm.
  - assert (Hm : mapM (Math.cleanMath_loop fuel []) [rest] p1 = (OutOfFuel, p2)).
    { cbn [mapM]. rewrite (bind_fuel _ _ _ _ Ex). reflexivity. }
    rewrite (bind_fuel _ _ _ _ Ex).
    apply bind_fuel. rewrite (bind_ok _ _ _ _ _ Hfa). cbn [fst snd].
    apply bind_fuel. exact Hm.
Qed.

(** C5: the macro interpreter terminates on every input, with one more
    unit of fuel than the text has characters; and when the name opens
    a brace or bracket that no later delimiter closes, the whole
    remainder is the argument, a warning is given, and nothing is
    scanned after it: the result ends with what the name makes of that
    one argument. *)
Theorem cleanMath_terminates :
  (forall (math : jsstring) (fuel : nat) (p : Proc),
      length math < fuel -> fst (Math.cleanMath fuel math p) <> OutOfFuel)
  /\ (forall (fuel : nat) (result math : jsstring) (m : Math.MacroMatch)
             (o : char) (p : Proc),
        Math.macro_exec math = Some m ->
        Math.m_open m = Some o ->
        has_matching_close 1
          (slice_from (Math.m_index m + Math.m_length m) math) = false ->
        Math.cleanMath_loop (S fuel) result math p
        = (let rest := slice_from (Math.m_index m + Math.m_length m) math in
           Math.warn (UnterminatedMathArgument (Math.m_fname m) rest) ;;
           arg <- Math.cleanMath_loop fuel [] rest ;;
           out <- Math.render (Math.m_fname m) [arg] ;;
           ret (result ++ slice_to (Math.m_index m) math ++ out)) p).
Proof.
  split.
  - intros math fuel p. apply cleanMath_total.
  - intros. eapply cleanMath_loop_unterminated; eassumption.
Qed.

Lemma cleanMath_terminates_witness :
  fst (Math.cleanMath 8 (lit "\sqrt{x") fresh_proc) <> OutOfFuel
  /\ Math.cleanMath_loop 8 [] (lit "\sqrt{x") fresh_proc
     = (Ok ([0x221A]%N ++ lit "(x)"),
        {| warned := [];
           console := [UnterminatedMathArgument (lit "sqrt") (lit "x")] |}).
Proof.
  destruct cleanMath_terminates as [H1 H2]. split.
  - apply H1. simpl. lia.
  - rewrite (H2 7 [] (lit "\sqrt{x")
               {| Math.m_index := 0; Math.m_length := 6;
                  Math.m_fname := lit "sqrt"; Math.m_open := Some 123%N |}
               123%N fresh_proc eq_refl eq_refl eq_refl).
    reflexivity.
Defined.

(* ------------------------------------------------------------------ *)
(** ** cleanMath: unknown names *)

(** An unknown name is written back with its arguments in braces and a
    space, and warned about the first time only, as long as [warned]
    has no own property named hasOwnProperty. *)
Lemma render_unknown fname args p :
  Math.own Math.funcMap fname = None ->
  existsb (seq_eqb (lit "hasOwnProperty")) (warned p) = false ->
  Math.render fname args p
  = (Ok ([BACKSLASH] ++ fname
         ++ concat (map (fun a => [123%N] ++ a ++ [125%N]) args) ++ [SP]),
     if existsb (seq_eqb fname) (warned p) then p
     else {| warned := warned p ++ [fname];
             console := console p ++ [UnknownMathFunction fname] |}).
Proof.
  intros Hown Hhop. unfold Math.render. rewrite Hown.
  unfold bind, Math.warned_hasOwnProperty, gets, bind. rewrite Hhop.
  destruct (existsb (seq_eqb fname) (warned p)) eqn:E; simpl.
  - reflexivity.
  - unfold Math.set_warned, modify. simpl. rewrite E. reflexivity.
Qed.

(** C6 (the defect): once the unknown name hasOwnProperty was warned
    about, the object [warned] has an own property of that name, and
    the test of the next unknown name throws a TypeError instead of
    writing the name back. *)
Theorem unknown_macro_after_hasOwnProperty :
  Math.cleanMath 20 (lit "\hasOwnProperty\foo") fresh_proc
  = (Throw TypeError,
     {| warned := [lit "hasOwnProperty"];
        console := [UnknownMathFunction (lit "hasOwnProperty")] |}).
Proof. vm_compute. reflexivity. Qed.

(* ------------------------------------------------------------------ *)
(** ** Visitor: the dispatch of visit *)

Lemma opt_neq_refl x : opt_neq x x = false.
Proof. destruct x as [x|]; simpl; [rewrite seq_eqb_refl|]; reflexivity. Qed.

Lemma or_else_declares node attr cur :
  or_else (Dom.getAttribute node attr) cur
  = match declares node attr with
    | Some x => Some x
    | None => cur
    end.
Proof.
  unfold or_else, declares, truthy.
  destruct (Dom.getAttribute node attr) as [[|c x]|]; reflexivity.
Qed.

Lemma opt_neq_differs x cur : opt_neq (Some x) cur = differs x cur.
Proof. destruct cur; reflexivity. Qed.

Lemma isHidden_marked node :
  isHidden node = marked_hidden node && negb (isMultipleImageTemplate node).
Proof.
  unfold isHidden, marked_hidden.
  destruct (isMultipleImageTemplate node); [rewrite andb_false_r; reflexivity|].
  rewrite andb_true_r.
  destruct (Dom.classList_contains node (lit "noprint")); [reflexivity|].
  destruct (Dom.getAttribute node (lit "style")) as [[|c st]|];
    destruct (display_none_test _); try reflexivity;
    destruct (existsb _ hidden_classes); reflexivity.
Qed.

Lemma handler_of_classify node :
  handler_of node
  = match classify_handler node with
    | ByTypeof m | ByRel m | ByTag m => Some m
    | _ => None
    end.
Proof.
  unfold handler_of, classify_handler, registered.
  destruct (Dom.getAttribute node (lit "typeof")) as [typeo|].
  - destruct (property prototype (lit "visitTYPEOF=" ++ typeo)); [reflexivity|].
    destruct (Dom.getAttribute node (lit "rel")) as [rel|].
    + destruct (property prototype (lit "visitREL=" ++ rel)); [reflexivity|].
      destruct (property prototype (lit "visit" ++ Dom.nodeName node));
        reflexivity.
    + destruct (property prototype (lit "visit" ++ Dom.nodeName node));
        reflexivity.
  - destruct (Dom.getAttribute node (lit "rel")) as [rel|].
    + destruct (property prototype (lit "visitREL=" ++ rel)); [reflexivity|].
      destruct (property prototype (lit "visit" ++ Dom.nodeName node));
        reflexivity.
    + destruct (property prototype (lit "visit" ++ Dom.nodeName node));
        reflexivity.
Qed.

Section Dispatch.

Variable linewrap : Z -> Z -> LinewrapOpts -> jsstring -> jsstring.
Variable first_child : Node -> option Node.
Variable Polyglossia_lookup : option jsstring -> res (option Poly).
Variable multiple_image_query : Node -> res (list Node * list Node).
Variable ToString : option Json.value -> res jsstring.
Variable cleanMath_array : list Json.value -> M Proc jsstring.

Local Abbreviation vis :=
  (visit linewrap first_child Polyglossia_lookup multiple_image_query
     ToString cleanMath_array).
Local Abbreviation acts :=
  (act linewrap first_child Polyglossia_lookup multiple_image_query
     ToString cleanMath_array).

Lemma direction_test node cur :
  opt_neq
    (if negb (opt_neq (or_else (Dom.getAttribute node (lit "dir")) cur)
                      (Some (lit "auto")))
     then cur
     else or_else (Dom.getAttribute node (lit "dir")) cur)
    cur
  = match declares node (lit "dir") with
    | Some d => negb (seq_eqb d (lit "auto")) && differs d cur
    | None => false
    end.
Proof.
  rewrite or_else_declares.
  destruct (declares node (lit "dir")) as [d|].
  - rewrite opt_neq_differs. cbn [differs]. rewrite negb_involutive.
    destruct (seq_eqb d (lit "auto")); cbn [negb andb].
    + apply opt_neq_refl.
    + apply opt_neq_differs.
  - destruct (negb _); apply opt_neq_refl.
Qed.

Lemma dispatch_handler fuel node v :
  match handler_of node with
  | Some m =>
      apply_method linewrap first_child Polyglossia_lookup
        multiple_image_query ToString cleanMath_array (vis fuel) m node
  | None => visitChildren (vis fuel) node
  end v
  = acts (vis fuel) (classify_handler node) node v.
Proof.
  unfold handler_of, classify_handler, registered.
  destruct (Dom.getAttribute node (lit "typeof")) as [typeo|];
    [destruct (property prototype (lit "visitTYPEOF=" ++ typeo));
     [reflexivity|]|];
    (destruct (Dom.getAttribute node (lit "rel")) as [rel|];
     [destruct (property prototype (lit "visitREL=" ++ rel));
      [reflexivity|]|]);
    destruct (property prototype (lit "visit" ++ Dom.nodeName node));
    reflexivity.
Qed.

Lemma dispatch_direction fuel node v :
  (cur <- gets currentDirectionality ;;
   if opt_neq
        (if negb (opt_neq (or_else (Dom.getAttribute node (lit "dir")) cur)
                          (Some (lit "auto")))
         then cur
         else or_else (Dom.getAttribute node (lit "dir")) cur)
        cur
   then visitDIR (vis fuel) node
   else
     match handler_of node with
     | Some m =>
         apply_method linewrap first_child Polyglossia_lookup
           multiple_image_query ToString cleanMath_array (vis fuel) m node
     | None => visitChildren (vis fuel) node
     end) v
  = acts (vis fuel)
      (if switches_direction node v then SwitchDirection
       else classify_handler node) node v.
Proof.
  unfold bind at 1, gets at 1. rewrite direction_test.
  unfold switches_direction.
  destruct (match declares node (lit "dir") with
            | Some d => negb (seq_eqb d (lit "auto"))
                        && differs d (currentDirectionality v)
            | None => false
            end); [reflexivity|].
  apply dispatch_handler.
Qed.

(** One step of [visit] on an element is the action of its class. *)
Lemma visit_by_class (fuel : nat) (name : jsstring)
  (attrs : list (jsstring * jsstring)) (children : list Node) (v : Visitor) :
  let node := Element name attrs children in
  vis (S fuel) node v = acts (vis fuel) (classify node v) node v.
Proof.
  intros node. cbn [visit]. unfold visit_body, classify.
  change (match node with
          | Element _ _ _ => ?a
          | Text _ | CData _ => _
          | OtherNode => _
          end) with a.
  rewrite isHidden_marked.
  destruct (marked_hidden node && negb (isMultipleImageTemplate node));
    [reflexivity|].
  unfold bind at 1, gets at 1.
  rewrite or_else_declares. unfold switches_language.
  destruct (declares node (lit "lang")) as [l|] eqn:El.
  - rewrite opt_neq_differs.
    destruct (differs l (currentLanguage v)) eqn:Ed.
    + unfold act. unfold declares in El.
      destruct (Dom.getAttribute node (lit "lang")) as [[|c x]|];
        try discriminate. injection El as <-. reflexivity.
    + apply dispatch_direction.
  - rewrite opt_neq_refl. apply dispatch_direction.
Qed.

(** C8: for every element node, [visit] applies exactly one
    classification, the first that matches in the order hidden (unless
    a multi-image container), differing language, differing
    directionality (auto ignored), registered typeof handler,
    registered rel handler, registered tag handler, and else visits the
    children unchanged. *)
Theorem visit_classification (fuel : nat) (name : jsstring)
  (attrs : list (jsstring * jsstring)) (children : list Node) (v : Visitor) :
  let node := Element name attrs children in
  vis (S fuel) node v = acts (vis fuel) (classify node v) node v.
Proof. exact (visit_by_class fuel name attrs children v). Qed.

End Dispatch.
(* ------------------------------------------------------------------ *)
(** ** Frame rules *)

Section KeepsRules.

Context {St : Type} (R : St -> St -> Prop).
Hypothesis R_refl : forall s, R s s.
Hypothesis R_trans : forall a b c, R a b -> R b c -> R a c.

Lemma keeps_ret {A} (a : A) : keeps R (ret a).
Proof. intros s b s' H. injection H as _ <-. apply R_refl. Qed.

Lemma keeps_gets {A} (f : St -> A) : keeps R (gets f).
Proof. intros s b s' H. injection H as _ <-. apply R_refl. Qed.

Lemma keeps_lift_res {A} (r : res A) : keeps R (lift_res r).
Proof. intros s b s' H. injection H as _ <-. apply R_refl. Qed.

Lemma keeps_bind {A B} (c : M St A) (k : A -> M St B) :
  keeps R c -> (forall a, keeps R (k a)) -> keeps R (bind c k).
Proof.
  intros Hc Hk s b s' H. apply bind_inv_ok in H.
  destruct H as [a [s1 [H1 H2]]].
  eapply R_trans; [eapply Hc; exact H1|eapply Hk; exact H2].
Qed.

Lemma keeps_when (b : bool) (c : M St unit) : keeps R c -> keeps R (when b c).
Proof. destruct b; [tauto|intros _; apply keeps_ret]. Qed.

Lemma keeps_forM {A} (l : list A) (body : A -> M St unit) :
  (forall a, In a l -> keeps R (body a)) -> keeps R (forM l body).
Proof.
  induction l as [|a l IH]; intros H; simpl.
  - apply keeps_ret.
  - apply keeps_bind; [apply H; left; reflexivity|].
    intros _. apply IH. intros b Hb. apply H. right. exact Hb.
Qed.

End KeepsRules.

Lemma keeps_throw {St A} (R : St -> St -> Prop) e : keeps R (@throw St A e).
Proof. intros s b s' H. discriminate. Qed.

Lemma keeps_fuel {St A} (R : St -> St -> Prop) : keeps R (@out_of_fuel St A).
Proof. intros s b s' H. discriminate. Qed.

Lemma keeps_modify {St} (R : St -> St -> Prop) (f : St -> St) :
  (forall s, R s (f s)) -> keeps R (modify f).
Proof. intros H s b s' E. injection E as _ <-. apply H. Qed.

Lemma keeps_weaken {St A} (R R' : St -> St -> Prop) (c : M St A) :
  (forall s s', R s s' -> R' s s') -> keeps R c -> keeps R' c.
Proof. intros H Hc s a s' E. apply H. eapply Hc. exact E. Qed.

(** Inverting the parts of a computation that returned. *)
Lemma gets_inv {St A} (f : St -> A) s a s' :
  gets f s = (Ok a, s') -> a = f s /\ s' = s.
Proof. intros H. injection H as <- <-. auto. Qed.

Lemma modify_inv {St} (f : St -> St) s a s' :
  modify f s = (Ok a, s') -> s' = f s.
Proof. intros H. injection H as _ <-. reflexivity. Qed.

Lemma ret_inv {St A} (x : A) (s : St) a s' :
  ret x s = (Ok a, s') -> a = x /\ s' = s.
Proof. intros H. injection H as <- <-. auto. Qed.

Lemma lift_res_inv {St A} (r : res A) (s : St) a s' :
  lift_res r s = (Ok a, s') -> r = Ok a /\ s' = s.
Proof. intros H. injection H as <- <-. auto. Qed.

Ltac inv_bind H :=
  let a := fresh "a" in
  let s := fresh "s" in
  let H1 := fresh H "a" in
  apply bind_inv_ok in H; destruct H as [a [s [H1 H]]].

Ltac inv_leaf H :=
  first
    [ apply gets_inv in H; destruct H as [-> ->]
    | apply modify_inv in H; rewrite H in *; clear H
    | apply ret_inv in H; destruct H as [-> ->]
    | apply lift_res_inv in H; destruct H as [H ->] ].

(* ------------------------------------------------------------------ *)
(** ** Visitor: the scope of a language switch *)

Lemma lang_frame_refl v : lang_frame v v.
Proof. unfold lang_frame. repeat split; try reflexivity. apply incl_refl. Qed.

Lemma lang_frame_trans a b c : lang_frame a b -> lang_frame b c -> lang_frame a c.
Proof.
  unfold lang_frame. intros (H1 & H2 & H3 & H4) (G1 & G2 & G3 & G4).
  repeat split; try congruence. eapply incl_tran; eassumption.
Qed.

Lemma lang_frame_format x v : lang_frame v (set_format x v).
Proof. unfold lang_frame. simpl. repeat split. apply incl_refl. Qed.

Lemma lang_frame_proc x v : lang_frame v (set_proc x v).
Proof. unfold lang_frame. simpl. repeat split. apply incl_refl. Qed.

Lemma lang_frame_listInfo x v : lang_frame v (set_listInfo x v).
Proof. unfold lang_frame. simpl. repeat split. apply incl_refl. Qed.

Lemma lang_frame_templates x v : lang_frame v (set_templates x v).
Proof. unfold lang_frame. simpl. repeat split. apply incl_refl. Qed.

Lemma set_add_incl x l : incl l (set_add x l).
Proof.
  unfold set_add. destruct (existsb _ l); [apply incl_refl|].
  apply incl_appl, incl_refl.
Qed.

Lemma opt_neq_false x y : opt_neq x y = false -> x = y.
Proof.
  destruct x as [x|], y as [y|]; simpl; try discriminate; try reflexivity.
  intros H. apply negb_false_iff, seq_eqb_true in H. congruence.
Qed.

Lemma set_add_in x l : In x (set_add x l).
Proof.
  unfold set_add. destruct (existsb _ l) eqn:E.
  - apply existsb_exists in E. destruct E as [y [Hy E]].
    apply negb_true_iff, opt_neq_false in E. subst. exact Hy.
  - apply in_or_app. right. left. reflexivity.
Qed.

Lemma lang_frame_used x v :
  lang_frame v (set_usedLanguages (set_add x (usedLanguages v)) v).
Proof.
  unfold lang_frame. simpl. repeat split; try reflexivity. apply set_add_incl.
Qed.

Lemma keeps_lift_format (R : Visitor -> Visitor -> Prop) real coll :
  (forall x v, R v (set_format x v)) -> keeps R (lift_format real coll).
Proof.
  intros H v a v' E. unfold lift_format in E.
  destruct (format v) as [f|c].
  - destruct (real f) as [r f']. injection E as _ <-. apply H.
  - injection E as _ <-. apply H.
Qed.

Lemma keeps_writeHeading (R : Visitor -> Visitor -> Prop) level heading :
  (forall x v, R v (set_format x v)) ->
  keeps R (format_writeHeading level heading).
Proof.
  intros H v a v' E. unfold format_writeHeading in E.
  destruct (format v) as [f|c]; [|discriminate].
  destruct (Formatter.writeHeading level heading f) as [r f'].
  injection E as _ <-. apply H.
Qed.

Lemma keeps_lift_proc (R : Visitor -> Visitor -> Prop) {A} (c : M Proc A) :
  (forall x v, R v (set_proc x v)) -> keeps R (lift_proc c).
Proof.
  intros H v a v' E. unfold lift_proc in E.
  destruct (c (proc v)) as [r p]. injection E as _ <-. apply H.
Qed.

Lemma keeps_console_warn (R : Visitor -> Visitor -> Prop) d :
  (forall x v, R v (set_proc x v)) -> keeps R (console_warn proc set_proc d).
Proof. intros H. apply keeps_modify. intros s. apply H. Qed.

Ltac keeps_structure refl trans :=
  first
    [ apply (keeps_ret _ refl)
    | apply keeps_throw
    | apply keeps_fuel
    | apply (keeps_gets _ refl)
    | apply (keeps_lift_res _ refl)
    | apply (keeps_when _ refl)
    | apply (keeps_forM _ refl trans); intros ? ?
    | apply (keeps_bind _ trans); [|intros ?]
    | match goal with
      | |- keeps _ (match ?x with _ => _ end) => destruct x
      | |- keeps _ (if ?x then _ else _) => destruct x
      end ].

Ltac lang_leaf :=
  first
    [ apply keeps_lift_format; intros; apply lang_frame_format
    | apply keeps_writeHeading; intros; apply lang_frame_format
    | apply keeps_lift_proc; intros; apply lang_frame_proc
    | apply keeps_console_warn; intros; apply lang_frame_proc
    | apply keeps_modify; intros;
      first [ apply lang_frame_format | apply lang_frame_listInfo
            | apply lang_frame_templates | apply lang_frame_proc
            | apply lang_frame_used ] ].

Lemma classify_handler_not_language node lang :
  classify_handler node <> SwitchLanguage lang.
Proof.
  unfold classify_handler.
  destruct (registered _ node (lit "typeof")); [discriminate|].
  destruct (registered _ node (lit "rel")); [discriminate|].
  destruct (property prototype _); discriminate.
Qed.

Lemma classify_language_element node v lang :
  classify node v = SwitchLanguage lang -> Dom.is_element node = true.
Proof.
  destruct node as [name attrs ch|data|data|]; [reflexivity|..];
    unfold classify, switches_language, declares; cbn [Dom.getAttribute];
    (destruct (marked_hidden _ && _); [discriminate|]);
    (destruct (switches_direction _ v); [discriminate|]);
    intros H; apply classify_handler_not_language in H; destruct H.
Qed.

Section LanguageScope.

Variable linewrap : Z -> Z -> LinewrapOpts -> jsstring -> jsstring.
Variable first_child : Node -> option Node.
Variable Polyglossia_lookup : option jsstring -> res (option Poly).
Variable multiple_image_query : Node -> res (list Node * list Node).
Variable ToString : option Json.value -> res jsstring.
Variable cleanMath_array : list Json.value -> M Proc jsstring.

Local Abbreviation vis :=
  (visit linewrap first_child Polyglossia_lookup multiple_image_query
     ToString cleanMath_array).

Section Handlers.

Variable visit : Node -> M Visitor unit.
Hypothesis visit_keeps : forall n, keeps lang_frame (visit n).

Ltac lang_tac :=
  repeat first [ apply visit_keeps | lang_leaf
               | keeps_structure lang_frame_refl lang_frame_trans ].

Lemma visitChildren_lang node : keeps lang_frame (visitChildren visit node).
Proof. unfold visitChildren. lang_tac. Qed.

Lemma collect_lang node f :
  (forall text, keeps lang_frame (f text)) ->
  keeps lang_frame (collect visit node f).
Proof. intros Hf. unfold collect. lang_tac. apply Hf. Qed.

Lemma visitSUP_lang node : keeps lang_frame (visitSUP visit node).
Proof. unfold visitSUP. lang_tac. Qed.

Lemma TYPEOF_math_lang node display :
  keeps lang_frame (TYPEOF_math ToString cleanMath_array node display).
Proof. unfold TYPEOF_math. lang_tac. Qed.

Lemma references_loop_lang refs : forall i,
  keeps lang_frame (references_loop linewrap visit refs i).
Proof.
  induction refs as [|ref refs IH]; intros i; cbn [references_loop].
  - lang_tac.
  - do 3 (apply (keeps_bind _ lang_frame_trans); [lang_tac|intros _]).
    apply IH.
Qed.

Lemma figures_loop_lang images : forall captions,
  keeps lang_frame (figures_loop images captions).
Proof.
  induction images as [|img images IH]; intros captions; cbn [figures_loop].
  - lang_tac.
  - apply (keeps_bind _ lang_frame_trans); [lang_tac|intros _]. apply IH.
Qed.

Lemma visitLANG_lang node :
  keeps lang_frame (visitLANG Polyglossia_lookup visit node).
Proof.
  intros v a v' H. unfold visitLANG in H.
  inv_bind H. inv_leaf Ha. inv_bind H. inv_leaf Ha.
  inv_bind H. unfold lift_res in Ha. injection Ha as Hp <-.
  inv_bind H. inv_leaf Ha.
  destruct a0 as [poly|]; [|discriminate].
  inv_bind H. inv_leaf Ha.
  inv_bind H. apply visit_keeps in Ha. destruct Ha as (_ & _ & H3 & H4).
  inv_bind H. inv_leaf Ha. inv_leaf H.
  unfold lang_frame. simpl in *. auto.
Qed.

Lemma visitDIR_lang node : keeps lang_frame (visitDIR visit node).
Proof.
  intros v a v' H. unfold visitDIR in H.
  inv_bind H. inv_leaf Ha. inv_bind H. inv_leaf Ha.
  inv_bind H. unfold console_warn in Ha. inv_leaf Ha.
  inv_bind H. inv_leaf Ha.
  inv_bind H. apply visit_keeps in Ha. destruct Ha as (H1 & _ & H3 & H4).
  inv_leaf H.
  unfold lang_frame. simpl in *. auto.
Qed.

Lemma apply_method_lang m node :
  keeps lang_frame
    (apply_method linewrap first_child Polyglossia_lookup
       multiple_image_query ToString cleanMath_array visit m node).
Proof.
  destruct m; cbn [apply_method];
    try apply visit_keeps;
    try apply TYPEOF_math_lang;
    try apply visitLANG_lang;
    try apply visitDIR_lang.
  - apply visitChildren_lang.
  - unfold visitBODY. lang_tac.
  - unfold visitA. lang_tac.
  - unfold visitP. lang_tac.
  - unfold visitSUB. lang_tac.
  - apply visitSUP_lang.
  - unfold visitCENTER. lang_tac.
  - unfold visitBR. lang_tac.
  - unfold visitHn. lang_tac.
  - unfold visitHn. lang_tac.
  - unfold REL_references.
    apply (keeps_bind _ lang_frame_trans); [lang_tac|intros o].
    destruct (o_noRefs o); [lang_tac|].
    apply collect_lang. intros text. apply visitSUP_lang.
  - unfold visitOL. lang_tac.
  - unfold visitLI. lang_tac.
  - unfold visitDL.
    destruct (first_child node); [|lang_tac].
    destruct (dl_scan _ _ _) as [sawDT allMath].
    destruct (allMath && negb sawDT).
    + apply (keeps_forM _ lang_frame_refl lang_frame_trans). intros dd _.
      apply TYPEOF_math_lang.
    + lang_tac.
  - unfold visitDT. lang_tac.
  - unfold visitDD. lang_tac.
  - unfold visitBLOCKQUOTE. lang_tac.
  - unfold REL_referencedBy. lang_tac.
  - unfold TYPEOF_references.
    apply (keeps_bind _ lang_frame_trans); [lang_tac|intros o].
    destruct (o_noRefs o); [lang_tac|]. apply references_loop_lang.
  - unfold visitTABLE. lang_tac.
  - unfold visitFIGURE. lang_tac.
  - unfold TYPEOF_Image, visitFIGURE. lang_tac.
  - unfold visitMultipleImage.
    do 2 (apply (keeps_bind _ lang_frame_trans); [lang_tac|intros ?]).
    apply figures_loop_lang.
  - unfold visitDIV. destruct (isMultipleImageTemplate node); [|lang_tac].
    unfold visitMultipleImage.
    do 2 (apply (keeps_bind _ lang_frame_trans); [lang_tac|intros ?]).
    apply figures_loop_lang.
Qed.

Lemma visit_body_lang node :
  keeps lang_frame
    (visit_body linewrap first_child Polyglossia_lookup
       multiple_image_query ToString cleanMath_array visit node).
Proof.
  unfold visit_body. destruct node as [name attrs ch|data|data|];
    [|lang_tac..].
  set (node := Element name attrs ch).
  destruct (isHidden node); [lang_tac|].
  apply (keeps_bind _ lang_frame_trans); [lang_tac|intros cur].
  destruct (opt_neq _ cur).
  { apply (keeps_bind _ lang_frame_trans); [lang_tac|intros _].
    apply visitLANG_lang. }
  apply (keeps_bind _ lang_frame_trans); [lang_tac|intros curd].
  destruct (opt_neq _ curd); [apply visitDIR_lang|].
  destruct (handler_of node); [apply apply_method_lang|].
  apply visitChildren_lang.
Qed.

End Handlers.

Lemma visit_lang fuel : forall node, keeps lang_frame (vis fuel node).
Proof.
  induction fuel as [|fuel IH]; intros node; cbn [visit].
  - apply keeps_fuel.
  - apply visit_body_lang. exact IH.
Qed.

(** C9: after the visit of a subtree returns, the current language and
    the current directionality of the visitor are what they were
    before it (and so is the language of the contents table); only the
    set of used languages keeps a trace, by growing, and it holds the
    language that the element declared when that differs from the
    current one. *)
Theorem language_switch_scoped (fuel : nat) (node : Node) (v v' : Visitor) :
  vis fuel node v = (Ok tt, v') ->
  currentLanguage v' = currentLanguage v
  /\ currentDirectionality v' = currentDirectionality v
  /\ tocLanguage v' = tocLanguage v
  /\ incl (usedLanguages v) (usedLanguages v')
  /\ (forall lang, classify node v = SwitchLanguage lang ->
                   In lang (usedLanguages v')).
Proof.
  intros H. destruct (visit_lang fuel node v tt v' H) as (H1 & H2 & H3 & H4).
  repeat split; try assumption.
  intros lang Hc.
  pose proof (classify_language_element _ _ _ Hc) as He.
  destruct node as [name attrs ch|data|data|]; try discriminate He.
  destruct fuel as [|fuel]; [discriminate|].
  rewrite visit_by_class, Hc in H. cbn [act] in H.
  inv_bind H. inv_leaf Ha.
  apply (visitLANG_lang (vis fuel) (visit_lang fuel)) in H.
  destruct H as (_ & _ & _ & H). apply H. simpl. apply set_add_in.
Qed.

End LanguageScope.

Lemma language_switch_scoped_witness :
  let node := Element (lit "SPAN") [(lit "lang", lit "ar")] [Text (lit "x")] in
  let v := sample_visitor true false in
  let r := sample_visit 3 node v in
  fst r = Ok tt
  /\ currentLanguage (snd r) = Some (lit "en")
  /\ currentDirectionality (snd r) = Some (lit "ltr")
  /\ In (Some (lit "ar")) (usedLanguages (snd r)).
Proof.
  intros node v r.
  assert (Hf : fst r = Ok tt) by (vm_compute; reflexivity).
  assert (Hr : r = (Ok tt, snd r))
    by (rewrite <- Hf; apply surjective_pairing).
  destruct (language_switch_scoped sample_linewrap sample_first_child
              sample_Polyglossia sample_query sample_ToString
              sample_cleanMath_array 3 node v (snd r) Hr)
    as (H1 & H2 & _ & _ & H5).
  split; [rewrite Hr; reflexivity|].
  split; [rewrite H1; reflexivity|].
  split; [rewrite H2; reflexivity|].
  apply H5. reflexivity.
Defined.

(* ------------------------------------------------------------------ *)
(** ** Visitor: malformed metadata *)

(** The predicate of the multi-image template swallows what its try
    block throws. *)
Lemma isMultipleImageTemplate_catches node e :
  multipleImage_try node = Throw e -> isMultipleImageTemplate node = false.
Proof.
  intros H. unfold isMultipleImageTemplate. rewrite H.
  destruct (Dom.attr_is node _ _); reflexivity.
Qed.

Section Malformed.

Variable linewrap : Z -> Z -> LinewrapOpts -> jsstring -> jsstring.
Variable first_child : Node -> option Node.
Variable Polyglossia_lookup : option jsstring -> res (option Poly).
Variable multiple_image_query : Node -> res (list Node * list Node).
Variable ToString : option Json.value -> res jsstring.
Variable cleanMath_array : list Json.value -> M Proc jsstring.

Local Abbreviation vis :=
  (visit linewrap first_child Polyglossia_lookup multiple_image_query
     ToString cleanMath_array).

(** A DIV marked as a transclusion whose metadata is no JSON is an
    ordinary DIV. *)
Lemma malformed_transclusion_div fuel children v :
  let node := Element (lit "DIV")
                [(lit "typeof", lit "mw:Transclusion"); (lit "data-mw", lit "{")]
                children in
  vis (S fuel) node v
  = (format_lineBreak ;; visitChildren (vis fuel) node ;; format_lineBreak) v.
Proof. intros node. subst node. rewrite visit_by_class. reflexivity. Qed.

(** C2 (the defect): the math handler parses the metadata outside any
    try block, so a math node whose data-mw is no JSON makes [visit]
    throw a SyntaxError, and one whose JSON has no body makes it throw
    a TypeError, whatever the state of the visitor. *)
Theorem math_handler_propagates (fuel : nat) (v : Visitor) :
  vis (S fuel)
    (Element (lit "SPAN")
       [(lit "typeof", lit "mw:Extension/math"); (lit "data-mw", lit "{")] [])
    v = (Throw SyntaxError, v)
  /\ vis (S fuel)
       (Element (lit "SPAN")
          [(lit "typeof", lit "mw:Extension/math"); (lit "data-mw", lit "{}")]
          [])
       v = (Throw TypeError, v).
Proof. split; rewrite visit_by_class; reflexivity. Qed.

End Malformed.

(* ------------------------------------------------------------------ *)
(** ** Visitor: subscripts and superscripts *)

Lemma bind_assoc {St A B C} (c : M St A) (k : A -> M St B) (h : B -> M St C) s :
  bind (bind c k) h s = bind c (fun a => bind (k a) h) s.
Proof.
  unfold bind. destruct (c s) as [[a|e|] s1]; try reflexivity.
Qed.

Lemma bind_ext {St A B} (c : M St A) (k k' : A -> M St B) s :
  (forall a s', c s = (Ok a, s') -> k a s' = k' a s') ->
  bind c k s = bind c k' s.
Proof.
  intros H. unfold bind. destruct (c s) as [[a|e|] s1]; try reflexivity.
  apply H. reflexivity.
Qed.

Lemma bind_ret_r {St A B} (c : M St A) (f : A -> B) (k : B -> M St unit) s :
  bind (bind c (fun a => ret (f a))) k s = bind c (fun a => k (f a)) s.
Proof. rewrite bind_assoc. apply bind_ext. intros a s' _. reflexivity. Qed.

Lemma collect_collected visit node f v :
  collect visit node f v = (text <- collected visit node ;; f text) v.
Proof.
  unfold collect, collected.
  rewrite bind_assoc. apply bind_ext. intros wasFormat s1 _.
  rewrite bind_assoc. apply bind_ext. intros [] s2 _.
  rewrite bind_assoc. apply bind_ext. intros [] s3 _.
  rewrite bind_assoc. apply bind_ext. intros fmt s4 _.
  rewrite bind_assoc. apply bind_ext. intros [] s5 _.
  reflexivity.
Qed.

Lemma collected_flat visit node v text v' :
  collected visit node v = (Ok text, v') -> exists x, text = collapse_space x.
Proof.
  unfold collected. intros H.
  inv_bind H. inv_bind H. inv_bind H. inv_bind H. inv_bind H.
  unfold ret in H. injection H as <- _. eexists. reflexivity.
Qed.

Lemma mem_true c l : mem c l = true <-> In c l.
Proof.
  unfold mem. rewrite existsb_exists. split.
  - intros [x [Hx E]]. apply ceq_true in E. subst. exact Hx.
  - intros H. exists c. split; [exact H|apply ceq_refl].
Qed.

(** Inclusion of character classes, decided by computation. *)
Lemma mem_incl l1 l2 c :
  forallb (fun k => mem k l2) l1 = true -> mem c l1 = true -> mem c l2 = true.
Proof.
  intros H Hc. apply mem_true in Hc. rewrite forallb_forall in H.
  apply H. exact Hc.
Qed.

Lemma flat_text_chars x c :
  In c (collapse_space x) -> c <> 160%N /\ c <> CR /\ c <> LF.
Proof.
  intros H. destruct (collapse_space_chars _ _ H) as [->|[Hs _]].
  - repeat split; discriminate.
  - repeat split; intros ->; discriminate.
Qed.

Lemma textEscape_one_line s :
  Forall (fun c => c <> CR /\ c <> LF) s -> textEscape s = map plain_quote s.
Proof.
  intros H. unfold textEscape. rewrite plain_quotes_map. f_equal.
  assert (Hcr : Forall (fun c => c <> CR) s)
    by (eapply Forall_impl; [|exact H]; intros a [? ?]; assumption).
  assert (Hlf : Forall (fun c => c <> LF) s)
    by (eapply Forall_impl; [|exact H]; intros a [? ?]; assumption).
  clear H. rewrite unix_newlines_id by exact Hcr.
  assert (Hd : no_double_lf s).
  { clear Hcr. induction Hlf as [|c s Hc Hs IH]; [exact I|].
    destruct s as [|d s]; [exact I|]. split; [tauto|exact IH]. }
  rewrite compress_newlines_id by exact Hd.
  rewrite trim_leading_newlines_id
    by (destruct Hlf; simpl; [discriminate|assumption]).
  apply trim_trailing_newline_id.
  clear Hcr Hd. induction Hlf as [|c s Hc Hs IH]; [discriminate|].
  destruct s as [|d s]; [exact Hc|exact IH].
Qed.

Lemma transliterate_map m s :
  forallb (fun c => mem c (keys m)) s = true ->
  transliterate m s = map (to_script m) s.
Proof.
  unfold transliterate. induction s as [|c s IH]; [reflexivity|].
  cbn [forallb flat_map map]. intros H. apply andb_true_iff in H.
  destruct H as [Hc Hs]. rewrite (IH Hs). unfold to_script.
  destruct (lookup m c) eqn:E; [reflexivity|]. exfalso.
  clear - Hc E. unfold keys in Hc. induction m as [|[k v] m IHm].
  - discriminate.
  - cbn [map mem existsb fst] in Hc. cbn [lookup] in E.
    destruct (ceq c k); [discriminate|]. apply IHm; assumption.
Qed.

Lemma forallb_agree {A} (f g : A -> bool) l :
  (forall a, In a l -> f a = g a) -> forallb f l = forallb g l.
Proof.
  induction l as [|a l IH]; intros H; [reflexivity|]. cbn [forallb].
  rewrite (H a) by (left; reflexivity). rewrite IH; [reflexivity|].
  intros b Hb. apply H. right. exact Hb.
Qed.

(** On a flattened text, the test of the pattern and the wording of
    the specification choose the same text to emit. *)
Lemma script_choice m safe x :
  forallb (fun k => mem k (keys m)) safe = true ->
  forallb (fun k => mem k (160%N :: safe)) (keys m) = true ->
  (if class_test (keys m) (collapse_space x)
   then transliterate m (collapse_space x)
   else textEscape (collapse_space x))
  = emitted m safe (collapse_space x).
Proof.
  intros H1 H2. set (t := collapse_space x).
  assert (Ht : forall c, In c t -> c <> 160%N /\ c <> CR /\ c <> LF)
    by (intros c; apply flat_text_chars).
  assert (Hall : all_in safe t = forallb (fun c => mem c (keys m)) t).
  { unfold all_in. apply forallb_agree. intros c Hc.
    destruct (mem c safe) eqn:E1.
    - symmetry. eapply mem_incl; eassumption.
    - destruct (mem c (keys m)) eqn:E2; [|reflexivity].
      pose proof (mem_incl _ _ _ H2 E2) as E3.
      cbn [mem existsb] in E3. fold (mem c safe) in E3. rewrite E1 in E3.
      rewrite orb_false_r in E3. apply ceq_true in E3.
      destruct (Ht c Hc) as [Hn _]. congruence. }
  unfold emitted, class_test. rewrite Hall.
  destruct t as [|c t'] eqn:Et; [reflexivity|]. rewrite <- Et in *.
  destruct (forallb (fun c0 => mem c0 (keys m)) t) eqn:E.
  - apply transliterate_map. exact E.
  - apply textEscape_one_line. apply Forall_forall. intros d Hd.
    destruct (Ht d Hd) as (_ & ? & ?). tauto.
Qed.

(** C7 (amended): for every SUB element, and for every SUP element
    that is not skipped as a citation-needed mark (references
    suppressed and class Template-Fact), the flattened inline text is
    emitted character by character through the sub/superscript table
    if and only if every character is in the restricted safe set, and
    else emitted whole as plain text (smart quotes made plain), one
    character for each character: none is lost. *)
Theorem sub_sup_transliteration (visit : Node -> M Visitor unit)
  (node : Node) (v : Visitor) :
  visitSUB visit node v
  = (contents <- collected visit node ;;
     format_write (emitted submap sub_safe contents)) v
  /\ visitSUP visit node v
     = (if o_noRefs (v_options v)
           && Dom.classList_contains node (lit "Template-Fact")
        then (Ok tt, v)
        else (contents <- collected visit node ;;
              format_write (emitted supmap sup_safe contents)) v)
  /\ (forall contents,
        length (emitted submap sub_safe contents) = length contents
        /\ length (emitted supmap sup_safe contents) = length contents).
Proof.
  split; [|split].
  - unfold visitSUB. rewrite collect_collected. apply bind_ext.
    intros contents v' H. apply collected_flat in H. destruct H as [x ->].
    rewrite <- (script_choice submap sub_safe x) by reflexivity.
    unfold subre_test. destruct (class_test _ _); reflexivity.
  - unfold visitSUP. unfold bind at 1, gets at 1.
    destruct (o_noRefs (v_options v) && _); [reflexivity|].
    rewrite collect_collected. apply bind_ext.
    intros contents v' H. apply collected_flat in H. destruct H as [x ->].
    rewrite <- (script_choice supmap sup_safe x) by reflexivity.
    unfold supre_test. destruct (class_test _ _); reflexivity.
  - intros contents. unfold emitted.
    destruct (all_in sub_safe contents), (all_in sup_safe contents);
      rewrite !length_map; split; reflexivity.
Qed.

(** C7 (counterexample): with references suppressed, a SUP of class
    Template-Fact is skipped: its flattened text, which has characters
    outside the safe set, is not emitted at all. *)
Lemma sup_template_fact_skipped :
  let node := Element (lit "SUP") [(lit "class", lit "Template-Fact")]
                [Text (lit "citation needed")] in
  let v := sample_visitor true true in
  fst (collected (sample_visit 2) node v) = Ok (lit "citation needed")
  /\ all_in sup_safe (lit "citation needed") = false
  /\ sample_visit 3 node v = (Ok tt, v).
Proof. repeat split. Qed.

(* ------------------------------------------------------------------ *)
(** ** Visitor: list markers *)

(** C1 (code bug): [visitLI] never numbers an item.  Its test compares
    the list information, an object, with the string OL, which is
    false whatever the type of the list is: in every state of the
    visitor, under an ordered list as under an unordered one, the item
    is indented with the bullet that the list depth selects from the
    cycle [*-+], and the counter of the list is left alone.  A
    top-level ordered list of four items is visited under the type OL
    with its counter at 0, and is written with a hyphen before every
    item, where the markers 1.) 2.) 3.) 4.) were expected; the counter
    is still 0 after each item. *)
Theorem ordered_items_bulleted :
  (forall (linewrap : Z -> Z -> LinewrapOpts -> jsstring -> jsstring)
          (visit : Node -> M Visitor unit) (item : Node) (v : Visitor),
      visitLI linewrap visit item v
      = (format_indent linewrap
           (Some (charAt (lit "*-+") (Z.rem (li_depth (listInfo v)) 3))) ;;
         visitChildren visit item ;;
         format_dedent) v)
  /\ (let item (t : string) := Element (lit "LI") [] [Text (lit t)] in
      let node := Element (lit "OL") []
                    [item "a"%string; item "b"%string; item "c"%string;
                     item "d"%string] in
      let v := sample_visitor true false in
      let inside := set_listInfo (list_scope node (listInfo v)) v in
      let r := sample_visit 4 node v in
      visitOL sample_first_child (sample_visit 3) node v
      = (visitChildren (sample_visit 3) node ;;
         modify (set_listInfo (listInfo v))) inside
      /\ li_type (listInfo inside) = Some (lit "OL")
      /\ li_num (listInfo inside) = Some 0%Z
      /\ fst (sample_visit 3 (item "a"%string) inside) = Ok tt
      /\ li_num (listInfo (snd (sample_visit 3 (item "a"%string) inside)))
         = Some 0%Z
      /\ fst r = Ok tt
      /\ written (snd r)
         = Some (lines ["- a"%string; "- b"%string; "- c"%string;
                        "- d"%string])
      /\ written (snd r)
         <> Some (lines ["1.) a"%string; "2.) b"%string; "3.) c"%string;
                         "4.) d"%string])).
Proof.
  split.
  - intros linewrap visit item v. unfold visitLI.
    unfold bind at 1, gets at 1. unfold strict_equal_object_string.
    unfold bind at 1, ret at 1. reflexivity.
  - intros item node v inside r.
    assert (H : written (snd r)
                = Some (lines ["- a"%string; "- b"%string; "- c"%string;
                               "- d"%string]))
      by (vm_compute; reflexivity).
    split; [reflexivity|]. split; [reflexivity|]. split; [reflexivity|].
    split; [vm_compute; reflexivity|]. split; [vm_compute; reflexivity|].
    split; [vm_compute; reflexivity|]. split; [exact H|].
    rewrite H. vm_compute. discriminate.
Qed.

(* ------------------------------------------------------------------ *)
(** ** Formatter: the indent stack *)

Lemma write_stack k text : preserves (stack_is k) (Formatter.write text).
Proof.
  intros f H. destruct f as [o c tw b out nl np stk st0].
  unfold stack_is, Formatter.write, bind, gets, modify in *. simpl in *.
  destruct (nl || np); [destruct (strip_leading_space text)|]; exact H.
Qed.

Lemma lineBreak_stack k : preserves (stack_is k) Formatter.lineBreak.
Proof.
  intros f H. rewrite lineBreak_eq. unfold stack_is in *.
  destruct (Formatter.newLine f); [exact H|].
  destruct (Formatter.state f); [|exact H]. destruct f; exact H.
Qed.

Lemma paragraphBreak_stack k : preserves (stack_is k) Formatter.paragraphBreak.
Proof.
  intros f H. rewrite paragraphBreak_eq.
  destruct (Formatter.newPara f); [exact H|].
  assert (G : stack_is k (snd (if Formatter.newLine f then (Ok tt, f)
                               else Formatter.lineBreak f))).
  { destruct (Formatter.newLine f); [exact H|apply lineBreak_stack; exact H]. }
  destruct (if Formatter.newLine f then (Ok tt, f) else Formatter.lineBreak f)
    as [[[]|e|] f']; simpl in *; exact G.
Qed.

Lemma writeHeading_stack k level heading :
  preserves (stack_is k) (Formatter.writeHeading level heading).
Proof.
  unfold Formatter.writeHeading.
  apply preserves_bind; [apply paragraphBreak_stack|]. intros _.
  apply preserves_bind; [apply write_stack|]. intros _.
  apply paragraphBreak_stack.
Qed.

Lemma preserves_ok {St A} (I : St -> Prop) (c : M St A) s a s' :
  preserves I c -> I s -> c s = (Ok a, s') -> I s'.
Proof. intros Hc Hs E. specialize (Hc s Hs). rewrite E in Hc. exact Hc. Qed.

Lemma indent_stack linewrap tag f f' :
  Formatter.indent linewrap tag f = (Ok tt, f') ->
  length (Formatter.stateStack f') = S (length (Formatter.stateStack f)).
Proof.
  unfold Formatter.indent. intros H.
  inv_bind H.
  apply (preserves_ok _ _ _ _ _ (lineBreak_stack (Formatter.stateStack f))
           eq_refl) in Ha.
  inv_bind H. inv_leaf Ha0. inv_bind H. inv_leaf Ha0.
  destruct (Formatter.state _) as [st|] eqn:Est; [|discriminate].
  inv_bind H. inv_leaf Ha0. inv_bind H. inv_leaf Ha0.
  assert (G : stack_is (Some st :: Formatter.stateStack f) f').
  { unfold stack_is in Ha.
    destruct tag as [[|c tg]|].
    - unfold ret in H. injection H as <-. unfold stack_is. simpl. congruence.
    - inv_bind H.
      eapply (preserves_ok _ _ _ _ _ (write_stack _ _)); [|exact H].
      eapply (preserves_ok _ _ _ _ _ (write_stack _ _)); [|exact Ha0].
      unfold stack_is. simpl. congruence.
    - unfold ret in H. injection H as <-. unfold stack_is. simpl. congruence. }
  unfold stack_is in G. rewrite G. reflexivity.
Qed.

Lemma dedent_stack f f' :
  Formatter.dedent f = (Ok tt, f') ->
  length (Formatter.stateStack f') = pred (length (Formatter.stateStack f)).
Proof.
  unfold Formatter.dedent. intros H. inv_bind H.
  apply (preserves_ok _ _ _ _ _ (lineBreak_stack (Formatter.stateStack f))
           eq_refl) in Ha.
  inv_leaf H. unfold stack_is in Ha. rewrite <- Ha.
  destruct s as [o c tw b out nl np stk st0]. simpl.
  destruct stk; reflexivity.
Qed.

(* ------------------------------------------------------------------ *)
(** ** Visitor: indent scopes *)

Lemma stack_depth_nonneg v : (0 <= stack_depth v)%Z.
Proof. unfold stack_depth. destruct (format v); lia. Qed.

Lemma stack_depth_coll v : is_real v = false -> stack_depth v = 0%Z.
Proof.
  unfold is_real, stack_depth. destruct (format v); [discriminate|reflexivity].
Qed.

Lemma shift_trans a b u v w : shift a u v -> shift b v w -> shift (a + b) u w.
Proof.
  unfold shift. intros (H1 & H2 & H3) (G1 & G2 & G3).
  rewrite G1, G2, G3, H1, H2, H3. repeat split.
  destruct (is_real u); lia.
Qed.

Lemma balanced_refl v : balanced v v.
Proof. unfold balanced, shift. repeat split. destruct (is_real v); lia. Qed.

Lemma balanced_trans u v w : balanced u v -> balanced v w -> balanced u w.
Proof. intros H G. exact (shift_trans 0 0 u v w H G). Qed.

Lemma balanced_term_refl v : balanced_term v v.
Proof. unfold balanced_term. do 4 (split; [reflexivity|]). auto. Qed.

Lemma balanced_term_trans u v w :
  balanced_term u v -> balanced_term v w -> balanced_term u w.
Proof.
  unfold balanced_term.
  intros (H1 & H2 & H3 & H4 & H5) (G1 & G2 & G3 & G4 & G5).
  split; [congruence|]. split; [congruence|]. split; [congruence|].
  split; [congruence|]. intros Hr Ho. destruct (H5 Hr Ho) as [E1 E2].
  destruct G5 as [F1 F2]; [congruence|exact E2|]. split; [lia|exact F2].
Qed.

Lemma balanced_sub v v' : balanced v v' -> balanced_term v v'.
Proof.
  unfold balanced, shift, balanced_term, open_scope_real, term_scope_open.
  intros (H1 & H2 & H3). rewrite H2. do 4 (split; [auto|]).
  intros Hr Ho. rewrite Hr in H3. split; lia.
Qed.

Lemma balance_refl b v : balance b v v.
Proof. destruct b; [apply balanced_term_refl|apply balanced_refl]. Qed.

Lemma balance_trans b u v w : balance b u v -> balance b v w -> balance b u w.
Proof. destruct b; [apply balanced_term_trans|apply balanced_trans]. Qed.

Lemma balanced_balance b v v' : balanced v v' -> balance b v v'.
Proof. destruct b; [apply balanced_sub|tauto]. Qed.

Lemma balance_after b u v w : balanced u v -> balance b v w -> balance b u w.
Proof.
  intros H G. eapply balance_trans; [apply balanced_balance; exact H|exact G].
Qed.

Lemma balance_before b u v w : balance b u v -> balanced v w -> balance b u w.
Proof.
  intros H G. eapply balance_trans; [exact H|apply balanced_balance; exact G].
Qed.

Lemma lift_format_inv real coll v a v' :
  lift_format real coll v = (Ok a, v') ->
  (exists f f', format v = Real f /\ real f = (Ok a, f')
                /\ v' = set_format (Real f') v)
  \/ (exists c, format v = Coll c /\ v' = set_format (Coll (coll c)) v).
Proof.
  unfold lift_format. destruct (format v) as [f|c] eqn:E.
  - destruct (real f) as [r f'] eqn:Er. intros H. injection H as -> <-.
    left. exists f, f'. auto.
  - intros H. injection H as _ <-. right. exists c. auto.
Qed.

Lemma lift_format_shift real coll k :
  (forall f a f', real f = (Ok a, f') ->
     (Z.of_nat (length (Formatter.stateStack f'))
      = Z.of_nat (length (Formatter.stateStack f)) + k)%Z) ->
  keeps (shift k) (lift_format real coll).
Proof.
  intros Hreal v a v' H. apply lift_format_inv in H.
  unfold shift, is_real, stack_depth.
  destruct H as [(f & f' & Ef & Er & ->)|(c & Ec & ->)]; simpl; rewrite ?Ef, ?Ec.
  - repeat split. eapply Hreal. exact Er.
  - repeat split.
Qed.

Lemma preserved_stack (real : M Formatter.t unit) :
  (forall k, preserves (stack_is k) real) ->
  forall f a f', real f = (Ok a, f') ->
    (Z.of_nat (length (Formatter.stateStack f'))
     = Z.of_nat (length (Formatter.stateStack f)) + 0)%Z.
Proof.
  intros H f a f' E.
  pose proof (preserves_ok _ _ _ _ _ (H (Formatter.stateStack f)) eq_refl E) as G.
  unfold stack_is in G. rewrite G. lia.
Qed.

Lemma format_write_balanced text : keeps balanced (format_write text).
Proof.
  apply lift_format_shift. apply preserved_stack. intros k. apply write_stack.
Qed.

Lemma format_lineBreak_balanced : keeps balanced format_lineBreak.
Proof.
  apply lift_format_shift. apply preserved_stack. intros k. apply lineBreak_stack.
Qed.

Lemma format_paragraphBreak_balanced : keeps balanced format_paragraphBreak.
Proof.
  apply lift_format_shift. apply preserved_stack. intros k.
  apply paragraphBreak_stack.
Qed.

Lemma format_writeHeading_balanced level heading :
  keeps balanced (format_writeHeading level heading).
Proof.
  intros v a v' H. unfold format_writeHeading in H.
  destruct (format v) as [f|c] eqn:Ef; [|discriminate].
  destruct (Formatter.writeHeading level heading f) as [r f'] eqn:Er.
  injection H as -> <-.
  pose proof (preserved_stack _ (fun k => writeHeading_stack k level heading)
                _ _ _ Er) as G.
  unfold balanced, shift, is_real, stack_depth. simpl. rewrite Ef.
  repeat split. exact G.
Qed.

Lemma format_indent_shift linewrap tag :
  keeps (shift 1) (format_indent linewrap tag).
Proof.
  apply lift_format_shift. intros f [] f' E.
  rewrite (indent_stack _ _ _ _ E). lia.
Qed.

Lemma format_dedent_spec v v' :
  format_dedent v = (Ok tt, v') ->
  is_real v' = is_real v /\ listInfo v' = listInfo v
  /\ stack_depth v' = Z.max 0 (stack_depth v - 1).
Proof.
  intros H. apply lift_format_inv in H.
  unfold is_real, stack_depth.
  destruct H as [(f & f' & Ef & Er & ->)|(c & Ec & ->)]; simpl; rewrite ?Ef, ?Ec.
  - repeat split. rewrite (dedent_stack _ _ Er). lia.
  - repeat split.
Qed.

(** After a scope was opened, closing it balances. *)
Lemma dedent_closes u v w :
  shift 1 u v -> format_dedent v = (Ok tt, w) -> balanced u w.
Proof.
  intros (H1 & H2 & H3) H. apply format_dedent_spec in H.
  destruct H as (G1 & G2 & G3). unfold balanced, shift.
  rewrite G1, G2, G3, H1, H2, H3. repeat split.
  pose proof (stack_depth_nonneg u).
  destruct (is_real u) eqn:E; [lia|]. rewrite (stack_depth_coll u E). lia.
Qed.

Lemma is_real_set_listInfo x v : is_real (set_listInfo x v) = is_real v.
Proof. reflexivity. Qed.

Lemma stack_depth_set_listInfo x v :
  stack_depth (set_listInfo x v) = stack_depth v.
Proof. reflexivity. Qed.

Ltac frame_setter :=
  intros; unfold balanced, shift, is_real, stack_depth; simpl;
  repeat split; match goal with |- context [format ?v] => destruct (format v) end;
  lia.

Lemma balanced_set_proc x v : balanced v (set_proc x v).
Proof. frame_setter. Qed.

Lemma balanced_set_templates x v : balanced v (set_templates x v).
Proof. frame_setter. Qed.

Lemma balanced_set_currentLanguage x v : balanced v (set_currentLanguage x v).
Proof. frame_setter. Qed.

Lemma balanced_set_currentDirectionality x v :
  balanced v (set_currentDirectionality x v).
Proof. frame_setter. Qed.

Lemma balanced_set_usedLanguages x v : balanced v (set_usedLanguages x v).
Proof. frame_setter. Qed.

Lemma lift_proc_balanced {A} (c : M Proc A) : keeps balanced (lift_proc c).
Proof.
  intros v a v' E. unfold lift_proc in E.
  destruct (c (proc v)) as [r p]. injection E as _ <-. apply balanced_set_proc.
Qed.

(** The leaves that leave the indent stack alone. *)
Ltac balanced_leaf :=
  first
    [ apply format_write_balanced
    | apply format_lineBreak_balanced
    | apply format_paragraphBreak_balanced
    | apply format_writeHeading_balanced
    | apply lift_proc_balanced
    | apply keeps_modify; intros;
      first [ apply balanced_set_proc | apply balanced_set_templates
            | apply balanced_set_currentLanguage
            | apply balanced_set_currentDirectionality
            | apply balanced_set_usedLanguages ] ].

Ltac balanced_tac :=
  repeat first [ balanced_leaf
               | keeps_structure balanced_refl balanced_trans ].

Lemma TYPEOF_math_balanced ToString cleanMath_array node display :
  keeps balanced (TYPEOF_math ToString cleanMath_array node display).
Proof. unfold TYPEOF_math. balanced_tac. Qed.

Lemma figures_loop_balanced images : forall captions,
  keeps balanced (figures_loop images captions).
Proof.
  induction images as [|img images IH]; intros captions; cbn [figures_loop].
  - balanced_tac.
  - apply (keeps_bind _ balanced_trans); [balanced_tac|intros _]. apply IH.
Qed.

Lemma visitMultipleImage_balanced query node :
  keeps balanced (visitMultipleImage query node).
Proof.
  unfold visitMultipleImage.
  do 2 (apply (keeps_bind _ balanced_trans); [balanced_tac|intros ?]).
  apply figures_loop_balanced.
Qed.

Section Handlers.

Variable linewrap : Z -> Z -> LinewrapOpts -> jsstring -> jsstring.
Variable visit : Node -> M Visitor unit.

Lemma visitChildren_balance b node :
  (forall c, In c (Dom.childNodes node) -> keeps (balance b) (visit c)) ->
  keeps (balance b) (visitChildren visit node).
Proof.
  intros H. unfold visitChildren.
  apply (keeps_forM _ (balance_refl b) (balance_trans b)). exact H.
Qed.

(** The flattening of a subtree leaves the sink and the list
    information as they were. *)
Lemma collected_balanced node :
  (forall c, In c (Dom.childNodes node) -> keeps balanced (visit c)) ->
  keeps balanced (collected visit node).
Proof.
  intros Hch v text v' H. unfold collected in H.
  inv_bind H. inv_leaf Ha. inv_bind H. inv_leaf Ha.
  inv_bind H. apply (visitChildren_balance false node Hch) in Ha.
  inv_bind H. inv_leaf Ha0. inv_bind H. inv_leaf Ha0. inv_leaf H.
  destruct Ha as (_ & H2 & _). simpl in H2.
  unfold balanced, shift, is_real, stack_depth. simpl.
  repeat split; [exact H2|].
  match goal with |- context [format ?x] => destruct (format x) end; lia.
Qed.

Lemma collect_balance b node f :
  (forall c, In c (Dom.childNodes node) -> keeps balanced (visit c)) ->
  (forall text, keeps (balance b) (f text)) ->
  keeps (balance b) (collect visit node f).
Proof.
  intros Hch Hf v a v' H. rewrite collect_collected in H.
  inv_bind H. apply (collected_balanced node Hch) in Ha.
  apply Hf in H. eapply balance_after; eassumption.
Qed.

Lemma visitSUP_balanced node :
  (forall c, In c (Dom.childNodes node) -> keeps balanced (visit c)) ->
  keeps balanced (visitSUP visit node).
Proof.
  intros Hch. unfold visitSUP.
  apply (keeps_bind _ balanced_trans); [balanced_tac|intros o].
  destruct (_ && _); [balanced_tac|].
  apply (collect_balance false); [exact Hch|]. intros text. balanced_tac.
Qed.

Lemma indented_balanced tag node :
  (forall c, In c (Dom.childNodes node) -> keeps balanced (visit c)) ->
  keeps balanced (format_indent linewrap tag ;;
                  visitChildren visit node ;;
                  format_dedent).
Proof.
  intros Hch v a v' H.
  inv_bind H. apply format_indent_shift in Ha.
  inv_bind H. apply (visitChildren_balance false node Hch) in Ha0.
  destruct a. eapply dedent_closes; [|exact H].
  replace 1%Z with (1 + 0)%Z by lia. eapply shift_trans; eassumption.
Qed.

Lemma references_loop_balanced refs : forall i,
  (forall ref g, In ref refs -> In g (Dom.childNodes ref) ->
                 keeps balanced (visit g)) ->
  keeps balanced (references_loop linewrap visit refs i).
Proof.
  induction refs as [|ref refs IH]; intros i H; cbn [references_loop].
  - balanced_tac.
  - intros v a v' E.
    assert (E' : ((format_indent linewrap
                     (Some (textEscape ([91%N] ++ decimal (i + 1) ++ [93%N]))) ;;
                   visitChildren visit ref ;; format_dedent) ;;
                  references_loop linewrap visit refs (i + 1)%N) v = (Ok a, v')).
    { rewrite bind_assoc. rewrite <- E. apply bind_ext. intros [] s1 _.
      rewrite bind_assoc. reflexivity. }
    inv_bind E'.
    apply (indented_balanced _ ref) in E'a;
      [|intros g Hg; apply (H ref g); [left; reflexivity|exact Hg]].
    apply IH in E'; [|intros r g Hr Hg; apply (H r g); [right; exact Hr|exact Hg]].
    eapply balanced_trans; eassumption.
Qed.

Lemma visitOL_balanced first_child node :
  (forall c, In c (Dom.childNodes node) -> keeps balanced (visit c)) ->
  keeps balanced (visitOL first_child visit node).
Proof.
  intros Hch. unfold visitOL. destruct (first_child node); [|balanced_tac].
  intros v a v' H.
  inv_bind H. inv_leaf Ha. inv_bind H. inv_leaf Ha.
  inv_bind H. apply (visitChildren_balance false node Hch) in Ha.
  inv_leaf H. destruct Ha as (H1 & H2 & H3).
  unfold balanced, shift in *. simpl in *.
  repeat split; assumption.
Qed.

Lemma visitLI_balanced node :
  (forall c, In c (Dom.childNodes node) -> keeps balanced (visit c)) ->
  keeps balanced (visitLI linewrap visit node).
Proof.
  intros Hch. unfold visitLI.
  apply (keeps_bind _ balanced_trans); [balanced_tac|intros li].
  apply (keeps_bind _ balanced_trans).
  - unfold strict_equal_object_string. balanced_tac.
  - intros tag. apply indented_balanced. exact Hch.
Qed.

Lemma visitDL_balanced first_child ToString cleanMath_array node :
  (forall c, In c (Dom.childNodes node) -> keeps balanced_term (visit c)) ->
  keeps balanced (visitDL first_child ToString cleanMath_array visit node).
Proof.
  intros Hch. unfold visitDL. destruct (first_child node); [|balanced_tac].
  destruct (dl_scan _ _ _) as [sawDT allMath].
  destruct (allMath && negb sawDT).
  { apply (keeps_forM _ balanced_refl balanced_trans). intros dd _.
    apply TYPEOF_math_balanced. }
  intros v a v' H.
  inv_bind H. inv_leaf Ha. inv_bind H. inv_leaf Ha.
  inv_bind H. apply (visitChildren_balance true node Hch) in Ha.
  inv_bind H. inv_leaf Ha0. inv_bind H. inv_leaf H.
  destruct Ha as (H1 & _ & _ & _ & H5).
  unfold open_scope_real, term_scope_open in H5.
  rewrite ?is_real_set_listInfo, ?stack_depth_set_listInfo in *.
  cbn [listInfo set_listInfo li_sawDT] in H5.
  pose proof (stack_depth_nonneg v) as Hnn.
  assert (G : is_real s1 = is_real v /\ stack_depth s1 = stack_depth v).
  { unfold when in Ha0. destruct (li_sawDT (listInfo s0)) eqn:Esaw.
    - destruct a2. apply format_dedent_spec in Ha0.
      destruct Ha0 as (G1 & G2 & G3). split; [congruence|].
      destruct (is_real v) eqn:Er.
      + destruct (H5 eq_refl) as [E _]; lia.
      + rewrite G3, (stack_depth_coll s0), (stack_depth_coll v) by congruence.
        lia.
    - inv_leaf Ha0. split; [exact H1|].
      destruct (is_real v) eqn:Er.
      + destruct (H5 eq_refl) as [E _]; lia.
      + rewrite (stack_depth_coll s0), (stack_depth_coll v) by congruence.
        lia. }
  destruct G as [G1 G2]. unfold balanced, shift.
  rewrite is_real_set_listInfo, stack_depth_set_listInfo, G1, G2.
  repeat split. destruct (is_real v); lia.
Qed.

Ltac units := repeat match goal with x : unit |- _ => destruct x end.

Lemma mark_sawDT_inv b v a v' :
  mark_sawDT b v = (Ok a, v') ->
  v' = set_listInfo (set_sawDT b (listInfo v)) v.
Proof. intros H. apply modify_inv in H. exact H. Qed.

(** A term closes the scope of the term before it and opens its own. *)
Lemma visitDT_balanced_term node :
  (forall c, In c (Dom.childNodes node) -> keeps balanced (visit c)) ->
  keeps balanced_term (visitDT linewrap visit node).
Proof.
  intros Hch v a v' H. unfold visitDT in H.
  inv_bind H. inv_leaf Ha. inv_bind H.
  rewrite collect_collected in H. inv_bind H.
  apply (collected_balanced node Hch) in Ha0. destruct Ha0 as (B1 & B2 & B3).
  inv_bind H. apply format_indent_shift in Ha0. destruct Ha0 as (C1 & C2 & C3).
  apply mark_sawDT_inv in H. subst v'.
  assert (GA : is_real s = is_real v
               /\ li_type (listInfo s) = li_type (listInfo v)
               /\ li_num (listInfo s) = li_num (listInfo v)
               /\ li_depth (listInfo s) = li_depth (listInfo v)
               /\ (is_real v = true -> open_scope_real v ->
                   stack_depth s = (stack_depth v - term_scope_open v)%Z)).
  { unfold when in Ha. unfold open_scope_real, term_scope_open.
    destruct (li_sawDT (listInfo v)) eqn:Esaw.
    - inv_bind Ha. units. apply format_dedent_spec in Haa.
      destruct Haa as (G1 & G2 & G3). apply mark_sawDT_inv in Ha. subst s.
      rewrite is_real_set_listInfo, stack_depth_set_listInfo.
      cbn [listInfo set_listInfo set_sawDT li_type li_num li_depth].
      rewrite G1, G2, G3. repeat split. intros _ Ho. lia.
    - inv_leaf Ha. repeat split. intros _ _. lia. }
  destruct GA as (A1 & A2 & A3 & A4 & A5).
  unfold balanced_term.
  rewrite is_real_set_listInfo.
  cbn [listInfo set_listInfo set_sawDT li_type li_num li_depth].
  rewrite C1, C2, B1, B2, A1, A2, A3, A4. do 4 (split; [reflexivity|]).
  intros Hr Ho. specialize (A5 Hr Ho).
  unfold open_scope_real, term_scope_open.
  rewrite stack_depth_set_listInfo.
  cbn [listInfo set_listInfo set_sawDT li_sawDT].
  rewrite C3, B1, B3, A1, Hr, A5.
  unfold open_scope_real, term_scope_open in *.
  pose proof (stack_depth_nonneg v).
  destruct (li_sawDT (listInfo v)); lia.
Qed.

(** A definition opens a scope when no term did. *)
Lemma visitDD_balanced_term node :
  (forall c, In c (Dom.childNodes node) -> keeps balanced (visit c)) ->
  keeps balanced_term (visitDD linewrap visit node).
Proof.
  intros Hch v a v' H. unfold visitDD in H.
  inv_bind H. inv_leaf Ha. inv_bind H.
  apply (visitChildren_balance false node Hch) in H.
  eapply (balance_before true); [|exact H].
  unfold when in Ha. unfold balance.
  destruct (li_sawDT (listInfo v)) eqn:Esaw; cbn [negb] in Ha.
  - inv_leaf Ha. apply balanced_term_refl.
  - inv_bind Ha. apply format_indent_shift in Haa. destruct Haa as (C1 & C2 & C3).
    apply mark_sawDT_inv in Ha. subst s.
    unfold balanced_term. rewrite is_real_set_listInfo.
    cbn [listInfo set_listInfo set_sawDT li_type li_num li_depth].
    rewrite C1, C2. do 4 (split; [reflexivity|]).
    intros Hr Ho. unfold open_scope_real, term_scope_open in *.
    rewrite stack_depth_set_listInfo.
    cbn [listInfo set_listInfo set_sawDT li_sawDT].
    rewrite Esaw in *. rewrite C3, Hr. lia.
Qed.

End Handlers.

Lemma scoped_element b name attrs ch :
  let node := Element name attrs ch in
  let h := handler_of node in
  scoped b node = true ->
  (is_term_or_definition h = true -> b = true)
  /\ (is_footnote_list h = false ->
      forall c, In c ch -> scoped (is_description_list h) c = true)
  /\ (is_footnote_list h = true ->
      forall c g, In c ch -> In g (Dom.childNodes c) -> scoped false g = true).
Proof.
  intros node h Hs.
  change (scoped b node)
    with ((if is_term_or_definition h then b else true)
          && (if is_footnote_list h then
                forallb (fun c => match c with
                                  | Element _ _ gs => forallb (scoped false) gs
                                  | _ => true
                                  end) ch
              else forallb (scoped (is_description_list h)) ch)) in Hs.
  apply andb_true_iff in Hs. destruct Hs as [H1 H2].
  split; [|split].
  - intros Ht. rewrite Ht in H1. exact H1.
  - intros Hf. rewrite Hf in H2. rewrite forallb_forall in H2. exact H2.
  - intros Hf c g Hc Hg. rewrite Hf in H2. rewrite forallb_forall in H2.
    specialize (H2 c Hc). destruct c as [n' a' gs|d|d|]; try destruct Hg.
    rewrite forallb_forall in H2. apply H2. exact Hg.
Qed.

Ltac weaken_to b := apply (keeps_weaken _ _ _ (balanced_balance b)).

Ltac balanced_with Hc :=
  repeat first
    [ apply (visitChildren_balance _ false); exact Hc
    | apply (collect_balance _ false); [exact Hc|intros ?]
    | balanced_leaf
    | keeps_structure balanced_refl balanced_trans ].

Ltac balance_switch b Hv :=
  repeat first
    [ exact Hv
    | apply (keeps_weaken _ _ _ (balanced_balance b)); balanced_leaf
    | apply (keeps_weaken _ _ _ (balanced_balance b));
      apply keeps_console_warn; intros; apply balanced_set_proc
    | keeps_structure (balance_refl b) (balance_trans b) ].

Lemma visitLANG_balance b lookup visit node :
  keeps (balance b) (visit node) ->
  keeps (balance b) (visitLANG lookup visit node).
Proof. intros Hv. unfold visitLANG. balance_switch b Hv. Qed.

Lemma visitDIR_balance b visit node :
  keeps (balance b) (visit node) ->
  keeps (balance b) (visitDIR visit node).
Proof. intros Hv. unfold visitDIR. balance_switch b Hv. Qed.

Section Balance.

Variable linewrap : Z -> Z -> LinewrapOpts -> jsstring -> jsstring.
Variable first_child : Node -> option Node.
Variable Polyglossia_lookup : option jsstring -> res (option Poly).
Variable multiple_image_query : Node -> res (list Node * list Node).
Variable ToString : option Json.value -> res jsstring.
Variable cleanMath_array : list Json.value -> M Proc jsstring.

Local Abbreviation vis :=
  (visit linewrap first_child Polyglossia_lookup multiple_image_query
     ToString cleanMath_array).

Lemma visit_balance fuel : forall n b,
  scoped b n = true -> keeps (balance b) (vis fuel n).
Proof.
  induction fuel as [|fuel IH]; intros n b Hs; cbn [visit];
    [apply keeps_fuel|].
  unfold visit_body. destruct n as [name attrs ch|data|data|];
    [|balance_switch b I..].
  set (node := Element name attrs ch) in *.
  destruct (isHidden node); [apply (keeps_ret _ (balance_refl b))|].
  apply (keeps_bind _ (balance_trans b));
    [apply (keeps_gets _ (balance_refl b))|intros cur].
  destruct (opt_neq _ cur).
  { apply (keeps_bind _ (balance_trans b)).
    - apply (keeps_weaken _ _ _ (balanced_balance b)). balanced_leaf.
    - intros _. apply visitLANG_balance. apply IH. exact Hs. }
  apply (keeps_bind _ (balance_trans b));
    [apply (keeps_gets _ (balance_refl b))|intros curd].
  destruct (opt_neq _ curd).
  { apply visitDIR_balance. apply IH. exact Hs. }
  destruct (scoped_element b name attrs ch Hs) as (Hterm & Hch & Hgr).
  fold node in Hterm, Hch, Hgr.
  assert (Htext : forall d, keeps balanced (vis fuel (Text d)))
    by (intros d; apply (IH (Text d) false); reflexivity).
  destruct (handler_of node) as [m|] eqn:Eh.
  2:{ apply (keeps_weaken _ _ _ (balanced_balance b)).
      apply (visitChildren_balance _ false). intros c Hc.
      apply (IH c false). apply (Hch eq_refl c Hc). }
  destruct m; cbn [apply_method is_term_or_definition is_footnote_list
                     is_description_list] in *;
    try (assert (Hc : forall c, In c (Dom.childNodes node) ->
                        keeps balanced (vis fuel c))
           by (intros c Hin; apply (IH c false); apply (Hch eq_refl c Hin))).
  - (* visit *) apply IH. exact Hs.
  - weaken_to b. (* visitChildren *) balanced_with Hc.
  - weaken_to b. unfold visitBODY. balanced_with Hc.
  - weaken_to b. unfold visitA. balanced_with Hc.
  - weaken_to b. unfold visitP. balanced_with Hc.
  - weaken_to b. unfold visitSUB. balanced_with Hc.
  - weaken_to b. apply visitSUP_balanced. exact Hc.
  - weaken_to b. unfold visitCENTER. balanced_with Hc.
  - weaken_to b. unfold visitBR. balanced_with Hc.
  - weaken_to b. unfold visitHn. balanced_with Hc.
  - weaken_to b. unfold visitHn. balanced_with Hc.
  - weaken_to b. (* REL=dc:references *)
    unfold REL_references.
    apply (keeps_bind _ balanced_trans); [balanced_tac|intros o].
    destruct (o_noRefs o); [balanced_tac|].
    apply (collect_balance _ false); [exact Hc|]. intros text.
    destruct (is_ref_marker text); apply visitSUP_balanced; [|exact Hc].
    intros c [<-|[]]. apply Htext.
  - weaken_to b. apply visitOL_balanced. exact Hc.
  - weaken_to b. apply visitLI_balanced. exact Hc.
  - (* visitDL *)
    apply (keeps_weaken _ _ _ (balanced_balance b)).
    apply visitDL_balanced. intros c Hin.
    apply (IH c true). apply (Hch eq_refl c Hin).
  - (* visitDT *)
    rewrite (Hterm eq_refl). apply visitDT_balanced_term.
    intros c Hin. apply (IH c false). apply (Hch eq_refl c Hin).
  - (* visitDD *)
    rewrite (Hterm eq_refl). apply visitDD_balanced_term.
    intros c Hin. apply (IH c false). apply (Hch eq_refl c Hin).
  - weaken_to b. unfold visitBLOCKQUOTE. apply indented_balanced. exact Hc.
  - weaken_to b. unfold REL_referencedBy. balanced_tac.
  - (* TYPEOF=mw:Extension/references *)
    apply (keeps_weaken _ _ _ (balanced_balance b)).
    unfold TYPEOF_references.
    apply (keeps_bind _ balanced_trans); [balanced_tac|intros o].
    destruct (o_noRefs o); [balanced_tac|].
    apply references_loop_balanced. intros ref g Href Hg.
    apply (IH g false). apply (Hgr eq_refl ref g Href Hg).
  - weaken_to b. unfold visitTABLE. balanced_tac.
  - weaken_to b. unfold visitFIGURE. balanced_tac.
  - weaken_to b. apply TYPEOF_math_balanced.
  - (* visitLANG= *) apply visitLANG_balance. apply IH. exact Hs.
  - (* visitDIR= *) apply visitDIR_balance. apply IH. exact Hs.
  - weaken_to b. unfold TYPEOF_Image, visitFIGURE. balanced_tac.
  - weaken_to b. apply visitMultipleImage_balanced.
  - weaken_to b. unfold visitDIV. destruct (isMultipleImageTemplate node);
      [apply visitMultipleImage_balanced|balanced_with Hc].
Qed.

(** C4 (amended): for every document node in which each element that
    goes to the term (DT) or definition (DD) handler is visited as a
    direct child by the description-list handler, and which is not
    itself such a term or definition, the indent stack of the
    formatter is as deep after [visit] returns as before (and the list
    information is the same); a term or definition under its list
    leaves exactly one scope open, its own, which the next term or the
    end of the list closes. *)
Theorem indent_stack_balanced (fuel : nat) (node : Node) (v v' : Visitor) :
  vis fuel node v = (Ok tt, v') ->
  (scoped false node = true ->
   stack_depth v' = stack_depth v /\ listInfo v' = listInfo v)
  /\ (scoped true node = true -> is_real v = true -> open_scope_real v ->
      (stack_depth v' - term_scope_open v'
       = stack_depth v - term_scope_open v)%Z).
Proof.
  intros H. split.
  - intros Hs. destruct (visit_balance fuel node false Hs v tt v' H)
      as (H1 & H2 & H3).
    split; [|exact H2]. rewrite H3. destruct (is_real v); lia.
  - intros Hs Hr Ho. destruct (visit_balance fuel node true Hs v tt v' H)
      as (_ & _ & _ & _ & H5).
    apply H5; assumption.
Qed.

End Balance.

Lemma indent_stack_balanced_witness :
  let dt := Element (lit "DT") [] [Text (lit "term")] in
  let node :=
    Element (lit "DL") []
      [dt;
       Element (lit "DD") [] [Text (lit "definition")];
       Element (lit "DD") [] [Element (lit "UL") []
                                [Element (lit "LI") [] [Text (lit "item")]]]] in
  let v := sample_visitor true false in
  let v1 := set_listInfo (list_scope node (listInfo v)) v in
  let r := sample_visit 6 node v in
  let r1 := sample_visit 2 dt v1 in
  (fst r = Ok tt /\ stack_depth (snd r) = stack_depth v)
  /\ (fst r1 = Ok tt
      /\ (stack_depth (snd r1) - term_scope_open (snd r1)
          = stack_depth v1 - term_scope_open v1)%Z).
Proof.
  intros dt node v v1 r r1. subst r r1. unfold sample_visit. split.
  - pose proof (indent_stack_balanced sample_linewrap sample_first_child
                  sample_Polyglossia sample_query sample_ToString
                  sample_cleanMath_array 6 node v) as H.
    assert (Hf : fst (visit sample_linewrap sample_first_child
                        sample_Polyglossia sample_query sample_ToString
                        sample_cleanMath_array 6 node v) = Ok tt)
      by (vm_compute; reflexivity).
    destruct (visit sample_linewrap sample_first_child sample_Polyglossia
                sample_query sample_ToString sample_cleanMath_array 6 node v)
      as [o v'].
    cbn [fst snd] in Hf |- *. subst o.
    destruct (H v' eq_refl) as [H1 _].
    split; [reflexivity|]. apply H1. reflexivity.
  - pose proof (indent_stack_balanced sample_linewrap sample_first_child
                  sample_Polyglossia sample_query sample_ToString
                  sample_cleanMath_array 2 dt v1) as H.
    assert (Hf : fst (visit sample_linewrap sample_first_child
                        sample_Polyglossia sample_query sample_ToString
                        sample_cleanMath_array 2 dt v1) = Ok tt)
      by (vm_compute; reflexivity).
    destruct (visit sample_linewrap sample_first_child sample_Polyglossia
                sample_query sample_ToString sample_cleanMath_array 2 dt v1)
      as [o v'].
    cbn [fst snd] in Hf |- *. subst o.
    destruct (H v' eq_refl) as [_ H2].
    split; [reflexivity|]. apply H2.
    + reflexivity.
    + reflexivity.
    + unfold open_scope_real. vm_compute. discriminate.
Defined.

(** C4 (counterexample): the term (DT) of a description list, visited
    in the state that the list handler sets up for its children,
    returns with its scope still open: the indent stack is one deeper
    than before the visit (the list closes it later, so the visit of
    the whole list is balanced).  A definition (DD) outside any
    description list opens a scope that nothing closes. *)
Lemma term_scope_left_open :
  let dt := Element (lit "DT") [] [Text (lit "term")] in
  let dd := Element (lit "DD") [] [Text (lit "x")] in
  let dl := Element (lit "DL") [] [dt; dd] in
  let v := sample_visitor true false in
  let v1 := set_listInfo (list_scope dl (listInfo v)) v in
  let r1 := sample_visit 4 dt v1 in
  let r2 := sample_visit 4 dl v in
  let r3 := sample_visit 4 (Element (lit "DIV") [] [dd]) v in
  (fst r1 = Ok tt /\ stack_depth v1 = 0%Z /\ stack_depth (snd r1) = 1%Z)
  /\ (fst r2 = Ok tt /\ stack_depth (snd r2) = 0%Z)
  /\ (fst r3 = Ok tt /\ stack_depth v = 0%Z /\ stack_depth (snd r3) = 1%Z).
Proof. repeat split; vm_compute; reflexivity. Qed.

(* ------------------------------------------------------------------ *)
(** ** Formatter: the wrapping functions *)

Lemma bind_gets_eq {St A B} (f : St -> A) (k : A -> M St B) s :
  bind (gets f) k s = k (f s) s.
Proof. reflexivity. Qed.

Lemma to_int32_small (x : Z) :
  (0 <= x < 2147483648)%Z -> Formatter.to_int32 x = x.
Proof.
  intros H. unfold Formatter.to_int32.
  rewrite Z.mod_small by lia. lia.
Qed.

Lemma mkspace_repeat fuel : forall n,
  (0 <= n < 4294967296)%Z -> Z.to_nat n <= fuel ->
  Formatter.mkspace fuel n = repeat SP (Z.to_nat n).
Proof.
  induction fuel as [|fuel IH]; intros n Hn Hf.
  - assert (n = 0)%Z by lia. subst n. reflexivity.
  - cbn [Formatter.mkspace]. destruct (n <=? 1)%Z eqn:E1.
    + apply Z.leb_le in E1. destruct (n =? 1)%Z eqn:E2.
      * apply Z.eqb_eq in E2. subst n. reflexivity.
      * apply Z.eqb_neq in E2. assert (n = 0)%Z by lia. subst n. reflexivity.
    + apply Z.leb_gt in E1.
      assert (Hdiv : (2 * (n / 2) <= n < 2 * (n / 2) + 2)%Z).
      { pose proof (Z.div_mod n 2 ltac:(lia)).
        pose proof (Z.mod_pos_bound n 2 ltac:(lia)). lia. }
      rewrite to_int32_small by lia.
      rewrite (IH (n / 2)%Z) by lia.
      rewrite (IH (n - n / 2)%Z) by lia.
      rewrite <- repeat_app. f_equal. lia.
Qed.

Lemma mkspace_nonpositive fuel n : (n <= 0)%Z -> Formatter.mkspace fuel n = [].
Proof.
  intros H. destruct fuel; cbn [Formatter.mkspace];
    (destruct (n <=? 1)%Z eqn:E1; [|apply Z.leb_gt in E1; lia]);
    (destruct (n =? 1)%Z eqn:E2; [apply Z.eqb_eq in E2; lia|reflexivity]).
Qed.

(** X1: without wrapping (option noWrap), the wrapping function that
    [_makeWrap] builds puts before the text exactly as many spaces as
    the indent (the indent less one tab width when the scope has a
    tag, none when that is not positive), and gives the text on one
    line: white space collapsed, trimmed, no line terminator. *)
Theorem makeWrap_noWrap
  (linewrap : Z -> Z -> LinewrapOpts -> jsstring -> jsstring)
  (f : Formatter.t) (indent : Z) (tag : option jsstring) (t : jsstring) :
  Formatter.noWrap (Formatter.options f) = true ->
  let n := if truthy tag then (indent - Formatter.tabWidth f)%Z else indent in
  (n < 4294967296)%Z ->
  Formatter._makeWrap linewrap f indent tag t
  = repeat SP (Z.to_nat n) ++ trim (collapse_space t)
  /\ Forall (fun c => c <> LF) (Formatter._makeWrap linewrap f indent tag t).
Proof.
  intros Hno n Hn.
  assert (E : Formatter._makeWrap linewrap f indent tag t
              = repeat SP (Z.to_nat n) ++ trim (collapse_space t)).
  { unfold Formatter._makeWrap. rewrite Hno. fold n. f_equal.
    destruct (Z.le_gt_cases n 0) as [Hle|Hgt].
    - rewrite mkspace_nonpositive by exact Hle.
      replace (Z.to_nat n) with 0 by lia. reflexivity.
    - apply mkspace_repeat; lia. }
  split; [exact E|]. rewrite E. apply Forall_app. split.
  - apply Forall_forall. intros c Hc. apply repeat_spec in Hc. subst c.
    discriminate.
  - apply Forall_forall. intros c Hc. apply trim_incl in Hc.
    revert c Hc. apply Forall_forall. apply collapse_space_no_lf.
Qed.

Lemma makeWrap_noWrap_witness :
  let f := Formatter.create sample_linewrap
             {| Formatter.column := None; Formatter.tabWidth_opt := None;
                Formatter.noWrap := true |} in
  Formatter._makeWrap sample_linewrap f 6 (Some (lit "*")) (lit " a   b ")
  = lit "    a b".
Proof.
  intros f.
  destruct (makeWrap_noWrap sample_linewrap f 6 (Some (lit "*"))
              (lit " a   b ") eq_refl) as [H _].
  - reflexivity.
  - rewrite H. reflexivity.
Defined.

(* ------------------------------------------------------------------ *)
(** ** Formatter: how the operations compose *)

Lemma write_ok text f :
  exists f', Formatter.write text f = (Ok tt, f')
    /\ Formatter.outStream f' = Formatter.outStream f
    /\ Formatter.state f' = Formatter.state f
    /\ Formatter.stateStack f' = Formatter.stateStack f.
Proof.
  unfold Formatter.write, bind, gets, modify, ret.
  destruct (Formatter.newLine f || Formatter.newPara f).
  - destruct (strip_leading_space text); eexists; (split; [reflexivity|]);
      repeat split.
  - eexists. split; [reflexivity|]. repeat split.
Qed.

Lemma lineBreak_ok f st :
  Formatter.state f = Some st ->
  exists f', Formatter.lineBreak f = (Ok tt, f')
    /\ Formatter.newLine f' = true
    /\ Formatter.state f' = Formatter.state f
    /\ Formatter.stateStack f' = Formatter.stateStack f.
Proof.
  intros Hst. unfold Formatter.lineBreak, bind, gets.
  destruct (Formatter.newLine f) eqn:E.
  - exists f. repeat split; assumption.
  - unfold Formatter._writeWrap, bind, gets. rewrite Hst.
    unfold Formatter._write, modify. cbn.
    eexists. split; [reflexivity|]. repeat split. exact Hst.
Qed.

Lemma paragraphBreak_ok f st :
  Formatter.state f = Some st ->
  exists f', Formatter.paragraphBreak f = (Ok tt, f')
    /\ Formatter.state f' = Formatter.state f
    /\ Formatter.stateStack f' = Formatter.stateStack f.
Proof.
  intros Hst. unfold Formatter.paragraphBreak.
  unfold bind at 1. unfold gets at 1.
  destruct (Formatter.newPara f).
  - exists f. repeat split.
  - unfold bind at 1. unfold gets at 1. unfold bind at 1.
    assert (Hw : exists f1, when (negb (Formatter.newLine f))
                              Formatter.lineBreak f = (Ok tt, f1)
                   /\ Formatter.state f1 = Formatter.state f
                   /\ Formatter.stateStack f1 = Formatter.stateStack f).
    { destruct (Formatter.newLine f); cbn [negb when].
      - exists f. repeat split.
      - destruct (lineBreak_ok f st Hst) as (f1 & H1 & _ & H2 & H3).
        exists f1. repeat split; assumption. }
    destruct Hw as (f1 & -> & H2 & H3).
    unfold Formatter._write, bind, modify. cbn.
    eexists. split; [reflexivity|]. cbn. split; assumption.
Qed.

Lemma flat_ops_ok linewrap ops : forall f st,
  Formatter.state f = Some st ->
  forallb flat_op ops = true ->
  exists f', forM ops (run_op linewrap) f = (Ok tt, f')
    /\ Formatter.state f' = Formatter.state f
    /\ Formatter.stateStack f' = Formatter.stateStack f.
Proof.
  induction ops as [|o ops IH]; intros f st Hst Hops.
  - exists f. repeat split.
  - cbn [forallb] in Hops. apply andb_true_iff in Hops.
    destruct Hops as [Ho Hops]. cbn [forM].
    assert (H1 : exists f1, run_op linewrap o f = (Ok tt, f1)
                   /\ Formatter.state f1 = Formatter.state f
                   /\ Formatter.stateStack f1 = Formatter.stateStack f).
    { destruct o; try discriminate Ho; cbn [run_op].
      - destruct (write_ok text f) as (f1 & H1 & _ & H2 & H3).
        exists f1. repeat split; assumption.
      - destruct (lineBreak_ok f st Hst) as (f1 & H1 & _ & H2 & H3).
        exists f1. repeat split; assumption.
      - apply (paragraphBreak_ok f st Hst). }
    destruct H1 as (f1 & E1 & H2 & H3).
    rewrite (bind_ok _ _ _ _ _ E1).
    destruct (IH f1 st) as (f' & E' & H4 & H5);
      [rewrite H2; exact Hst|exact Hops|].
    exists f'. split; [exact E'|]. split; congruence.
Qed.

Lemma indent_ok linewrap tag f st :
  Formatter.state f = Some st ->
  exists f' st', Formatter.indent linewrap tag f = (Ok tt, f')
    /\ Formatter.state f' = Some st'
    /\ Formatter.stateStack f' = Some st :: Formatter.stateStack f.
Proof.
  intros Hst. unfold Formatter.indent.
  destruct (lineBreak_ok f st Hst) as (f1 & E1 & _ & H2 & H3).
  rewrite (bind_ok _ _ _ _ _ E1).
  unfold bind at 1. unfold modify at 1.
  unfold bind at 1. unfold gets at 1. cbn [Formatter.state Formatter.set_stateStack].
  rewrite H2, Hst.
  unfold bind at 1. unfold gets at 1.
  unfold bind at 1. unfold modify at 1.
  match goal with
  | |- context [Formatter.set_state (Some ?s) ?g] =>
      set (st' := s); set (f2 := Formatter.set_state (Some st') g)
  end.
  assert (Hs2 : Formatter.state f2 = Some st') by reflexivity.
  assert (Hk2 : Formatter.stateStack f2
                = Some st :: Formatter.stateStack f).
  { subst f2. cbn. rewrite H3. reflexivity. }
  clearbody f2.
  destruct tag as [[|c tg]|].
  - exists f2, st'. repeat split; assumption.
  - destruct (write_ok (c :: tg) f2) as (f3 & E3 & _ & H4 & H5).
    rewrite (bind_ok _ _ _ _ _ E3).
    destruct (write_ok [SP] f3) as (f4 & E4 & _ & H6 & H7).
    exists f4, st'. split; [exact E4|]. split; congruence.
  - exists f2, st'. repeat split; assumption.
Qed.

(** X3: an indent scope that is closed again leaves the formatter with
    the indent state and the stack of states it had before, whatever
    text, line breaks and paragraph breaks come in between; and none
    of these calls throws. *)
Theorem indent_dedent_restores
  (linewrap : Z -> Z -> LinewrapOpts -> jsstring -> jsstring)
  (tag : option jsstring) (ops : list FormatterOp)
  (f : Formatter.t) (st : Formatter.State) :
  Formatter.state f = Some st ->
  forallb flat_op ops = true ->
  exists f',
    (Formatter.indent linewrap tag ;;
     forM ops (run_op linewrap) ;;
     Formatter.dedent) f = (Ok tt, f')
    /\ Formatter.state f' = Formatter.state f
    /\ Formatter.stateStack f' = Formatter.stateStack f
    /\ Formatter.newLine f' = true.
Proof.
  intros Hst Hops.
  destruct (indent_ok linewrap tag f st Hst) as (f1 & st1 & E1 & Hs1 & Hk1).
  rewrite (bind_ok _ _ _ _ _ E1).
  destruct (flat_ops_ok linewrap ops f1 st1 Hs1 Hops) as (f2 & E2 & Hs2 & Hk2).
  rewrite (bind_ok _ _ _ _ _ E2).
  unfold Formatter.dedent.
  assert (Hs2' : Formatter.state f2 = Some st1) by congruence.
  destruct (lineBreak_ok f2 st1 Hs2') as (f3 & E3 & Hn3 & Hs3 & Hk3).
  rewrite (bind_ok _ _ _ _ _ E3). unfold modify.
  rewrite Hk3, Hk2, Hk1, Hst. eexists. split; [reflexivity|].
  cbn. repeat split. exact Hn3.
Qed.

Lemma indent_dedent_restores_witness :
  let f := Formatter.create sample_linewrap
             {| Formatter.column := None; Formatter.tabWidth_opt := None;
                Formatter.noWrap := true |} in
  exists f',
    (Formatter.indent sample_linewrap (Some (lit "*")) ;;
     forM [OpWrite (lit "item"); OpParagraphBreak; OpWrite (lit "more")]
          (run_op sample_linewrap) ;;
     Formatter.dedent) f = (Ok tt, f')
    /\ Formatter.stateStack f' = []
    /\ Formatter.outStream f' = lines ["* item"%string; EmptyString; "more"%string].
Proof.
  intros f.
  destruct (indent_dedent_restores sample_linewrap (Some (lit "*"))
              [OpWrite (lit "item"); OpParagraphBreak; OpWrite (lit "more")]
              f _ eq_refl eq_refl) as (f' & E & _ & Hk & _).
  exists f'. split; [exact E|]. split; [exact Hk|].
  apply (f_equal snd) in E. cbn [snd] in E. rewrite <- E.
  vm_compute. reflexivity.
Defined.

Lemma strip_leading_space_idem s :
  strip_leading_space (strip_leading_space s) = strip_leading_space s.
Proof.
  induction s as [|c s IH]; [reflexivity|]. cbn [strip_leading_space].
  destruct (is_space c) eqn:E; [exact IH|].
  cbn [strip_leading_space]. rewrite E. reflexivity.
Qed.

(** X4: a text written at the start of a line comes out at the next
    line break as one wrapped line, its leading white space dropped;
    until then the stream is untouched; and a text of white space only
    leaves no trace at all. *)
Theorem write_then_lineBreak (text : jsstring) (f : Formatter.t)
  (st : Formatter.State) :
  Formatter.newLine f = true ->
  Formatter.buffer f = [] ->
  Formatter.state f = Some st ->
  Formatter.outStream (snd (Formatter.write text f)) = Formatter.outStream f
  /\ match strip_leading_space text with
     | [] => Formatter.write text f = (Ok tt, f)
     | c :: t =>
         exists f',
           (Formatter.write text ;; Formatter.lineBreak) f = (Ok tt, f')
           /\ Formatter.outStream f'
              = Formatter.outStream f ++ Formatter.wrap st (c :: t) ++ [LF]
           /\ Formatter.buffer f' = []
           /\ Formatter.newLine f' = true
           /\ Formatter.newPara f' = false
     end.
Proof.
  intros Hnl Hb Hst. split.
  - destruct (write_ok text f) as (f1 & E & H & _). rewrite E. exact H.
  - unfold Formatter.write at 1. unfold bind at 1. unfold gets at 1.
    unfold bind at 1. unfold gets at 1. rewrite Hnl. cbn [orb].
    destruct (strip_leading_space text) as [|c t] eqn:Es; [reflexivity|].
    unfold bind at 1. unfold Formatter.write.
    unfold bind at 1. unfold gets at 1.
    unfold bind at 1. unfold gets at 1. rewrite Hnl. cbn [orb]. rewrite Es.
    unfold Formatter.lineBreak, Formatter._writeWrap, Formatter._write.
    unfold bind, gets, modify. cbn. rewrite Hst, Hb. cbn.
    eexists. split; [reflexivity|]. cbn. rewrite app_nil_r.
    rewrite <- app_assoc. repeat split.
Qed.

Lemma write_then_lineBreak_witness :
  let f := Formatter.create sample_linewrap
             {| Formatter.column := None; Formatter.tabWidth_opt := None;
                Formatter.noWrap := true |} in
  Formatter.write (lit "   ") f = (Ok tt, f)
  /\ exists f', (Formatter.write (lit "  a  b") ;; Formatter.lineBreak) f
                = (Ok tt, f')
                /\ Formatter.outStream f' = lines ["a b"]%string.
Proof.
  intros f. split.
  - destruct (write_then_lineBreak (lit "   ") f _ eq_refl eq_refl eq_refl)
      as [_ H]. exact H.
  - destruct (write_then_lineBreak (lit "  a  b") f _ eq_refl eq_refl eq_refl)
      as [_ (f' & E & Ho & _)].
    exists f'. split; [exact E|]. rewrite Ho. reflexivity.
Defined.

Lemma write_nonspace text f :
  starts_nonspace text ->
  exists g, Formatter.write text f = (Ok tt, g)
    /\ Formatter.newLine g = false
    /\ Formatter.state g = Formatter.state f.
Proof.
  intros Ht. destruct text as [|c t]; [destruct Ht|]. cbn in Ht.
  unfold Formatter.write, bind, gets, modify.
  destruct (Formatter.newLine f || Formatter.newPara f) eqn:E.
  - cbn [strip_leading_space]. rewrite Ht. eexists.
    split; [reflexivity|]. split; reflexivity.
  - apply orb_false_iff in E. destruct E as [En _]. eexists.
    split; [reflexivity|]. split; [exact En|reflexivity].
Qed.

Lemma dedent_returns f :
  fst (Formatter.dedent f) = Ok tt
  <-> (Formatter.newLine f = true \/ Formatter.state f <> None).
Proof.
  unfold Formatter.dedent, Formatter.lineBreak.
  unfold Formatter._writeWrap, Formatter._write.
  unfold bind, gets, modify, ret, throw.
  destruct (Formatter.newLine f) eqn:En.
  - split; [intros _; left; reflexivity|reflexivity].
  - destruct (Formatter.state f) as [st|] eqn:Est; cbn.
    + split; [intros _; right; discriminate|reflexivity].
    + split; [discriminate|]. intros [H|H]; [discriminate|].
      exfalso. apply H. reflexivity.
Qed.

Lemma dedent_empty_stack f :
  Formatter.stateStack f = [] ->
  (exists g, Formatter.dedent f = (Ok tt, Formatter.set_state None g)
             /\ Formatter.newLine g = true
             /\ Formatter.stateStack g = [])
  \/ (Formatter.dedent f = (Throw TypeError, f)
      /\ Formatter.newLine f = false /\ Formatter.state f = None).
Proof.
  intros Hk. unfold Formatter.dedent, Formatter.lineBreak.
  unfold Formatter._writeWrap, Formatter._write.
  unfold bind, gets, modify, ret, throw.
  destruct (Formatter.newLine f) eqn:En.
  - left. exists f. split; [rewrite Hk; reflexivity|]. split; assumption.
  - destruct (Formatter.state f) as [st|] eqn:Est.
    + left. cbn. rewrite Hk. eexists. split; [reflexivity|].
      split; [reflexivity|cbn; exact Hk].
    + right. repeat split.
Qed.

Lemma lineBreak_stateless f :
  Formatter.newLine f = false -> Formatter.state f = None ->
  Formatter.lineBreak f = (Throw TypeError, f).
Proof.
  intros Hn Hs. unfold Formatter.lineBreak, bind, gets. rewrite Hn.
  unfold Formatter._writeWrap, bind, gets. rewrite Hs. reflexivity.
Qed.

(** X5: on an empty stack of states, [dedent] returns exactly when the
    formatter is at the start of a line or still has an indent state
    (otherwise its line break throws a TypeError), and in both cases
    it leaves the formatter without an indent state; from then on
    every [indent] throws a TypeError, and once a text that does not
    start with white space is written, so do the next line break and
    the next [dedent]. *)
Theorem dedent_unmatched
  (linewrap : Z -> Z -> LinewrapOpts -> jsstring -> jsstring)
  (f : Formatter.t) :
  Formatter.stateStack f = [] ->
  let f1 := snd (Formatter.dedent f) in
  (fst (Formatter.dedent f) = Ok tt
   <-> (Formatter.newLine f = true \/ Formatter.state f <> None))
  /\ Formatter.state f1 = None
  /\ Formatter.stateStack f1 = []
  /\ (forall tag, fst (Formatter.indent linewrap tag f1) = Throw TypeError)
  /\ (forall text, starts_nonspace text ->
        fst ((Formatter.write text ;; Formatter.lineBreak) f1)
        = Throw TypeError
        /\ fst ((Formatter.write text ;; Formatter.dedent) f1)
           = Throw TypeError).
Proof.
  intros Hk f1. split; [apply dedent_returns|].
  assert (H1 : Formatter.state f1 = None
               /\ Formatter.stateStack f1 = []
               /\ (Formatter.newLine f1 = true
                   \/ Formatter.lineBreak f1 = (Throw TypeError, f1))).
  { subst f1.
    destruct (dedent_empty_stack f Hk) as [(g & -> & Hg & Hgk)|(-> & Hn & Hs)].
    - cbn [snd]. split; [reflexivity|]. split; [exact Hgk|]. left. exact Hg.
    - cbn [snd]. split; [exact Hs|]. split; [exact Hk|]. right.
      apply lineBreak_stateless; assumption. }
  destruct H1 as (Hs & Hk1 & Hl). clearbody f1.
  split; [exact Hs|]. split; [exact Hk1|]. split.
  - intros tag. unfold Formatter.indent. destruct Hl as [Hn|Ht].
    + unfold Formatter.lineBreak. unfold bind at 1. unfold bind at 1.
      unfold gets at 1. rewrite Hn. unfold ret.
      unfold bind, modify, gets. cbn. rewrite Hs. reflexivity.
    + rewrite (bind_throw _ _ _ _ _ Ht). reflexivity.
  - intros text Ht.
    destruct (write_nonspace text f1 Ht) as (g & E & Hg & Hgs).
    rewrite !(bind_ok _ _ _ _ _ E).
    assert (Hb : Formatter.lineBreak g = (Throw TypeError, g))
      by (apply lineBreak_stateless; [exact Hg|rewrite Hgs; exact Hs]).
    split; [rewrite Hb; reflexivity|].
    unfold Formatter.dedent. rewrite (bind_throw _ _ _ _ _ Hb). reflexivity.
Qed.

Lemma dedent_unmatched_witness :
  let f := Formatter.create sample_linewrap
             {| Formatter.column := None; Formatter.tabWidth_opt := None;
                Formatter.noWrap := false |} in
  let f1 := snd (Formatter.dedent f) in
  fst (Formatter.dedent f) = Ok tt
  /\ fst ((Formatter.write (lit "x") ;; Formatter.lineBreak) f1)
     = Throw TypeError
  /\ fst ((Formatter.write (lit "x") ;; Formatter.dedent) f1)
     = Throw TypeError.
Proof.
  intros f f1.
  destruct (dedent_unmatched sample_linewrap f eq_refl)
    as (H0 & _ & _ & _ & H).
  split; [apply H0; left; reflexivity|]. apply H. reflexivity.
Defined.

(* ------------------------------------------------------------------ *)
(** ** textEscape: what is kept *)

Lemma unix_newlines_keeps n : forall s,
  length s <= n ->
  without_newlines (unix_newlines s) = without_newlines s
  /\ length (unix_newlines s) <= length s.
Proof.
  induction n as [|n IH]; intros s Hn.
  - destruct s; [split; reflexivity|simpl in Hn; lia].
  - destruct s as [|c s]; [split; reflexivity|].
    cbn [length] in Hn. cbn [unix_newlines].
    destruct (ceq c CR) eqn:Ec.
    + apply ceq_true in Ec. subst c.
      destruct s as [|d s].
      * split; [reflexivity|cbn; lia].
      * destruct (ceq d LF) eqn:Ed.
        -- apply ceq_true in Ed. subst d.
           destruct (IH s) as [H1 H2]; [cbn [length] in Hn; lia|].
           split.
           ++ unfold without_newlines in *. cbn. exact H1.
           ++ cbn [length]. lia.
        -- destruct (IH (d :: s)) as [H1 H2]; [lia|].
           split.
           ++ unfold without_newlines in *.
              change (filter _ (LF :: unix_newlines (d :: s)))
                with (filter (fun c => negb (is_newline c))
                        (unix_newlines (d :: s))).
              change (filter _ (CR :: d :: s))
                with (filter (fun c => negb (is_newline c)) (d :: s)).
              exact H1.
           ++ cbn [length] in *. lia.
    + destruct (IH s) as [H1 H2]; [lia|]. split.
      * unfold without_newlines in *. cbn [filter]. rewrite H1. reflexivity.
      * cbn [length]. lia.
Qed.

Lemma compress_newlines_keeps s :
  without_newlines (compress_newlines s) = without_newlines s
  /\ length (compress_newlines s) <= length s.
Proof.
  induction s as [|c s IH]; [split; reflexivity|].
  destruct IH as [H1 H2].
  change (compress_newlines (c :: s))
    with (match s with
          | d :: _ => if ceq c LF && ceq d LF then compress_newlines s
                      else c :: compress_newlines s
          | [] => [c]
          end).
  destruct s as [|d s]; [split; reflexivity|].
  destruct (ceq c LF && ceq d LF) eqn:E.
  - apply andb_true_iff in E. destruct E as [Ec _]. apply ceq_true in Ec.
    subst c. split; [exact H1|cbn [length] in *; lia].
  - split.
    + unfold without_newlines in *. cbn [filter]. rewrite H1. reflexivity.
    + cbn [length] in *. lia.
Qed.

Lemma trim_leading_newlines_keeps s :
  without_newlines (trim_leading_newlines s) = without_newlines s
  /\ length (trim_leading_newlines s) <= length s.
Proof.
  induction s as [|c s [H1 H2]]; [split; reflexivity|].
  cbn [trim_leading_newlines]. destruct (ceq c LF) eqn:E.
  - apply ceq_true in E. subst c. split; [exact H1|cbn [length]; lia].
  - split; [reflexivity|lia].
Qed.

Lemma trim_trailing_newline_keeps s :
  without_newlines (trim_trailing_newline s) = without_newlines s
  /\ length (trim_trailing_newline s) <= length s.
Proof.
  induction s as [|c s [H1 H2]]; [split; reflexivity|].
  destruct s as [|d s].
  - cbn [trim_trailing_newline]. destruct (ceq c LF) eqn:E.
    + apply ceq_true in E. subst c. split; [reflexivity|cbn; lia].
    + split; [reflexivity|lia].
  - change (trim_trailing_newline (c :: d :: s))
      with (c :: trim_trailing_newline (d :: s)).
    split.
    + unfold without_newlines in *. cbn [filter]. rewrite H1. reflexivity.
    + cbn [length] in *. lia.
Qed.

Lemma is_newline_plain_quote c : is_newline (plain_quote c) = is_newline c.
Proof.
  unfold plain_quote.
  destruct (ceq c LDQUO) eqn:E1; [apply ceq_true in E1; subst; reflexivity|].
  destruct (ceq c RDQUO) eqn:E2; [apply ceq_true in E2; subst; reflexivity|].
  cbn [orb].
  destruct (ceq c LSQUO) eqn:E3; [apply ceq_true in E3; subst; reflexivity|].
  destruct (ceq c RSQUO) eqn:E4; [apply ceq_true in E4; subst; reflexivity|].
  reflexivity.
Qed.

Lemma without_newlines_quotes s :
  without_newlines (map plain_quote s) = map plain_quote (without_newlines s).
Proof.
  unfold without_newlines. induction s as [|c s IH]; [reflexivity|].
  cbn [map filter]. rewrite is_newline_plain_quote.
  destruct (is_newline c); cbn [negb map]; rewrite IH; reflexivity.
Qed.

(** X6: [textEscape] loses nothing but line terminators: without its
    carriage returns and line feeds the output is the input without
    them, character for character, the smart quotes made plain; and
    the output is never longer than the input. *)
Theorem textEscape_keeps_text (s : jsstring) :
  without_newlines (textEscape s) = map plain_quote (without_newlines s)
  /\ length (textEscape s) <= length s.
Proof.
  unfold textEscape. rewrite plain_quotes_map.
  destruct (unix_newlines_keeps (length s) s (le_n _)) as [A1 A2].
  destruct (compress_newlines_keeps (unix_newlines s)) as [B1 B2].
  destruct (trim_leading_newlines_keeps (compress_newlines (unix_newlines s)))
    as [C1 C2].
  destruct (trim_trailing_newline_keeps
              (trim_leading_newlines (compress_newlines (unix_newlines s))))
    as [D1 D2].
  split.
  - rewrite without_newlines_quotes. f_equal. congruence.
  - rewrite length_map. lia.
Qed.

(* ------------------------------------------------------------------ *)
(** ** cleanMath: plain text, subscripts and superscripts *)

(** One step of [subsup_from]. *)
Lemma subsup_from_cons r c s :
  Math.subsup_from r (c :: s)
  = match r with
    | Math.Plain => Math.subsup_from Math.Plain (c :: s)
    | Math.InSub => if mem c Math.sub_class
                    then transliterate submap [c] ++ Math.subsup_from Math.InSub s
                    else Math.subsup_from Math.Plain (c :: s)
    | Math.InSup => if mem c Math.sup_class
                    then transliterate supmap [c] ++ Math.subsup_from Math.InSup s
                    else Math.subsup_from Math.Plain (c :: s)
    end.
Proof. destruct r; reflexivity. Qed.

Lemma subsup_plain_step c s :
  Math.subsup_from Math.Plain (c :: s)
  = match s with
    | d :: _ =>
        if ceq c 95%N && mem d Math.sub_class
        then Math.subsup_from Math.InSub s
        else if ceq c 94%N && mem d Math.sup_class
        then Math.subsup_from Math.InSup s
        else c :: Math.subsup_from Math.Plain s
    | [] => [c]
    end.
Proof. reflexivity. Qed.

Lemma subsup_plain_cons c d s :
  Math.subsup_from Math.Plain (c :: d :: s)
  = if ceq c 95%N && mem d Math.sub_class
    then Math.subsup_from Math.InSub (d :: s)
    else if ceq c 94%N && mem d Math.sup_class
    then Math.subsup_from Math.InSup (d :: s)
    else c :: Math.subsup_from Math.Plain (d :: s).
Proof. rewrite subsup_plain_step. reflexivity. Qed.

Lemma subsup_plain_one c : Math.subsup_from Math.Plain [c] = [c].
Proof. rewrite subsup_plain_step. reflexivity. Qed.

Lemma subsup_plain_prefix pre : forall s,
  no_script_mark pre ->
  Math.subsup_from Math.Plain (pre ++ s) = pre ++ Math.subsup_from Math.Plain s.
Proof.
  induction pre as [|c pre IH]; intros s H; [reflexivity|].
  inversion H as [|? ? [H95 H94] Hpre]; subst.
  apply ceq_false in H95. apply ceq_false in H94.
  rewrite <- !app_comm_cons. rewrite <- (IH s Hpre).
  destruct (pre ++ s) as [|d r].
  - apply subsup_plain_one.
  - rewrite subsup_plain_cons. rewrite H95, H94. reflexivity.
Qed.

Lemma sub_class_keys c :
  mem c Math.sub_class = true -> mem c (keys submap) = true.
Proof. apply mem_incl. vm_compute. reflexivity. Qed.

Lemma sup_class_keys c :
  mem c Math.sup_class = true -> mem c (keys supmap) = true.
Proof. apply mem_incl. vm_compute. reflexivity. Qed.

Lemma transliterate_one m c :
  mem c (keys m) = true -> transliterate m [c] = [to_script m c].
Proof.
  intros H. apply (transliterate_map m [c]). cbn [forallb]. rewrite H.
  reflexivity.
Qed.

Lemma all_in_cons cls c run :
  all_in cls (c :: run) = true -> mem c cls = true /\ all_in cls run = true.
Proof. unfold all_in. cbn [forallb]. apply andb_true_iff. Qed.

Lemma subsup_sub_run run : forall rest,
  all_in Math.sub_class run = true ->
  run_ends Math.sub_class rest ->
  Math.subsup_from Math.InSub (run ++ rest)
  = map (to_script submap) run ++ Math.subsup_from Math.Plain rest.
Proof.
  induction run as [|c run IH]; intros rest Hrun Hrest.
  - destruct rest as [|c r]; [reflexivity|].
    unfold run_ends in Hrest.
    rewrite app_nil_l. rewrite (subsup_from_cons Math.InSub).
    rewrite Hrest. reflexivity.
  - apply all_in_cons in Hrun. destruct Hrun as [Hc Hrun].
    rewrite <- app_comm_cons. rewrite (subsup_from_cons Math.InSub).
    rewrite Hc.
    rewrite (transliterate_one submap c (sub_class_keys c Hc)).
    rewrite (IH rest Hrun Hrest). reflexivity.
Qed.

Lemma subsup_sup_run run : forall rest,
  all_in Math.sup_class run = true ->
  run_ends Math.sup_class rest ->
  Math.subsup_from Math.InSup (run ++ rest)
  = map (to_script supmap) run ++ Math.subsup_from Math.Plain rest.
Proof.
  induction run as [|c run IH]; intros rest Hrun Hrest.
  - destruct rest as [|c r]; [reflexivity|].
    unfold run_ends in Hrest.
    rewrite app_nil_l. rewrite (subsup_from_cons Math.InSup).
    rewrite Hrest. reflexivity.
  - apply all_in_cons in Hrun. destruct Hrun as [Hc Hrun].
    rewrite <- app_comm_cons. rewrite (subsup_from_cons Math.InSup).
    rewrite Hc.
    rewrite (transliterate_one supmap c (sup_class_keys c Hc)).
    rewrite (IH rest Hrun Hrest). reflexivity.
Qed.

Lemma subsup_plain_id s : no_script_mark s -> Math.subsup s = s.
Proof.
  intros Hs. unfold Math.subsup.
  rewrite <- (app_nil_r s) at 1. rewrite subsup_plain_prefix by exact Hs.
  change (Math.subsup_from Math.Plain []) with (@nil char).
  apply app_nil_r.
Qed.

(** X7: [subsup] rewrites an underscore followed by a run of
    subscript-class characters into the run in Unicode subscripts, and
    a caret followed by a run of superscript-class characters into
    superscripts, the mark itself dropped; it goes on after the run,
    and it leaves a text without underscore and caret as it is. *)
Theorem subsup_runs :
  (forall pre run rest : jsstring,
      no_script_mark pre -> run <> [] ->
      all_in Math.sub_class run = true -> run_ends Math.sub_class rest ->
      Math.subsup (pre ++ [95%N] ++ run ++ rest)
      = pre ++ map (to_script submap) run ++ Math.subsup rest)
  /\ (forall pre run rest : jsstring,
      no_script_mark pre -> run <> [] ->
      all_in Math.sup_class run = true -> run_ends Math.sup_class rest ->
      Math.subsup (pre ++ [94%N] ++ run ++ rest)
      = pre ++ map (to_script supmap) run ++ Math.subsup rest)
  /\ (forall s : jsstring, no_script_mark s -> Math.subsup s = s).
Proof.
  split; [|split].
  - intros pre run rest Hpre Hne Hrun Hrest. unfold Math.subsup.
    rewrite subsup_plain_prefix by exact Hpre. f_equal.
    destruct run as [|d run]; [congruence|].
    assert (Hd : mem d Math.sub_class = true).
    { apply all_in_cons in Hrun. tauto. }
    change ([95%N] ++ (d :: run) ++ rest) with (95%N :: d :: run ++ rest).
    rewrite subsup_plain_cons. rewrite Hd.
    change (ceq 95%N 95%N && true) with true. cbv iota.
    apply (subsup_sub_run (d :: run) rest Hrun Hrest).
  - intros pre run rest Hpre Hne Hrun Hrest. unfold Math.subsup.
    rewrite subsup_plain_prefix by exact Hpre. f_equal.
    destruct run as [|d run]; [congruence|].
    assert (Hd : mem d Math.sup_class = true).
    { apply all_in_cons in Hrun. tauto. }
    change ([94%N] ++ (d :: run) ++ rest) with (94%N :: d :: run ++ rest).
    rewrite subsup_plain_cons. rewrite Hd.
    change (ceq 94%N 95%N && mem d Math.sub_class) with false.
    change (ceq 94%N 94%N && true) with true. cbv iota.
    apply (subsup_sup_run (d :: run) rest Hrun Hrest).
  - exact subsup_plain_id.
Qed.

Lemma no_script_mark_test s :
  forallb (fun c => negb (ceq c 95%N || ceq c 94%N)) s = true ->
  no_script_mark s.
Proof.
  intros H. apply Forall_forall. intros c Hc.
  rewrite forallb_forall in H. specialize (H c Hc).
  apply negb_true_iff in H. apply orb_false_iff in H.
  destruct H as [H1 H2]. split; apply ceq_false; assumption.
Qed.

Lemma no_backslash_test s :
  forallb (fun c => negb (ceq c BACKSLASH)) s = true ->
  Forall (fun c => c <> BACKSLASH) s.
Proof.
  intros H. apply Forall_forall. intros c Hc.
  rewrite forallb_forall in H. specialize (H c Hc).
  apply negb_true_iff in H. apply ceq_false. exact H.
Qed.

Lemma subsup_runs_witness :
  Math.subsup (lit "H" ++ [95%N] ++ lit "2" ++ lit "O")
  = lit "H" ++ [0x2082%N] ++ lit "O"
  /\ Math.subsup (lit "x" ++ [94%N] ++ lit "2n+1 " ++ lit "end")
     = lit "x" ++ [0x00B2; 0x207F; 0x207A; 0x00B9]%N ++ lit " end".
Proof.
  destruct subsup_runs as (Hsub & Hsup & Hid). split.
  - rewrite (Hsub (lit "H") (lit "2") (lit "O"));
      [|apply no_script_mark_test; reflexivity|discriminate
       |vm_compute; reflexivity|vm_compute; reflexivity].
    rewrite (Hid (lit "O")) by (apply no_script_mark_test; reflexivity).
    reflexivity.
  - rewrite (Hsup (lit "x") (lit "2n+1 ") (lit "end"));
      [|apply no_script_mark_test; reflexivity|discriminate
       |vm_compute; reflexivity|vm_compute; reflexivity].
    rewrite (Hid (lit "end")) by (apply no_script_mark_test; reflexivity).
    reflexivity.
Defined.

Lemma macro_exec_none math :
  Forall (fun c => c <> BACKSLASH) math -> Math.macro_exec math = None.
Proof.
  intros H. unfold Math.macro_exec.
  destruct (Math.search (ceq BACKSLASH) math) as [i|] eqn:E; [|reflexivity].
  destruct (search_some _ _ _ E) as (Hi & Hp & _).
  apply ceq_true in Hp. exfalso.
  rewrite Forall_forall in H. apply (H (nth i math 0%N)).
  - apply nth_In. exact Hi.
  - symmetry. exact Hp.
Qed.

(** X8: a formula without a backslash goes through [cleanMath] with
    its subscript and superscript runs rewritten and nothing else:
    nothing is warned about and nothing is remembered; without
    underscore and caret either, the formula comes back unchanged. *)
Theorem cleanMath_plain (fuel : nat) (math : jsstring) (p : Proc) :
  Forall (fun c => c <> BACKSLASH) math ->
  Math.cleanMath (S fuel) math p = (Ok (Math.subsup math), p)
  /\ (no_script_mark math -> Math.cleanMath (S fuel) math p = (Ok math, p)).
Proof.
  intros H.
  assert (E : Math.cleanMath (S fuel) math p = (Ok (Math.subsup math), p)).
  { unfold Math.cleanMath. cbn [Math.cleanMath_loop].
    rewrite (macro_exec_none math H). reflexivity. }
  split; [exact E|]. intros Hs. rewrite E.
  rewrite (subsup_plain_id math Hs). reflexivity.
Qed.

Lemma cleanMath_plain_witness :
  Math.cleanMath 1 (lit "a+b=c") fresh_proc = (Ok (lit "a+b=c"), fresh_proc).
Proof.
  destruct (cleanMath_plain 0 (lit "a+b=c") fresh_proc) as [_ H].
  - apply no_backslash_test. reflexivity.
  - apply H. apply no_script_mark_test. reflexivity.
Defined.

(* ------------------------------------------------------------------ *)
(** ** cleanMath: unknown names, tables *)

Lemma existsb_snoc {A} (p : A -> bool) l x :
  existsb p (l ++ [x]) = existsb p l || p x.
Proof. rewrite existsb_app. cbn [existsb]. rewrite orb_false_r. reflexivity. Qed.

(** X9: a name that [funcMap] does not know (other than
    hasOwnProperty, and as long as that name was not met either) is
    written back as a backslash, the name, each argument in braces and
    a space; the console gets one message the first time the name is
    met, and none when it is met again. *)
Theorem unknown_macro_warned_once (fname : jsstring)
  (args args' : list jsstring) (p : Proc) :
  Math.own Math.funcMap fname = None ->
  fname <> lit "hasOwnProperty" ->
  existsb (seq_eqb (lit "hasOwnProperty")) (warned p) = false ->
  exists p1 : Proc,
    Math.render fname args p
    = (Ok ([BACKSLASH] ++ fname ++ concat (map in_braces args) ++ [SP]), p1)
    /\ console p1
       = console p ++ (if existsb (seq_eqb fname) (warned p) then []
                       else [UnknownMathFunction fname])
    /\ Math.render fname args' p1
       = (Ok ([BACKSLASH] ++ fname ++ concat (map in_braces args') ++ [SP]),
          p1).
Proof.
  intros Hown Hne Hhop.
  rewrite (render_unknown fname args p Hown Hhop).
  eexists. split; [reflexivity|].
  assert (Hneq : seq_eqb (lit "hasOwnProperty") fname = false).
  { destruct (seq_eqb (lit "hasOwnProperty") fname) eqn:E; [|reflexivity].
    apply seq_eqb_true in E. congruence. }
  destruct (existsb (seq_eqb fname) (warned p)) eqn:Ew.
  - split; [symmetry; apply app_nil_r|].
    rewrite (render_unknown fname args' p Hown Hhop). rewrite Ew. reflexivity.
  - split; [reflexivity|].
    rewrite render_unknown.
    + cbn [warned]. rewrite existsb_snoc, seq_eqb_refl, orb_true_r.
      reflexivity.
    + exact Hown.
    + cbn [warned]. rewrite existsb_snoc, Hhop, Hneq. reflexivity.
Qed.

Lemma unknown_macro_warned_once_witness :
  exists p1 : Proc,
    Math.render (lit "foo") [lit "bar"] fresh_proc
    = (Ok (lit "\foo{bar} "), p1)
    /\ console p1 = [UnknownMathFunction (lit "foo")]
    /\ Math.render (lit "foo") [] p1 = (Ok (lit "\foo "), p1).
Proof.
  destruct (unknown_macro_warned_once (lit "foo") [lit "bar"] [] fresh_proc)
    as (p1 & H1 & H2 & H3).
  - reflexivity.
  - discriminate.
  - reflexivity.
  - exists p1. split; [exact H1|]. split; [exact H2|exact H3].
Defined.

Lemma replace_first_amp_prefix a : forall s,
  Forall (fun c => c <> 38%N) a ->
  Math.replace_first_amp (a ++ s) = a ++ Math.replace_first_amp s.
Proof.
  induction a as [|c a IH]; intros s H; [reflexivity|].
  inversion H as [|? ? Hc Ha]; subst. apply ceq_false in Hc.
  cbn [app Math.replace_first_amp]. rewrite Hc. rewrite (IH s Ha).
  reflexivity.
Qed.

Lemma replace_first_bsbs_step c s :
  Math.replace_first_bsbs (c :: s)
  = match s with
    | d :: s' => if ceq c BACKSLASH && ceq d BACKSLASH then LF :: s'
                 else c :: Math.replace_first_bsbs s
    | [] => [c]
    end.
Proof. destruct s; reflexivity. Qed.

Lemma replace_first_bsbs_prefix a : forall s,
  Forall (fun c => c <> BACKSLASH) a ->
  Math.replace_first_bsbs (a ++ s) = a ++ Math.replace_first_bsbs s.
Proof.
  induction a as [|c a IH]; intros s H; [reflexivity|].
  inversion H as [|? ? Hc Ha]; subst. apply ceq_false in Hc.
  rewrite <- !app_comm_cons. rewrite replace_first_bsbs_step.
  rewrite <- (IH s Ha). destruct (a ++ s) as [|d r]; [reflexivity|].
  rewrite Hc. reflexivity.
Qed.

Lemma cell_text_split s :
  cell_text s ->
  Forall (fun c => c <> BACKSLASH) s /\ Forall (fun c => c <> 38%N) s.
Proof.
  intros H. split; (eapply Forall_impl; [|exact H]); intros c [H1 H2];
    assumption.
Qed.

(** X10: [cleanMathTable] turns the first row separator (two
    backslashes) of a table body into a line feed and the first
    ampersand into a space, and no other: what follows them is left as
    it is, with its separators and ampersands; a body with neither is
    unchanged. *)
Theorem cleanMathTable_first_only :
  (forall a b c : jsstring, cell_text a -> cell_text b ->
      Math.cleanMathTable (a ++ [BACKSLASH; BACKSLASH] ++ b ++ [38%N] ++ c)
      = a ++ [LF] ++ b ++ [SP] ++ c)
  /\ (forall a b c : jsstring, cell_text a -> cell_text b ->
      Math.cleanMathTable (a ++ [38%N] ++ b ++ [BACKSLASH; BACKSLASH] ++ c)
      = a ++ [SP] ++ b ++ [LF] ++ c)
  /\ (forall a : jsstring, cell_text a -> Math.cleanMathTable a = a).
Proof.
  unfold Math.cleanMathTable. split; [|split].
  - intros a b c Ha Hb.
    destruct (cell_text_split a Ha) as [Ha1 Ha2].
    destruct (cell_text_split b Hb) as [Hb1 Hb2].
    rewrite (replace_first_bsbs_prefix a _ Ha1).
    change (Math.replace_first_bsbs ([BACKSLASH; BACKSLASH] ++ b ++ [38%N] ++ c))
      with (LF :: b ++ [38%N] ++ c).
    rewrite (replace_first_amp_prefix a _ Ha2).
    change (Math.replace_first_amp (LF :: b ++ [38%N] ++ c))
      with (LF :: Math.replace_first_amp (b ++ [38%N] ++ c)).
    rewrite (replace_first_amp_prefix b _ Hb2). reflexivity.
  - intros a b c Ha Hb.
    destruct (cell_text_split a Ha) as [Ha1 Ha2].
    destruct (cell_text_split b Hb) as [Hb1 Hb2].
    rewrite (replace_first_bsbs_prefix a _ Ha1).
    change ([38%N] ++ b ++ [BACKSLASH; BACKSLASH] ++ c)
      with (38%N :: (b ++ [BACKSLASH; BACKSLASH] ++ c)).
    rewrite replace_first_bsbs_step.
    destruct (b ++ [BACKSLASH; BACKSLASH] ++ c) as [|d r] eqn:E.
    + destruct b; discriminate E.
    + change (ceq 38%N BACKSLASH && ceq d BACKSLASH) with false. cbv iota.
      rewrite <- E. rewrite (replace_first_bsbs_prefix b _ Hb1).
      change (Math.replace_first_bsbs ([BACKSLASH; BACKSLASH] ++ c))
        with (LF :: c).
      rewrite (replace_first_amp_prefix a _ Ha2). reflexivity.
  - intros a Ha. destruct (cell_text_split a Ha) as [Ha1 Ha2].
    rewrite <- (app_nil_r a) at 1.
    rewrite (replace_first_bsbs_prefix a _ Ha1).
    rewrite (replace_first_amp_prefix a _ Ha2).
    change (Math.replace_first_amp (Math.replace_first_bsbs []))
      with (@nil char).
    apply app_nil_r.
Qed.

Lemma cell_text_test s :
  forallb (fun c => negb (ceq c BACKSLASH || ceq c 38%N)) s = true ->
  cell_text s.
Proof.
  intros H. apply Forall_forall. intros c Hc.
  rewrite forallb_forall in H. specialize (H c Hc).
  apply negb_true_iff in H. apply orb_false_iff in H.
  destruct H as [H1 H2]. split; apply ceq_false; assumption.
Qed.

Lemma cleanMathTable_first_only_witness :
  Math.cleanMathTable
    (lit "a" ++ [BACKSLASH; BACKSLASH] ++ lit "b" ++ [38%N] ++ lit "c&d\\e")
  = lit "a" ++ [LF] ++ lit "b" ++ [SP] ++ lit "c&d\\e".
Proof.
  destruct cleanMathTable_first_only as (H & _ & _).
  apply H; apply cell_text_test; reflexivity.
Defined.

(* ------------------------------------------------------------------ *)
(** ** cleanMath: the argument of a macro *)

Lemma close_pos_skip n : forall depth s,
  Forall (fun c => Math.is_delim c = false) (firstn n s) ->
  close_pos depth s
  = option_map (fun k => n + k) (close_pos depth (skipn n s)).
Proof.
  induction n as [|n IH]; intros depth s H.
  - cbn [skipn]. destruct (close_pos depth s); reflexivity.
  - destruct s as [|c s]; [reflexivity|].
    cbn [firstn] in H. inversion H as [|? ? Hc Hs]; subst.
    cbn [skipn close_pos]. rewrite Hc.
    destruct (Math.is_open c) eqn:Eo;
      [apply is_open_delim in Eo; congruence|].
    rewrite (IH depth s Hs).
    destruct (close_pos depth (skipn n s)); reflexivity.
Qed.

Lemma close_pos_none depth s :
  Forall (fun c => Math.is_delim c = false) s -> close_pos depth s = None.
Proof.
  revert depth. induction s as [|c s IH]; intros depth H; [reflexivity|].
  inversion H as [|? ? Hc Hs]; subst. cbn [close_pos]. rewrite Hc.
  destruct (Math.is_open c) eqn:Eo;
    [apply is_open_delim in Eo; congruence|].
  rewrite (IH depth Hs). reflexivity.
Qed.

Lemma find_args_closed fuel : forall fname math depth last args p n,
  length math - last < fuel ->
  close_pos (S depth) (skipn last math) = Some n ->
  Math.chained_exec (skipn (S (last + n)) math) = None ->
  Math.find_args fuel fname math (Z.of_nat (S depth)) last args p
  = (Ok (args ++ [firstn (last + n) math], skipn (S (last + n)) math), p).
Proof.
  induction fuel as [|fuel IH]; intros fname math depth last args p n Hm Hc Hch;
    [lia|].
  cbn [Math.find_args]. unfold slice_from, slice_to.
  destruct (Math.search Math.is_delim (skipn last math)) as [next|] eqn:Es.
  - destruct (search_some _ _ _ Es) as [Hn [Hd Hpre]].
    rewrite length_skipn in Hn.
    rewrite (close_pos_skip next _ _ Hpre) in Hc.
    rewrite skipn_skipn in Hc.
    replace (next + last) with (last + next) in Hc by lia.
    rewrite (skipn_cons_nth math (last + next) 0%N) in Hc by lia.
    cbn [close_pos] in Hc. rewrite <- nth_skipn_add in Hd.
    destruct (Math.is_open (nth (last + next) math 0%N)) eqn:Eo.
    + destruct (close_pos (S (S depth)) (skipn (S (last + next)) math))
        as [n'|] eqn:E'; [|discriminate Hc].
      cbn [option_map] in Hc. injection Hc as <-.
      replace (Z.of_nat (S depth) + 1)%Z with (Z.of_nat (S (S depth))) by lia.
      replace (last + (next + S n')) with (last + next + 1 + n') in * by lia.
      apply IH; [lia| |exact Hch].
      replace (last + next + 1) with (S (last + next)) by lia. exact E'.
    + rewrite Hd in Hc. destruct depth as [|depth].
      * cbn [option_map] in Hc. injection Hc as <-.
        replace (last + (next + 0)) with (last + next) in * by lia.
        change (Z.of_nat 1 - 1 =? 0)%Z with true. cbv iota.
        replace (last + next + 1) with (S (last + next)) by lia.
        rewrite Hch. reflexivity.
      * destruct (close_pos (S depth) (skipn (S (last + next)) math))
          as [n'|] eqn:E'; [|discriminate Hc].
        cbn [option_map] in Hc. injection Hc as <-.
        replace (Z.of_nat (S (S depth)) - 1)%Z with (Z.of_nat (S depth)) by lia.
        replace (Z.of_nat (S depth) =? 0)%Z with false
          by (symmetry; apply Z.eqb_neq; lia).
        replace (last + (next + S n')) with (last + next + 1 + n') in * by lia.
        apply IH; [lia| |exact Hch].
        replace (last + next + 1) with (S (last + next)) by lia. exact E'.
  - apply search_none in Es. rewrite (close_pos_none _ _ Es) in Hc.
    discriminate Hc.
Qed.

(** X17: the argument of a macro runs up to the delimiter that closes
    the one the macro opened, nested braces and brackets counted (and
    not told apart); it is taken whole, the text after the closing
    delimiter is what is scanned next, and nothing is warned about. *)
Theorem find_args_matching (fname math : jsstring) (n : nat) (p : Proc) :
  close_pos 1 math = Some n ->
  Math.chained_exec (skipn (S n) math) = None ->
  Math.find_args (S (length math)) fname math 1%Z 0 [] p
  = (Ok ([firstn n math], skipn (S n) math), p).
Proof.
  intros Hc Hch.
  apply (find_args_closed (S (length math)) fname math 0 0 [] p n);
    [lia|exact Hc|exact Hch].
Qed.

Lemma find_args_matching_witness :
  Math.find_args 16 (lit "sqrt") (lit "a{b[c}d]e} rest") 1%Z 0 [] fresh_proc
  = (Ok ([lit "a{b[c}d]e"], lit " rest"), fresh_proc).
Proof.
  change 16 with (S (length (lit "a{b[c}d]e} rest"))).
  apply (find_args_matching (lit "sqrt") (lit "a{b[c}d]e} rest") 9);
    reflexivity.
Defined.

(* ------------------------------------------------------------------ *)
(** ** Visitor: collected text *)

Lemma collapse_space_step c s :
  collapse_space (c :: s)
  = if is_space c then
      match s with
      | d :: _ => if is_space d then collapse_space s
                  else SP :: collapse_space s
      | [] => [SP]
      end
    else c :: collapse_space s.
Proof. destruct s; reflexivity. Qed.

Lemma collapse_space_head d s :
  is_space d = false ->
  collapse_space (d :: s) = d :: collapse_space s.
Proof. intros H. rewrite collapse_space_step, H. reflexivity. Qed.

Lemma collapse_space_single_spaced s : single_spaced (collapse_space s).
Proof.
  induction s as [|c s IH]; [exact I|].
  rewrite collapse_space_step. destruct (is_space c) eqn:Ec.
  - destruct s as [|d s].
    + cbn [single_spaced]. split; [intros _; split; [reflexivity|exact I]|exact I].
    + destruct (is_space d) eqn:Ed; [exact IH|].
      cbn [single_spaced]. split; [|exact IH].
      intros _. split; [reflexivity|].
      rewrite (collapse_space_head d s Ed). exact Ed.
  - cbn [single_spaced]. split; [|exact IH].
    intros H. congruence.
Qed.

Lemma collected_restores visit node v text v1 :
  collected visit node v = (Ok text, v1) -> format v1 = format v.
Proof.
  intros H1. unfold collected in H1.
  inv_bind H1. inv_leaf H1a. inv_bind H1. inv_leaf H1a.
  inv_bind H1. inv_bind H1. inv_leaf H1a0.
  inv_bind H1. inv_leaf H1a0. inv_leaf H1. reflexivity.
Qed.

(** X11: [collect] hands to its callback a flattened text, in which
    the only white space is single spaces, and by then the sink that
    was in place before is in place again, whatever the children did;
    but when a child throws, the callback is not run and the sink is
    not put back: the visitor stays as the children left it, on the
    collector. *)
Theorem collect_flattens (visit : Node -> M Visitor unit) (node : Node)
  (f : jsstring -> M Visitor unit) (v : Visitor) :
  (forall v2, collect visit node f v = (Ok tt, v2) ->
     exists text v1,
       single_spaced text /\ format v1 = format v
       /\ f text v1 = (Ok tt, v2))
  /\ (forall e v',
        visitChildren visit node (set_format (Coll Collect.create) v)
        = (Throw e, v') ->
        collect visit node f v = (Throw e, v')).
Proof.
  split.
  - intros v2 H. rewrite collect_collected in H.
    apply bind_inv_ok in H. destruct H as (text & v1 & H1 & H2).
    exists text, v1.
    destruct (collected_flat _ _ _ _ _ H1) as [x ->].
    split; [apply collapse_space_single_spaced|]. split; [|exact H2].
    apply (collected_restores _ _ _ _ _ H1).
  - intros e v' H. unfold collect.
    unfold bind at 1. unfold gets at 1.
    unfold bind at 1. unfold modify at 1.
    apply bind_throw. exact H.
Qed.

Lemma collect_flattens_witness :
  let node := Element (lit "SUB") []
                [Text (lit " a"); Element (lit "BR") [] []; Text (lit "b  c ")] in
  let v := sample_visitor true false in
  let r := collect (sample_visit 3) node (fun text => format_write text) v in
  fst r = Ok tt
  /\ exists text v1,
       single_spaced text /\ format v1 = format v
       /\ format_write text v1 = (Ok tt, snd r).
Proof.
  intros node v r.
  assert (Hf : fst r = Ok tt) by (vm_compute; reflexivity).
  split; [exact Hf|].
  destruct (collect_flattens (sample_visit 3) node
              (fun text => format_write text) v) as [H _].
  apply H. fold r. rewrite <- Hf. apply surjective_pairing.
Defined.

(* ------------------------------------------------------------------ *)
(** ** Visitor: headings *)

Lemma visitHn_unfold visit node n v :
  visitHn visit node (Some n) v
  = if heading_skipped (v_options v) n then (Ok tt, v)
    else (contents <- collected visit node ;;
          format_writeHeading
            (Some (if o_hasChapters (v_options v) then n else n - 1)%Z)
            contents) v.
Proof.
  unfold visitHn, heading_skipped. unfold bind at 1. unfold gets at 1.
  destruct (o_hasChapters (v_options v)); cbn [negb option_map];
    (destruct (o_singleItem (v_options v) && _); [reflexivity|]);
    apply collect_collected.
Qed.

(** X12: a heading that is not left out, met while the sink is a
    collector (inside a subscript, a superscript, a term, a reference
    or another heading), never completes: once its own text is
    collected the collector is asked for [writeHeading], which it does
    not have, and the visit throws a TypeError. *)
Theorem heading_in_collector (visit : Node -> M Visitor unit) (node : Node)
  (n : Z) (v : Visitor) (c : Collector) :
  format v = Coll c ->
  heading_skipped (v_options v) n = false ->
  fst (visitHn visit node (Some n) v) <> Ok tt
  /\ (forall text v1,
        collected visit node v = (Ok text, v1) ->
        visitHn visit node (Some n) v = (Throw TypeError, v1)).
Proof.
  intros Hc Hskip. rewrite visitHn_unfold, Hskip.
  assert (H : forall text v1,
            collected visit node v = (Ok text, v1) ->
            (contents <- collected visit node ;;
             format_writeHeading
               (Some (if o_hasChapters (v_options v) then n else n - 1)%Z)
               contents) v = (Throw TypeError, v1)).
  { intros text v1 E. rewrite (bind_ok _ _ _ _ _ E).
    unfold format_writeHeading.
    rewrite (collected_restores _ _ _ _ _ E), Hc. reflexivity. }
  split; [|exact H].
  destruct (collected visit node v) as [[text|e|] v1] eqn:E.
  - rewrite (H text v1 eq_refl). discriminate.
  - rewrite (bind_throw _ _ _ _ _ E). discriminate.
  - rewrite (bind_fuel _ _ _ _ E). discriminate.
Qed.

Lemma heading_in_collector_witness :
  let h2 := Element (lit "H2") [] [Text (lit "x")] in
  let v := sample_visitor true false in
  fst (visitHn (sample_visit 2) h2 (Some 2%Z)
         (set_format (Coll Collect.create) v)) <> Ok tt
  /\ fst (sample_visit 4 (Element (lit "SUP") [] [h2]) v) = Throw TypeError.
Proof.
  intros h2 v. split.
  - apply (heading_in_collector (sample_visit 2) h2 2
             (set_format (Coll Collect.create) v) Collect.create);
      reflexivity.
  - vm_compute. reflexivity.
Defined.

(* ------------------------------------------------------------------ *)
(** ** Visitor: reference markers *)

Lemma digit_cases c :
  is_digit c = true ->
  In c [48; 49; 50; 51; 52; 53; 54; 55; 56; 57]%N.
Proof.
  unfold is_digit. intros H. apply andb_true_iff in H.
  destruct H as [H1 H2]. apply N.leb_le in H1. apply N.leb_le in H2.
  assert (E : (c = 48 \/ c = 49 \/ c = 50 \/ c = 51 \/ c = 52 \/ c = 53
               \/ c = 54 \/ c = 55 \/ c = 56 \/ c = 57)%N) by lia.
  cbn [In]. intuition (subst; auto).
Qed.

Lemma digit_facts c :
  is_digit c = true ->
  is_space c = false /\ plain_quote c = c /\ c <> CR /\ c <> LF
  /\ mem c (keys supmap) = true.
Proof.
  intros H. apply digit_cases in H. cbn [In] in H.
  repeat (destruct H as [H|H]; [subst c; vm_compute; repeat split; discriminate|]).
  destruct H.
Qed.

Lemma marker_text_facts ds :
  forallb is_digit ds = true ->
  collapse_space (ds ++ [SP]) = ds ++ [SP]
  /\ textEscape (ds ++ [SP]) = ds ++ [SP]
  /\ forallb (fun c => mem c (keys supmap)) (ds ++ [SP]) = true.
Proof.
  intros H. rewrite forallb_forall in H.
  assert (Hall : forall c, In c (ds ++ [SP]) ->
            plain_quote c = c /\ c <> CR /\ c <> LF
            /\ mem c (keys supmap) = true).
  { intros c Hc. apply in_app_or in Hc. destruct Hc as [Hc|[<-|[]]].
    - destruct (digit_facts c (H c Hc)) as (_ & ? & ? & ? & ?). auto.
    - vm_compute. repeat split; discriminate. }
  split; [|split].
  - clear Hall. induction ds as [|c ds IH]; [reflexivity|].
    destruct (digit_facts c (H c (or_introl eq_refl))) as (Hs & _).
    rewrite <- app_comm_cons. rewrite (collapse_space_head c _ Hs).
    rewrite IH; [reflexivity|]. intros x Hx. apply H. right. exact Hx.
  - rewrite textEscape_one_line.
    + rewrite <- (map_id (ds ++ [SP])) at 2. apply map_ext_in.
      intros c Hc. apply (Hall c Hc).
    + apply Forall_forall. intros c Hc. destruct (Hall c Hc) as (_ & ? & ? & _).
      auto.
  - apply forallb_forall. intros c Hc. apply (Hall c Hc).
Qed.

Lemma is_ref_marker_brackets ds :
  ds <> [] -> forallb is_digit ds = true ->
  is_ref_marker ([91%N] ++ ds ++ [93%N]) = true
  /\ slice_1_m1 ([91%N] ++ ds ++ [93%N]) = ds.
Proof.
  intros Hne Hd. split.
  - change ([91%N] ++ ds ++ [93%N]) with (91%N :: (ds ++ [93%N])).
    cbn [is_ref_marker]. rewrite rev_unit.
    change (ceq 91%N 91%N) with true. change (ceq 93%N 93%N) with true.
    cbn [andb].
    assert (Hr : forallb is_digit (rev ds) = true).
    { apply forallb_forall. intros c Hc.
      rewrite forallb_forall in Hd. apply Hd. apply in_rev. exact Hc. }
    match goal with
    | |- match ?x with _ => _ end = true => destruct x as [|d r] eqn:E
    end; [|rewrite <- E; exact Hr].
    apply (f_equal (@rev char)) in E. rewrite rev_involutive in E.
    cbn in E. congruence.
  - unfold slice_1_m1.
    change (skipn 1 ([91%N] ++ ds ++ [93%N])) with (ds ++ [93%N]).
    apply removelast_last.
Qed.

Lemma set_format_back (v : Visitor) x :
  set_format (format v) (set_format x v) = v.
Proof. destruct v; reflexivity. Qed.

Section ReferenceMarker.

Variable linewrap : Z -> Z -> LinewrapOpts -> jsstring -> jsstring.
Variable first_child : Node -> option Node.
Variable Polyglossia_lookup : option jsstring -> res (option Poly).
Variable multiple_image_query : Node -> res (list Node * list Node).
Variable ToString : option Json.value -> res jsstring.
Variable cleanMath_array : list Json.value -> M Proc jsstring.

Local Abbreviation vis :=
  (visit linewrap first_child Polyglossia_lookup multiple_image_query
     ToString cleanMath_array).

Lemma collected_marker fuel ds v :
  forallb is_digit ds = true ->
  collected (vis (S fuel)) (Element (lit "SUP") [] [Text (ds ++ [SP])]) v
  = (Ok (ds ++ [SP]), v).
Proof.
  intros Hd. destruct (marker_text_facts ds Hd) as (Hc & Ht & _).
  unfold collected. unfold bind at 1. unfold gets at 1.
  unfold bind at 1. unfold modify at 1.
  unfold visitChildren. cbn [Dom.childNodes forM visit visit_body].
  rewrite Ht.
  destruct (ds ++ [SP]) as [|c t] eqn:E; [destruct ds; discriminate E|].
  unfold format_write, lift_format, bind, gets, modify, ret.
  cbn [format set_format Collect.write Collect.create c_b concat app].
  rewrite app_nil_r, Hc. f_equal. destruct v; reflexivity.
Qed.

(** X13: a reference whose collected text is a number in square
    brackets is written as that number in superscript digits followed
    by a space, the brackets dropped. *)
Theorem reference_marker_superscript (fuel : nat) (node : Node)
  (v v1 : Visitor) (ds : jsstring) :
  o_noRefs (v_options v) = false ->
  ds <> [] -> forallb is_digit ds = true ->
  collected (vis (S fuel)) node v = (Ok ([91%N] ++ ds ++ [93%N]), v1) ->
  REL_references (vis (S fuel)) node v
  = format_write (map (to_script supmap) ds ++ [SP]) v1.
Proof.
  intros Hno Hne Hd E.
  destruct (is_ref_marker_brackets ds Hne Hd) as [Hm Hs].
  destruct (marker_text_facts ds Hd) as (_ & _ & Hk).
  unfold REL_references. unfold bind at 1. unfold gets at 1. rewrite Hno.
  rewrite collect_collected. rewrite (bind_ok _ _ _ _ _ E).
  rewrite Hm, Hs. unfold visitSUP. unfold bind at 1. unfold gets at 1.
  replace (o_noRefs (v_options v1)
           && Dom.classList_contains
                (Element (lit "SUP") [] [Text (ds ++ [SP])])
                (lit "Template-Fact")) with false
    by (symmetry; apply andb_false_r).
  rewrite collect_collected.
  rewrite (bind_ok _ _ _ _ _ (collected_marker fuel ds v1 Hd)).
  unfold supre_test, class_test.
  destruct (ds ++ [SP]) as [|c t] eqn:E1; [destruct ds; discriminate E1|].
  rewrite Hk. rewrite (transliterate_map _ _ Hk).
  rewrite <- E1, map_app. reflexivity.
Qed.

End ReferenceMarker.

Lemma reference_marker_superscript_witness :
  let node := Element (lit "SPAN") [(lit "rel", lit "dc:references")]
                [Element (lit "A") [] [Text (lit "[12]")]] in
  let v := sample_visitor true false in
  REL_references (sample_visit 3) node v
  = format_write ([0x00B9; 0x00B2]%N ++ [SP]) v.
Proof.
  intros node v.
  apply (reference_marker_superscript sample_linewrap sample_first_child
           sample_Polyglossia sample_query sample_ToString
           sample_cleanMath_array 2 node v v (lit "12")).
  - reflexivity.
  - discriminate.
  - reflexivity.
  - vm_compute. reflexivity.
Defined.

(* ------------------------------------------------------------------ *)
(** ** Visitor: white space between elements *)

Lemma unix_newlines_incl n : forall s c,
  length s <= n -> In c (unix_newlines s) -> c = LF \/ In c s.
Proof.
  induction n as [|n IH]; intros s c Hn H.
  - destruct s; [destruct H|simpl in Hn; lia].
  - destruct s as [|x s]; [destruct H|].
    cbn [length] in Hn. cbn [unix_newlines] in H.
    destruct (ceq x CR).
    + destruct H as [<-|H]; [left; reflexivity|].
      destruct s as [|d s]; [destruct H|].
      destruct (ceq d LF).
      * destruct (IH s c) as [E|E]; [cbn [length] in Hn; lia|exact H|..];
          [left; exact E|right; right; right; exact E].
      * destruct (IH (d :: s) c) as [E|E]; [lia|exact H|..];
          [left; exact E|right; right; exact E].
    + destruct H as [<-|H]; [right; left; reflexivity|].
      destruct (IH s c) as [E|E]; [lia|exact H|..];
        [left; exact E|right; right; exact E].
Qed.

Lemma plain_quote_space c : is_space c = true -> plain_quote c = c.
Proof.
  intros H. unfold plain_quote.
  destruct (ceq c LDQUO) eqn:E1;
    [apply ceq_true in E1; subst; discriminate H|].
  destruct (ceq c RDQUO) eqn:E2;
    [apply ceq_true in E2; subst; discriminate H|].
  cbn [orb].
  destruct (ceq c LSQUO) eqn:E3;
    [apply ceq_true in E3; subst; discriminate H|].
  destruct (ceq c RSQUO) eqn:E4;
    [apply ceq_true in E4; subst; discriminate H|].
  reflexivity.
Qed.

Lemma textEscape_spaces s :
  forallb is_space s = true -> forallb is_space (textEscape s) = true.
Proof.
  intros H. rewrite forallb_forall in H. apply forallb_forall. intros c Hc.
  unfold textEscape in Hc. rewrite plain_quotes_map in Hc.
  apply in_map_iff in Hc. destruct Hc as (c' & <- & Hc').
  apply trim_trailing_newline_incl, trim_leading_newlines_incl,
    compress_newlines_incl in Hc'.
  apply (unix_newlines_incl (length s) s c' (le_n _)) in Hc'.
  assert (Hs : is_space c' = true)
    by (destruct Hc' as [->|Hc']; [reflexivity|apply H; exact Hc']).
  rewrite (plain_quote_space c' Hs). exact Hs.
Qed.

Lemma strip_leading_space_blank s :
  forallb is_space s = true -> strip_leading_space s = [].
Proof.
  induction s as [|c s IH]; [reflexivity|]. cbn [forallb strip_leading_space].
  intros H. apply andb_true_iff in H. destruct H as [Hc Hs].
  rewrite Hc. apply IH. exact Hs.
Qed.

Lemma write_blank text f :
  Formatter.newLine f = true \/ Formatter.newPara f = true ->
  forallb is_space text = true ->
  Formatter.write text f = (Ok tt, f).
Proof.
  intros Hl Hs. unfold Formatter.write. rewrite !bind_gets_eq.
  replace (Formatter.newLine f || Formatter.newPara f) with true
    by (symmetry; apply orb_true_iff; exact Hl).
  rewrite (strip_leading_space_blank text Hs). reflexivity.
Qed.

Section VisitorEdges.

Variable linewrap : Z -> Z -> LinewrapOpts -> jsstring -> jsstring.
Variable first_child : Node -> option Node.
Variable Polyglossia_lookup : option jsstring -> res (option Poly).
Variable multiple_image_query : Node -> res (list Node * list Node).
Variable ToString : option Json.value -> res jsstring.
Variable cleanMath_array : list Json.value -> M Proc jsstring.

Local Abbreviation vis :=
  (visit linewrap first_child Polyglossia_lookup multiple_image_query
     ToString cleanMath_array).

(** X18: a text node made of white space only, met at the start of a
    line of the formatter, leaves no trace: nothing is written and the
    visitor is as it was. *)
Theorem blank_text_silent (fuel : nat) (data : jsstring) (v : Visitor)
  (f : Formatter.t) :
  format v = Real f ->
  Formatter.newLine f = true \/ Formatter.newPara f = true ->
  forallb is_space data = true ->
  vis (S fuel) (Text data) v = (Ok tt, v).
Proof.
  intros Hf Hl Hs. cbn [visit visit_body].
  pose proof (textEscape_spaces data Hs) as Ht.
  destruct (textEscape data) as [|c t]; [reflexivity|].
  unfold format_write, lift_format. rewrite Hf.
  rewrite (write_blank (c :: t) f Hl Ht).
  destruct v; cbn in Hf |- *. subst format0. reflexivity.
Qed.

(** X19: when the element declares a language other than the current
    one, the language is recorded as used before it is looked up; a
    lookup that throws makes the visit throw with the current language
    still in place, and a lookup that finds nothing makes it throw a
    TypeError with the current language already replaced and not put
    back. *)
Theorem language_lookup_failure (fuel : nat) (name : jsstring)
  (attrs : list (jsstring * jsstring)) (ch : list Node) (v : Visitor)
  (c : char) (lang : jsstring) :
  let node := Element name attrs ch in
  let declared := Some (c :: lang) in
  let v0 := set_usedLanguages (set_add declared (usedLanguages v)) v in
  isHidden node = false ->
  Dom.getAttribute node (lit "lang") = declared ->
  opt_neq declared (currentLanguage v) = true ->
  (forall e, Polyglossia_lookup declared = Throw e ->
             vis (S fuel) node v = (Throw e, v0))
  /\ (Polyglossia_lookup declared = Ok None ->
      vis (S fuel) node v
      = (Throw TypeError, set_currentLanguage declared v0)).
Proof.
  intros node declared v0 Hh Hl Hd. subst node.
  assert (E : vis (S fuel) (Element name attrs ch) v
              = visitLANG Polyglossia_lookup (vis fuel)
                  (Element name attrs ch) v0).
  { cbn [visit]. unfold visit_body. rewrite Hh.
    rewrite bind_gets_eq. cbv zeta. rewrite Hl.
    change (or_else declared (currentLanguage v)) with declared.
    rewrite Hd. reflexivity. }
  rewrite E. unfold visitLANG. rewrite !bind_gets_eq. cbv zeta. rewrite Hl.
  unfold bind at 1. unfold lift_res at 1. split.
  - intros e He. rewrite He. reflexivity.
  - intros He. rewrite He. reflexivity.
Qed.

End VisitorEdges.

Lemma blank_text_silent_witness :
  let v := sample_visitor true false in
  sample_visit 1 (Text [LF; SP; 9%N; SP]) v = (Ok tt, v).
Proof.
  intros v.
  apply (blank_text_silent sample_linewrap sample_first_child
           sample_Polyglossia sample_query sample_ToString
           sample_cleanMath_array 0 [LF; SP; 9%N; SP] v
           (Formatter.create sample_linewrap
              {| Formatter.column := None; Formatter.tabWidth_opt := None;
                 Formatter.noWrap := true |})).
  - reflexivity.
  - left. reflexivity.
  - reflexivity.
Defined.

Lemma language_lookup_failure_witness :
  let node := Element (lit "SPAN") [(lit "lang", lit "xx")] [] in
  let v := sample_visitor true false in
  let lookup := fun _ : option jsstring => @Ok (option Poly) None in
  fst (visit sample_linewrap sample_first_child lookup sample_query
         sample_ToString sample_cleanMath_array 2 node v) = Throw TypeError
  /\ currentLanguage
       (snd (visit sample_linewrap sample_first_child lookup sample_query
               sample_ToString sample_cleanMath_array 2 node v))
     = Some (lit "xx").
Proof.
  intros node v lookup.
  destruct (language_lookup_failure sample_linewrap sample_first_child
              lookup sample_query sample_ToString sample_cleanMath_array
              1 (lit "SPAN") [(lit "lang", lit "xx")] [] v
              120%N (lit "x") eq_refl eq_refl eq_refl) as [_ H].
  subst node. rewrite (H eq_refl). split; reflexivity.
Defined.

(* ------------------------------------------------------------------ *)
(** ** countItems *)

Lemma fold_left_count (f : Item -> nat) l : forall acc,
  fold_left (fun sum item => sum + f item) l acc
  = acc + list_sum (map f l).
Proof.
  induction l as [|x l IH]; intros acc; simpl.
  - lia.
  - rewrite IH. lia.
Qed.

Lemma length_flat_map_items (l : list Item) :
  (forall x, In x l -> countItems x = length (all_items x)) ->
  list_sum (map countItems l) = length (flat_map all_items l).
Proof.
  induction l as [|x l IH]; intros H; [reflexivity|].
  simpl. rewrite length_app.
  rewrite (H x (or_introl eq_refl)). rewrite IH; [reflexivity|].
  intros y Hy. apply H. right. exact Hy.
Qed.

Lemma countItems_all_items : forall item : Item,
  countItems item = length (all_items item).
Proof.
  fix IH 1. intros [[l|]]; [|reflexivity].
  cbn [countItems all_items length]. rewrite fold_left_count.
  rewrite length_flat_map_items; [reflexivity|].
  induction l as [|y l IHl]; intros x Hx; [destruct Hx|].
  destruct Hx as [<-|Hx]; [apply IH|apply IHl; exact Hx].
Qed.

(** X14: [countItems] counts every item of the tree of the collection,
    the root included: an item without [items] counts for one, and an
    item with them for one more than its items count together. *)
Theorem countItems_counts (item : Item) :
  countItems item = length (all_items item)
  /\ 1 <= countItems item
  /\ countItems (MkItem None) = 1
  /\ (forall l, countItems (MkItem (Some l))
                = 1 + list_sum (map countItems l)).
Proof.
  split; [apply countItems_all_items|]. split; [|split].
  - rewrite countItems_all_items. destruct item as [[l|]]; simpl; lia.
  - reflexivity.
  - intros l. cbn [countItems]. apply fold_left_count.
Qed.

(* ------------------------------------------------------------------ *)
(** ** The stream only grows *)

Section AlwaysRules.

Context {St : Type} (R : St -> St -> Prop).
Hypothesis R_refl : forall s, R s s.
Hypothesis R_trans : forall a b c, R a b -> R b c -> R a c.

Lemma always_ret {A} (a : A) : always R (ret a).
Proof. intros s. apply R_refl. Qed.

Lemma always_gets {A} (f : St -> A) : always R (gets f).
Proof. intros s. apply R_refl. Qed.

Lemma always_throw {A} e : always R (@throw St A e).
Proof. intros s. apply R_refl. Qed.

Lemma always_bind {A B} (c : M St A) (k : A -> M St B) :
  always R c -> (forall a, always R (k a)) -> always R (bind c k).
Proof.
  intros Hc Hk s. unfold bind. specialize (Hc s).
  destruct (c s) as [[a|e|] s1]; cbn [snd] in *; try exact Hc.
  eapply R_trans; [exact Hc|apply Hk].
Qed.

Lemma always_when (b : bool) (c : M St unit) :
  always R c -> always R (when b c).
Proof. destruct b; [tauto|intros _; apply always_ret]. Qed.

End AlwaysRules.

Lemma always_modify {St} (R : St -> St -> Prop) (f : St -> St) :
  (forall s, R s (f s)) -> always R (modify f).
Proof. intros H s. apply H. Qed.

Lemma appends_refl f : appends f f.
Proof. exists []. symmetry. apply app_nil_r. Qed.

Lemma appends_trans a b c : appends a b -> appends b c -> appends a c.
Proof.
  intros [x Hx] [y Hy]. exists (x ++ y). rewrite Hy, Hx. symmetry. apply app_assoc.
Qed.

Lemma appends_same f f' :
  Formatter.outStream f' = Formatter.outStream f -> appends f f'.
Proof. intros H. exists []. rewrite H. symmetry. apply app_nil_r. Qed.

Ltac appends_tac :=
  repeat first
    [ apply (always_ret _ appends_refl)
    | apply (always_gets _ appends_refl)
    | apply (always_throw _ appends_refl)
    | apply (always_when _ appends_refl)
    | apply always_modify; intros;
      first [ apply appends_same; reflexivity | eexists; reflexivity ]
    | apply (always_bind _ appends_trans); [|intros ?]
    | match goal with
      | |- always _ (match ?x with _ => _ end) => destruct x
      | |- always _ (if ?x then _ else _) => destruct x
      end ].

Lemma _write_appends text : always appends (Formatter._write text).
Proof. unfold Formatter._write. appends_tac. Qed.

Lemma lineBreak_appends : always appends Formatter.lineBreak.
Proof.
  unfold Formatter.lineBreak, Formatter._writeWrap, Formatter._write.
  appends_tac.
Qed.

Lemma write_appends text : always appends (Formatter.write text).
Proof. unfold Formatter.write. appends_tac. Qed.

Lemma paragraphBreak_appends : always appends Formatter.paragraphBreak.
Proof.
  unfold Formatter.paragraphBreak.
  apply (always_bind _ appends_trans); [appends_tac|intros np].
  destruct np; [appends_tac|].
  apply (always_bind _ appends_trans); [appends_tac|intros nl].
  apply (always_bind _ appends_trans);
    [apply (always_when _ appends_refl); apply lineBreak_appends|intros _].
  unfold Formatter._write. appends_tac.
Qed.

Lemma indent_appends linewrap tag :
  always appends (Formatter.indent linewrap tag).
Proof.
  unfold Formatter.indent.
  apply (always_bind _ appends_trans); [apply lineBreak_appends|intros _].
  apply (always_bind _ appends_trans); [appends_tac|intros _].
  apply (always_bind _ appends_trans); [appends_tac|intros st].
  destruct st as [st|]; [|appends_tac].
  apply (always_bind _ appends_trans); [appends_tac|intros tw].
  apply (always_bind _ appends_trans); [appends_tac|intros _].
  destruct tag as [[|c tg]|]; [appends_tac| |appends_tac].
  apply (always_bind _ appends_trans); [apply write_appends|intros _].
  apply write_appends.
Qed.

Lemma dedent_appends : always appends Formatter.dedent.
Proof.
  unfold Formatter.dedent.
  apply (always_bind _ appends_trans); [apply lineBreak_appends|intros _].
  apply always_modify. intros f.
  destruct (Formatter.stateStack f); apply appends_same; reflexivity.
Qed.

Lemma writeHeading_appends level heading :
  always appends (Formatter.writeHeading level heading).
Proof.
  unfold Formatter.writeHeading.
  apply (always_bind _ appends_trans); [apply paragraphBreak_appends|intros _].
  apply (always_bind _ appends_trans); [apply write_appends|intros _].
  apply paragraphBreak_appends.
Qed.

Lemma extends_refl v : extends v v.
Proof. split; [reflexivity|]. exists []. symmetry. apply app_nil_r. Qed.

Lemma extends_trans a b c : extends a b -> extends b c -> extends a c.
Proof.
  intros [H1 [x Hx]] [G1 [y Hy]]. split; [congruence|].
  exists (x ++ y). rewrite Hy, Hx. symmetry. apply app_assoc.
Qed.

Lemma extends_same v v' : format v' = format v -> extends v v'.
Proof.
  intros H. unfold extends, is_real, stream_of. rewrite H.
  split; [reflexivity|]. exists []. symmetry. apply app_nil_r.
Qed.

Lemma lift_format_extends real coll :
  always appends real -> keeps extends (lift_format real coll).
Proof.
  intros Hreal v a v' H. unfold lift_format in H.
  unfold extends, is_real, stream_of.
  destruct (format v) as [f|c] eqn:Ef.
  - specialize (Hreal f). destruct (real f) as [r f'].
    injection H as _ <-. cbn. split; [reflexivity|exact Hreal].
  - injection H as _ <-. cbn. split; [reflexivity|].
    exists []. reflexivity.
Qed.

Lemma writeHeading_extends level heading :
  keeps extends (format_writeHeading level heading).
Proof.
  intros v a v' H. unfold format_writeHeading in H.
  unfold extends, is_real, stream_of.
  destruct (format v) as [f|c] eqn:Ef; [|discriminate].
  pose proof (writeHeading_appends level heading f) as Hreal.
  destruct (Formatter.writeHeading level heading f) as [r f'].
  injection H as _ <-. cbn. split; [reflexivity|exact Hreal].
Qed.

Lemma lift_proc_extends {A} (c : M Proc A) : keeps extends (lift_proc c).
Proof.
  intros v a v' E. unfold lift_proc in E.
  destruct (c (proc v)) as [r p]. injection E as _ <-.
  apply extends_same. reflexivity.
Qed.

Ltac extends_leaf linewrap :=
  first
    [ apply lift_format_extends;
      first [ apply write_appends | apply lineBreak_appends
            | apply paragraphBreak_appends | apply (indent_appends linewrap)
            | apply dedent_appends ]
    | apply writeHeading_extends
    | apply lift_proc_extends
    | apply keeps_modify; intros; apply extends_same; reflexivity ].

Ltac extends_tac linewrap Hv :=
  repeat first
    [ apply Hv
    | extends_leaf linewrap
    | progress cbv zeta
    | keeps_structure extends_refl extends_trans ].

Section Appending.

Variable linewrap : Z -> Z -> LinewrapOpts -> jsstring -> jsstring.
Variable first_child : Node -> option Node.
Variable Polyglossia_lookup : option jsstring -> res (option Poly).
Variable multiple_image_query : Node -> res (list Node * list Node).
Variable ToString : option Json.value -> res jsstring.
Variable cleanMath_array : list Json.value -> M Proc jsstring.

Local Abbreviation vis :=
  (visit linewrap first_child Polyglossia_lookup multiple_image_query
     ToString cleanMath_array).

Section Handlers.

Variable visit : Node -> M Visitor unit.
Hypothesis Hv : forall n, keeps extends (visit n).

Lemma collect_extends node f :
  (forall text, keeps extends (f text)) -> keeps extends (collect visit node f).
Proof.
  intros Hf v a v' H. rewrite collect_collected in H.
  apply bind_inv_ok in H. destruct H as (text & v1 & H1 & H2).
  apply (extends_trans v v1 v').
  - apply extends_same. apply (collected_restores _ _ _ _ _ H1).
  - apply (Hf text _ _ _ H2).
Qed.

Lemma references_loop_extends refs : forall i,
  keeps extends (references_loop linewrap visit refs i).
Proof.
  induction refs as [|ref refs IH]; intros i; cbn [references_loop].
  - extends_tac linewrap Hv.
  - unfold format_indent, format_dedent, visitChildren.
    do 3 (apply (keeps_bind _ extends_trans);
          [extends_tac linewrap Hv|intros _]).
    apply IH.
Qed.

Lemma figures_loop_extends images : forall captions,
  keeps extends (figures_loop images captions).
Proof.
  induction images as [|img images IH]; intros captions; cbn [figures_loop].
  - extends_tac linewrap Hv.
  - apply (keeps_bind _ extends_trans); [extends_tac linewrap Hv|intros _].
    apply IH.
Qed.

Lemma visitSUP_extends node : keeps extends (visitSUP visit node).
Proof.
  unfold visitSUP.
  apply (keeps_bind _ extends_trans); [extends_tac linewrap Hv|intros o].
  destruct (o_noRefs o && _); [extends_tac linewrap Hv|].
  apply collect_extends. intros text. unfold format_write.
  extends_tac linewrap Hv.
Qed.

Lemma TYPEOF_math_extends node display :
  keeps extends (TYPEOF_math ToString cleanMath_array node display).
Proof.
  unfold TYPEOF_math, format_write, format_lineBreak.
  extends_tac linewrap Hv.
Qed.

Lemma apply_method_extends m node :
  keeps extends
    (apply_method linewrap first_child Polyglossia_lookup
       multiple_image_query ToString cleanMath_array visit m node).
Proof.
  destruct m; cbn [apply_method].
  - apply Hv.
  - unfold visitChildren. extends_tac linewrap Hv.
  - unfold visitBODY, visitChildren. extends_tac linewrap Hv.
  - unfold visitA, visitChildren. extends_tac linewrap Hv.
  - unfold visitP, visitChildren, format_paragraphBreak.
    extends_tac linewrap Hv.
  - unfold visitSUB. apply collect_extends. intros text.
    unfold format_write. extends_tac linewrap Hv.
  - apply visitSUP_extends.
  - unfold visitCENTER, visitChildren, format_lineBreak.
    extends_tac linewrap Hv.
  - unfold visitBR, format_lineBreak. extends_tac linewrap Hv.
  - unfold visitHn.
    apply (keeps_bind _ extends_trans); [extends_tac linewrap Hv|intros o].
    cbv zeta. destruct (o_singleItem o && _); [extends_tac linewrap Hv|].
    apply collect_extends. intros text. apply writeHeading_extends.
  - unfold visitHn.
    apply (keeps_bind _ extends_trans); [extends_tac linewrap Hv|intros o].
    cbv zeta. destruct (o_singleItem o && _); [extends_tac linewrap Hv|].
    apply collect_extends. intros text. apply writeHeading_extends.
  - unfold REL_references.
    apply (keeps_bind _ extends_trans); [extends_tac linewrap Hv|intros o].
    destruct (o_noRefs o); [extends_tac linewrap Hv|].
    apply collect_extends. intros text. cbv zeta. apply visitSUP_extends.
  - unfold visitOL, visitChildren. extends_tac linewrap Hv.
  - unfold visitLI, visitChildren, format_indent, format_dedent.
    extends_tac linewrap Hv.
  - unfold visitDL.
    destruct (first_child node); [|extends_tac linewrap Hv].
    destruct (dl_scan _ _ _) as [sawDT allMath].
    destruct (allMath && negb sawDT).
    + apply (keeps_forM _ extends_refl extends_trans). intros dd _.
      apply TYPEOF_math_extends.
    + unfold visitChildren, format_dedent. extends_tac linewrap Hv.
  - unfold visitDT.
    apply (keeps_bind _ extends_trans); [extends_tac linewrap Hv|intros li].
    apply (keeps_bind _ extends_trans).
    + unfold format_dedent, mark_sawDT. extends_tac linewrap Hv.
    + intros _. apply collect_extends. intros text.
      unfold format_indent, mark_sawDT. extends_tac linewrap Hv.
  - unfold visitDD, visitChildren, format_indent, mark_sawDT.
    extends_tac linewrap Hv.
  - unfold visitBLOCKQUOTE, visitChildren, format_indent, format_dedent.
    extends_tac linewrap Hv.
  - unfold REL_referencedBy. extends_tac linewrap Hv.
  - unfold TYPEOF_references.
    apply (keeps_bind _ extends_trans); [extends_tac linewrap Hv|intros o].
    destruct (o_noRefs o); [extends_tac linewrap Hv|].
    apply references_loop_extends.
  - unfold visitTABLE. extends_tac linewrap Hv.
  - unfold visitFIGURE. extends_tac linewrap Hv.
  - apply TYPEOF_math_extends.
  - unfold visitLANG. extends_tac linewrap Hv.
  - unfold visitDIR, console_warn. extends_tac linewrap Hv.
  - unfold TYPEOF_Image, visitFIGURE. extends_tac linewrap Hv.
  - unfold visitMultipleImage.
    do 2 (apply (keeps_bind _ extends_trans);
          [extends_tac linewrap Hv|intros ?]).
    apply figures_loop_extends.
  - unfold visitDIV. destruct (isMultipleImageTemplate node).
    + unfold visitMultipleImage.
      do 2 (apply (keeps_bind _ extends_trans);
            [extends_tac linewrap Hv|intros ?]).
      apply figures_loop_extends.
    + unfold visitChildren, format_lineBreak. extends_tac linewrap Hv.
Qed.

Lemma visit_body_extends node :
  keeps extends
    (visit_body linewrap first_child Polyglossia_lookup
       multiple_image_query ToString cleanMath_array visit node).
Proof.
  unfold visit_body. destruct node as [name attrs ch|data|data|].
  - set (node := Element name attrs ch).
    destruct (isHidden node); [extends_tac linewrap Hv|].
    apply (keeps_bind _ extends_trans); [extends_tac linewrap Hv|intros cur].
    cbv zeta. destruct (opt_neq _ cur).
    { apply (keeps_bind _ extends_trans); [extends_tac linewrap Hv|intros _].
      apply (apply_method_extends m_LANG). }
    apply (keeps_bind _ extends_trans); [extends_tac linewrap Hv|intros curd].
    cbv zeta. destruct (opt_neq _ curd).
    { apply (apply_method_extends m_DIR). }
    destruct (handler_of node) as [m|]; [apply apply_method_extends|].
    unfold visitChildren. extends_tac linewrap Hv.
  - unfold format_write. extends_tac linewrap Hv.
  - unfold format_write. extends_tac linewrap Hv.
  - extends_tac linewrap Hv.
Qed.

End Handlers.

Lemma visit_extends fuel : forall node, keeps extends (vis fuel node).
Proof.
  induction fuel as [|fuel IH]; intros node; cbn [visit].
  - apply keeps_fuel.
  - apply visit_body_extends. exact IH.
Qed.

(** X15: whenever the visit of a node that started on the formatter
    returns, the formatter is in place again and the stream of the
    conversion holds what it held before, followed by what the visit
    wrote: nothing that was written is ever changed or taken back. *)
Theorem visit_only_appends (fuel : nat) (node : Node) (v v' : Visitor)
  (f : Formatter.t) :
  vis fuel node v = (Ok tt, v') ->
  format v = Real f ->
  exists f' ext,
    format v' = Real f'
    /\ Formatter.outStream f' = Formatter.outStream f ++ ext.
Proof.
  intros H Hf. destruct (visit_extends fuel node v tt v' H) as [H1 [ext H2]].
  unfold is_real, stream_of in *. rewrite Hf in *.
  destruct (format v') as [f'|c]; [|discriminate].
  exists f', ext. split; [reflexivity|exact H2].
Qed.

End Appending.

Lemma visit_only_appends_witness :
  let v0 := sample_visitor true false in
  let v := snd (sample_visit 3 (Element (lit "P") [] [Text (lit "one")]) v0) in
  let node := Element (lit "UL") []
                [Element (lit "LI") [] [Text (lit "two")]] in
  stream_of v = lines ["one"%string; EmptyString]
  /\ exists f' ext,
       format (snd (sample_visit 4 node v)) = Real f'
       /\ Formatter.outStream f' = lines ["one"%string; EmptyString] ++ ext.
Proof.
  intros v0 v node. split; [vm_compute; reflexivity|].
  unfold sample_visit.
  pose proof (visit_only_appends sample_linewrap sample_first_child
                sample_Polyglossia sample_query sample_ToString
                sample_cleanMath_array 4 node v) as H.
  assert (Hf : fst (visit sample_linewrap sample_first_child
                      sample_Polyglossia sample_query sample_ToString
                      sample_cleanMath_array 4 node v) = Ok tt)
    by (vm_compute; reflexivity).
  destruct (visit sample_linewrap sample_first_child sample_Polyglossia
              sample_query sample_ToString sample_cleanMath_array 4 node v)
    as [o v'].
  cbn [fst snd] in Hf |- *. subst o.
  destruct (format v) as [f|c] eqn:Ef; [|vm_compute in Ef; discriminate Ef].
  destruct (H v' f eq_refl eq_refl) as (f' & ext & H1 & H2).
  exists f', ext. split; [exact H1|]. rewrite H2. f_equal.
  vm_compute in Ef. injection Ef as <-. reflexivity.
Defined.

(* ------------------------------------------------------------------ *)
(** ** The visit of a tree ends *)

Lemma terminates_ret {St A} (a : A) : terminates (@ret St A a).
Proof. intros s. discriminate. Qed.

Lemma terminates_gets {St A} (f : St -> A) : terminates (gets f).
Proof. intros s. discriminate. Qed.

Lemma terminates_modify {St} (f : St -> St) : terminates (modify f).
Proof. intros s. discriminate. Qed.

Lemma terminates_throw {St A} e : terminates (@throw St A e).
Proof. intros s. discriminate. Qed.

Lemma terminates_lift_res {St A} (r : res A) :
  r <> OutOfFuel -> terminates (@lift_res St A r).
Proof. intros H s. exact H. Qed.

Lemma bind_terminates_at {St A B} (c : M St A) (k : A -> M St B) s :
  fst (c s) <> OutOfFuel -> (forall a, terminates (k a)) ->
  fst (bind c k s) <> OutOfFuel.
Proof.
  intros Hc Hk. unfold bind. destruct (c s) as [[a|e|] s1]; cbn [fst] in *.
  - apply Hk.
  - discriminate.
  - exfalso. apply Hc. reflexivity.
Qed.

Lemma terminates_bind {St A B} (c : M St A) (k : A -> M St B) :
  terminates c -> (forall a, terminates (k a)) -> terminates (bind c k).
Proof. intros Hc Hk s. apply bind_terminates_at; [apply Hc|exact Hk]. Qed.

Lemma terminates_when {St} (b : bool) (c : M St unit) :
  terminates c -> terminates (when b c).
Proof. destruct b; [tauto|intros _; apply terminates_ret]. Qed.

Lemma terminates_forM {St A} (l : list A) (body : A -> M St unit) :
  (forall a, In a l -> terminates (body a)) -> terminates (forM l body).
Proof.
  induction l as [|a l IH]; intros H; cbn [forM].
  - apply terminates_ret.
  - apply terminates_bind; [apply H; left; reflexivity|].
    intros _. apply IH. intros b Hb. apply H. right. exact Hb.
Qed.

Ltac terminates_structure :=
  first
    [ apply terminates_ret
    | apply terminates_gets
    | apply terminates_modify
    | apply terminates_throw
    | apply terminates_when
    | apply terminates_bind; [|intros ?]
    | match goal with
      | |- terminates (match ?x with _ => _ end) => destruct x
      | |- terminates (if ?x then _ else _) => destruct x
      end ].

Lemma lineBreak_terminates : terminates Formatter.lineBreak.
Proof.
  unfold Formatter.lineBreak, Formatter._writeWrap, Formatter._write.
  repeat terminates_structure.
Qed.

Lemma write_terminates text : terminates (Formatter.write text).
Proof. unfold Formatter.write. repeat terminates_structure. Qed.

Lemma paragraphBreak_terminates : terminates Formatter.paragraphBreak.
Proof.
  unfold Formatter.paragraphBreak, Formatter._write.
  repeat first [apply lineBreak_terminates | terminates_structure].
Qed.

Lemma indent_terminates linewrap tag :
  terminates (Formatter.indent linewrap tag).
Proof.
  unfold Formatter.indent.
  repeat first [apply lineBreak_terminates | apply write_terminates
               | terminates_structure].
Qed.

Lemma dedent_terminates : terminates Formatter.dedent.
Proof.
  unfold Formatter.dedent.
  repeat first [apply lineBreak_terminates | terminates_structure].
Qed.

Lemma writeHeading_terminates level heading :
  terminates (Formatter.writeHeading level heading).
Proof.
  unfold Formatter.writeHeading.
  repeat first [apply paragraphBreak_terminates | apply write_terminates
               | terminates_structure].
Qed.

Lemma lift_format_terminates real coll :
  terminates real -> terminates (lift_format real coll).
Proof.
  intros H v. unfold lift_format. destruct (format v) as [f|c].
  - specialize (H f). destruct (real f) as [r f']. exact H.
  - discriminate.
Qed.

Lemma format_writeHeading_terminates level heading :
  terminates (format_writeHeading level heading).
Proof.
  intros v. unfold format_writeHeading. destruct (format v) as [f|c].
  - pose proof (writeHeading_terminates level heading f) as H.
    destruct (Formatter.writeHeading level heading f) as [r f']. exact H.
  - discriminate.
Qed.

Lemma lift_proc_terminates {A} (c : M Proc A) :
  terminates c -> terminates (lift_proc c).
Proof.
  intros H v. unfold lift_proc. specialize (H (proc v)).
  destruct (c (proc v)) as [r p]. exact H.
Qed.

Lemma cleanMath_terminates_from math :
  terminates (Math.cleanMath (S (length math)) math).
Proof. intros p. apply cleanMath_total. lia. Qed.

Lemma parse_not_fuel text : Json.parse text <> OutOfFuel.
Proof.
  unfold Json.parse. destruct text as [s|]; [|discriminate].
  destruct (Json.parse_value _ s) as [[v rest]|]; [|discriminate].
  destruct (Json.skip_ws rest); discriminate.
Qed.

Lemma get_not_fuel v name : Json.get v name <> OutOfFuel.
Proof. destruct v as [[| | | | |]|]; discriminate. Qed.

Lemma property_in tbl : forall name m,
  property tbl name = Some m -> In (name, m) tbl.
Proof.
  induction tbl as [|[k m'] tbl IH]; intros name m H; [discriminate|].
  cbn [property] in H. destruct (seq_eqb name k) eqn:E.
  - apply seq_eqb_true in E. injection H as <-. subst k. left. reflexivity.
  - right. apply IH. exact H.
Qed.

Lemma prototype_visit key :
  In (key, m_visit) prototype -> key = lit "visit".
Proof.
  unfold prototype. cbn [In]. intros H.
  repeat (destruct H as [H|H];
          [first [discriminate H | injection H as <-; reflexivity]|]).
  destruct H.
Qed.

Lemma prototype_LANG key :
  In (key, m_LANG) prototype -> key = lit "visitLANG=".
Proof.
  unfold prototype. cbn [In]. intros H.
  repeat (destruct H as [H|H];
          [first [discriminate H | injection H as <-; reflexivity]|]).
  destruct H.
Qed.

Lemma prototype_DIR key :
  In (key, m_DIR) prototype -> key = lit "visitDIR=".
Proof.
  unfold prototype. cbn [In]. intros H.
  repeat (destruct H as [H|H];
          [first [discriminate H | injection H as <-; reflexivity]|]).
  destruct H.
Qed.

Lemma self_visit_key key m :
  In (key, m) prototype -> is_self_visit m = true ->
  key = lit "visit" \/ key = lit "visitLANG=" \/ key = lit "visitDIR=".
Proof.
  intros Hin Hm. destruct m; try discriminate Hm.
  - left. apply prototype_visit. exact Hin.
  - right. left. apply prototype_LANG. exact Hin.
  - right. right. apply prototype_DIR. exact Hin.
Qed.

Lemma handler_of_well_named name attrs ch m :
  reserved_name name = false ->
  handler_of (Element name attrs ch) = Some m ->
  is_self_visit m = false.
Proof.
  intros Hname H. destruct (is_self_visit m) eqn:Em; [|reflexivity].
  exfalso. unfold handler_of in H. cbn [Dom.getAttribute Dom.nodeName] in H.
  assert (Hkey : forall key, property prototype key = Some m ->
            key = lit "visit" \/ key = lit "visitLANG=" \/ key = lit "visitDIR=").
  { intros key Hk. apply (self_visit_key key m); [|exact Em].
    apply property_in. exact Hk. }
  destruct (Dom.assoc attrs (lit "typeof")) as [typeo|].
  - destruct (property prototype (lit "visitTYPEOF=" ++ typeo)) as [m1|] eqn:E1.
    + injection H as ->. destruct (Hkey _ E1) as [K|[K|K]];
        vm_compute in K; discriminate K.
    + destruct (Dom.assoc attrs (lit "rel")) as [rel|].
      * destruct (property prototype (lit "visitREL=" ++ rel)) as [m2|] eqn:E2.
        -- injection H as ->. destruct (Hkey _ E2) as [K|[K|K]];
             vm_compute in K; discriminate K.
        -- destruct (Hkey _ H) as [K|[K|K]].
           ++ apply (app_inv_head (lit "visit") name []) in K. subst name.
              discriminate Hname.
           ++ apply (app_inv_head (lit "visit") name (lit "LANG=")) in K.
              subst name. discriminate Hname.
           ++ apply (app_inv_head (lit "visit") name (lit "DIR=")) in K.
              subst name. discriminate Hname.
      * destruct (Hkey _ H) as [K|[K|K]].
        -- apply (app_inv_head (lit "visit") name []) in K. subst name.
           discriminate Hname.
        -- apply (app_inv_head (lit "visit") name (lit "LANG=")) in K.
           subst name. discriminate Hname.
        -- apply (app_inv_head (lit "visit") name (lit "DIR=")) in K.
           subst name. discriminate Hname.
  - destruct (Dom.assoc attrs (lit "rel")) as [rel|].
    + destruct (property prototype (lit "visitREL=" ++ rel)) as [m2|] eqn:E2.
      * injection H as ->. destruct (Hkey _ E2) as [K|[K|K]];
          vm_compute in K; discriminate K.
      * destruct (Hkey _ H) as [K|[K|K]].
        -- apply (app_inv_head (lit "visit") name []) in K. subst name.
           discriminate Hname.
        -- apply (app_inv_head (lit "visit") name (lit "LANG=")) in K.
           subst name. discriminate Hname.
        -- apply (app_inv_head (lit "visit") name (lit "DIR=")) in K.
           subst name. discriminate Hname.
    + destruct (Hkey _ H) as [K|[K|K]].
      * apply (app_inv_head (lit "visit") name []) in K. subst name.
        discriminate Hname.
      * apply (app_inv_head (lit "visit") name (lit "LANG=")) in K.
        subst name. discriminate Hname.
      * apply (app_inv_head (lit "visit") name (lit "DIR=")) in K.
        subst name. discriminate Hname.
Qed.

Lemma or_else_same a : or_else a a = a.
Proof. unfold or_else. destruct (truthy a); reflexivity. Qed.

Lemma same_language_after node v :
  currentLanguage v = Dom.getAttribute node (lit "lang") ->
  same_language node v.
Proof.
  intros H. unfold same_language. rewrite H, or_else_same. apply opt_neq_refl.
Qed.

Lemma same_direction_after node v :
  currentDirectionality v = Dom.getAttribute node (lit "dir") ->
  same_direction node v.
Proof.
  intros H. unfold same_direction. rewrite H, or_else_same. cbv zeta.
  destruct (negb _); apply opt_neq_refl.
Qed.

Lemma height_child name attrs ch c :
  In c ch -> height c < height (Element name attrs ch).
Proof.
  intros H. cbn [height].
  assert (height c <= list_max (map height ch)); [|lia].
  induction ch as [|x ch IH]; [destruct H|].
  simpl. destruct H as [->|H]; [lia|].
  specialize (IH H). lia.
Qed.

Lemma well_named_child name attrs ch c :
  well_named (Element name attrs ch) = true -> In c ch ->
  well_named c = true.
Proof.
  cbn [well_named]. intros H Hc. apply andb_true_iff in H.
  destruct H as [_ H]. rewrite forallb_forall in H. apply H. exact Hc.
Qed.

Section Termination.

Variable linewrap : Z -> Z -> LinewrapOpts -> jsstring -> jsstring.
Variable first_child : Node -> option Node.
Variable Polyglossia_lookup : option jsstring -> res (option Poly).
Variable multiple_image_query : Node -> res (list Node * list Node).
Variable ToString : option Json.value -> res jsstring.
Variable cleanMath_array : list Json.value -> M Proc jsstring.

(** The collaborators return or throw. *)
Hypothesis lookup_ends : forall lang, Polyglossia_lookup lang <> OutOfFuel.
Hypothesis query_ends : forall n, multiple_image_query n <> OutOfFuel.
Hypothesis ToString_ends : forall x, ToString x <> OutOfFuel.
Hypothesis cleanMath_array_ends : forall l, terminates (cleanMath_array l).

Local Abbreviation vis :=
  (visit linewrap first_child Polyglossia_lookup multiple_image_query
     ToString cleanMath_array).

Local Abbreviation handlers :=
  (handler_part linewrap first_child Polyglossia_lookup multiple_image_query
     ToString cleanMath_array).

Ltac terminates_leaf :=
  first
    [ apply lift_format_terminates;
      first [ apply write_terminates | apply lineBreak_terminates
            | apply paragraphBreak_terminates | apply indent_terminates
            | apply dedent_terminates ]
    | apply format_writeHeading_terminates
    | apply terminates_lift_res;
      first [ apply parse_not_fuel | apply get_not_fuel | apply lookup_ends
            | apply query_ends | apply ToString_ends ]
    | apply lift_proc_terminates;
      first [ apply cleanMath_terminates_from | apply cleanMath_array_ends ] ].

Ltac terminates_tac :=
  repeat first [ assumption
               | terminates_leaf
               | progress cbv zeta
               | terminates_structure ].

Section Handlers.

Variable visit : Node -> M Visitor unit.

Lemma visitChildren_terminates node :
  (forall c, In c (Dom.childNodes node) -> terminates (visit c)) ->
  terminates (visitChildren visit node).
Proof. intros H. unfold visitChildren. apply terminates_forM. exact H. Qed.

Lemma collect_terminates node f :
  (forall c, In c (Dom.childNodes node) -> terminates (visit c)) ->
  (forall text, terminates (f text)) ->
  terminates (collect visit node f).
Proof.
  intros Hc Hf. unfold collect.
  pose proof (visitChildren_terminates node Hc). terminates_tac. apply Hf.
Qed.

Lemma visitSUP_terminates node :
  (forall c, In c (Dom.childNodes node) -> terminates (visit c)) ->
  terminates (visitSUP visit node).
Proof.
  intros Hc. unfold visitSUP.
  apply terminates_bind; [terminates_tac|intros o].
  destruct (o_noRefs o && _); [terminates_tac|].
  apply collect_terminates; [exact Hc|]. intros text.
  unfold format_write. terminates_tac.
Qed.

Lemma references_loop_terminates refs : forall i,
  (forall r g, In r refs -> In g (Dom.childNodes r) -> terminates (visit g)) ->
  terminates (references_loop linewrap visit refs i).
Proof.
  induction refs as [|ref refs IH]; intros i H; cbn [references_loop].
  - terminates_tac.
  - unfold format_indent, format_dedent.
    apply terminates_bind; [terminates_tac|intros _].
    apply terminates_bind;
      [apply visitChildren_terminates; intros g Hg;
       apply (H ref g (or_introl eq_refl) Hg)|intros _].
    apply terminates_bind; [terminates_tac|intros _].
    apply IH. intros r g Hr Hg. apply (H r g (or_intror Hr) Hg).
Qed.

Lemma figures_loop_terminates images : forall captions,
  terminates (figures_loop images captions).
Proof.
  induction images as [|img images IH]; intros captions; cbn [figures_loop].
  - terminates_tac.
  - apply terminates_bind; [unfold visitFIGURE; terminates_tac|intros _].
    apply IH.
Qed.

Lemma visitMultipleImage_terminates node :
  terminates (visitMultipleImage multiple_image_query node).
Proof.
  unfold visitMultipleImage.
  apply terminates_bind; [terminates_tac|intros _].
  apply terminates_bind; [terminates_tac|intros found].
  apply figures_loop_terminates.
Qed.

Lemma TYPEOF_math_terminates node display :
  terminates (TYPEOF_math ToString cleanMath_array node display).
Proof.
  unfold TYPEOF_math, format_write, format_lineBreak. terminates_tac.
Qed.

Variable node : Node.
Hypothesis Hsub : forall c, visited_from node c -> terminates (visit c).

Lemma children_terminate c :
  In c (Dom.childNodes node) -> terminates (visit c).
Proof. intros H. apply Hsub. left. exact H. Qed.

Lemma apply_method_terminates m :
  is_self_visit m = false ->
  terminates
    (apply_method linewrap first_child Polyglossia_lookup
       multiple_image_query ToString cleanMath_array visit m node).
Proof.
  intros Hm.
  pose proof (visitChildren_terminates node children_terminate) as Hch.
  destruct m; try discriminate Hm; cbn [apply_method].
  - exact Hch.
  - unfold visitBODY. exact Hch.
  - unfold visitA. exact Hch.
  - unfold visitP, format_paragraphBreak. terminates_tac.
  - unfold visitSUB. apply collect_terminates; [apply children_terminate|].
    intros text. unfold format_write. terminates_tac.
  - apply visitSUP_terminates. apply children_terminate.
  - unfold visitCENTER, format_lineBreak. terminates_tac.
  - unfold visitBR, format_lineBreak. terminates_tac.
  - unfold visitHn.
    apply terminates_bind; [terminates_tac|intros o]. cbv zeta.
    destruct (o_singleItem o && _); [terminates_tac|].
    apply collect_terminates; [apply children_terminate|].
    intros text. terminates_tac.
  - unfold visitHn.
    apply terminates_bind; [terminates_tac|intros o]. cbv zeta.
    destruct (o_singleItem o && _); [terminates_tac|].
    apply collect_terminates; [apply children_terminate|].
    intros text. terminates_tac.
  - unfold REL_references.
    apply terminates_bind; [terminates_tac|intros o].
    destruct (o_noRefs o); [terminates_tac|].
    apply collect_terminates; [apply children_terminate|].
    intros text. cbv zeta. apply visitSUP_terminates.
    destruct (is_ref_marker text); [|apply children_terminate].
    intros c [<-|[]]. apply Hsub. right. right. eexists. reflexivity.
  - unfold visitOL. terminates_tac.
  - unfold visitLI, format_indent, format_dedent. terminates_tac.
  - unfold visitDL.
    destruct (first_child node); [|terminates_tac].
    destruct (dl_scan _ _ _) as [sawDT allMath].
    destruct (allMath && negb sawDT).
    + apply terminates_forM. intros dd _. apply TYPEOF_math_terminates.
    + unfold format_dedent. terminates_tac.
  - unfold visitDT.
    apply terminates_bind; [terminates_tac|intros li].
    apply terminates_bind.
    + unfold format_dedent, mark_sawDT. terminates_tac.
    + intros _. apply collect_terminates; [apply children_terminate|].
      intros text. unfold format_indent, mark_sawDT. terminates_tac.
  - unfold visitDD, format_indent, mark_sawDT. terminates_tac.
  - unfold visitBLOCKQUOTE, format_indent, format_dedent. terminates_tac.
  - unfold REL_referencedBy. terminates_tac.
  - unfold TYPEOF_references.
    apply terminates_bind; [terminates_tac|intros o].
    destruct (o_noRefs o); [terminates_tac|].
    apply references_loop_terminates. intros r g Hr Hg.
    apply Hsub. right. left. exists r. split; assumption.
  - unfold visitTABLE. terminates_tac.
  - unfold visitFIGURE. terminates_tac.
  - apply TYPEOF_math_terminates.
  - unfold TYPEOF_Image, visitFIGURE. terminates_tac.
  - apply visitMultipleImage_terminates.
  - unfold visitDIV. destruct (isMultipleImageTemplate node);
      [apply visitMultipleImage_terminates|].
    unfold format_lineBreak. terminates_tac.
Qed.

End Handlers.

Lemma bind_gets {St A B} (f : St -> A) (k : A -> M St B) s :
  bind (gets f) k s = k (f s) s.
Proof. reflexivity. Qed.

Lemma bind_modify {St B} (f : St -> St) (k : unit -> M St B) s :
  bind (modify f) k s = k tt (f s).
Proof. reflexivity. Qed.

Lemma visit_S G node :
  vis (S G) node
  = visit_body linewrap first_child Polyglossia_lookup multiple_image_query
      ToString cleanMath_array (vis G) node.
Proof. reflexivity. Qed.

Lemma handlers_terminate G name attrs ch :
  reserved_name name = false ->
  (forall c, visited_from (Element name attrs ch) c -> terminates (vis G c)) ->
  terminates (handlers (vis G) (Element name attrs ch)).
Proof.
  intros Hname Hsub. unfold handler_part.
  destruct (handler_of (Element name attrs ch)) as [m|] eqn:E.
  - apply (apply_method_terminates (vis G) (Element name attrs ch) Hsub m).
    apply (handler_of_well_named name attrs ch m Hname E).
  - apply visitChildren_terminates. intros c Hc. apply Hsub. left. exact Hc.
Qed.

Section Switches.

Variable visit : Node -> M Visitor unit.
Variables (name : jsstring) (attrs : list (jsstring * jsstring))
          (ch : list Node).

Local Abbreviation node := (Element name attrs ch).

Local Abbreviation body :=
  (visit_body linewrap first_child Polyglossia_lookup multiple_image_query
     ToString cleanMath_array visit node).

Lemma visitDIR_terminates_at v :
  same_language node v ->
  (forall v1, same_language node v1 -> same_direction node v1 ->
              fst (visit node v1) <> OutOfFuel) ->
  fst (visitDIR visit node v) <> OutOfFuel.
Proof.
  intros Hl H. unfold visitDIR. rewrite bind_gets. cbv zeta.
  rewrite bind_gets. unfold console_warn. rewrite bind_modify, bind_modify.
  apply bind_terminates_at; [|intros _; apply terminates_modify].
  apply H.
  - exact Hl.
  - apply same_direction_after. reflexivity.
Qed.

Lemma visitLANG_terminates_at v :
  (forall v1, same_language node v1 -> fst (visit node v1) <> OutOfFuel) ->
  fst (visitLANG Polyglossia_lookup visit node v) <> OutOfFuel.
Proof.
  intros H. unfold visitLANG. rewrite bind_gets, bind_gets. cbv zeta.
  unfold bind at 1. unfold lift_res at 1.
  destruct (Polyglossia_lookup (Dom.getAttribute node (lit "lang")))
    as [[poly|]|e|] eqn:E.
  - rewrite bind_modify, bind_modify.
    apply bind_terminates_at;
      [|intros _; apply terminates_bind; [|intros _]; apply terminates_modify].
    apply H. apply same_language_after. reflexivity.
  - rewrite bind_modify. discriminate.
  - discriminate.
  - exfalso. apply (lookup_ends _ E).
Qed.

Lemma body_rest v :
  same_language node v -> same_direction node v ->
  terminates (handlers visit node) ->
  fst (body v) <> OutOfFuel.
Proof.
  intros Hl Hd Hh. unfold visit_body.
  destruct (isHidden node); [discriminate|].
  rewrite bind_gets. cbv zeta. unfold same_language in Hl. rewrite Hl.
  rewrite bind_gets. cbv zeta. unfold same_direction in Hd. cbv zeta in Hd.
  rewrite Hd. apply Hh.
Qed.

Lemma body_settled v :
  same_language node v ->
  (forall v1, same_language node v1 -> same_direction node v1 ->
              fst (visit node v1) <> OutOfFuel) ->
  terminates (handlers visit node) ->
  fst (body v) <> OutOfFuel.
Proof.
  intros Hl Hv Hh. unfold visit_body.
  destruct (isHidden node); [discriminate|].
  rewrite bind_gets. cbv zeta. pose proof Hl as Hl'.
  unfold same_language in Hl'. rewrite Hl'.
  rewrite bind_gets. cbv zeta.
  destruct (opt_neq _ (currentDirectionality v)).
  - apply visitDIR_terminates_at; assumption.
  - apply Hh.
Qed.

Lemma body_any v :
  (forall v1, same_language node v1 -> fst (visit node v1) <> OutOfFuel) ->
  (forall v1, same_language node v1 -> same_direction node v1 ->
              fst (visit node v1) <> OutOfFuel) ->
  terminates (handlers visit node) ->
  fst (body v) <> OutOfFuel.
Proof.
  intros Hlang Hdir Hh.
  destruct (opt_neq (or_else (Dom.getAttribute node (lit "lang"))
                       (currentLanguage v)) (currentLanguage v)) eqn:El.
  - unfold visit_body. destruct (isHidden node); [discriminate|].
    rewrite bind_gets. cbv zeta. rewrite El. rewrite bind_modify.
    apply visitLANG_terminates_at. exact Hlang.
  - apply body_settled; assumption.
Qed.

End Switches.

Lemma element_terminates G name attrs ch :
  (forall G', G <= G' ->
     terminates (handlers (vis G') (Element name attrs ch))) ->
  terminates (vis (S (S (S G))) (Element name attrs ch)).
Proof.
  intros Hh.
  assert (L0 : forall G', G <= G' -> forall v,
            same_language (Element name attrs ch) v ->
            same_direction (Element name attrs ch) v ->
            fst (vis (S G') (Element name attrs ch) v) <> OutOfFuel).
  { intros G' HG v Hl Hd. rewrite visit_S.
    apply body_rest; [exact Hl|exact Hd|apply Hh; exact HG]. }
  assert (L1 : forall v,
            same_language (Element name attrs ch) v ->
            fst (vis (S (S G)) (Element name attrs ch) v) <> OutOfFuel).
  { intros v Hl. rewrite visit_S. apply body_settled.
    - exact Hl.
    - intros v1 H1 H2. apply (L0 G (le_n _) v1 H1 H2).
    - apply Hh. lia. }
  intros v. rewrite visit_S. apply body_any.
  - exact L1.
  - intros v1 H1 H2. apply (L0 (S G)); [lia|exact H1|exact H2].
  - apply Hh. lia.
Qed.

Lemma leaf_terminates fuel node :
  Dom.is_element node = false -> terminates (vis (S fuel) node).
Proof.
  intros H. rewrite visit_S.
  destruct node as [name attrs ch|data|data|]; [discriminate H|..];
    unfold visit_body, format_write; terminates_tac.
Qed.

Lemma visit_terminates_aux h : forall node,
  height node <= h -> well_named node = true ->
  forall fuel, 3 * height node + 1 <= fuel -> terminates (vis fuel node).
Proof.
  induction h as [|h IH]; intros node Hh Hw fuel Hf.
  - destruct node as [name attrs ch|data|data|];
      [cbn [height] in Hh; lia|..];
      (destruct fuel as [|fuel]; [cbn [height] in Hf; lia|]);
      apply leaf_terminates; reflexivity.
  - destruct node as [name attrs ch|data|data|];
      [|(destruct fuel as [|fuel]; [cbn [height] in Hf; lia|]);
        apply leaf_terminates; reflexivity..].
    set (m := list_max (map height ch)).
    assert (Hm : height (Element name attrs ch) = S m) by reflexivity.
    rewrite Hm in Hh, Hf.
    destruct fuel as [|[|[|G]]]; try lia.
    pose proof Hw as Hw'. cbn [well_named] in Hw'.
    apply andb_true_iff in Hw'. destruct Hw' as [Hname Hch].
    apply negb_true_iff in Hname.
    apply element_terminates. intros G' HG.
    apply (handlers_terminate G' name attrs ch Hname).
    intros c [Hc|[(r & Hr & Hc)|(t & ->)]].
    + pose proof (height_child name attrs ch c Hc) as Hlt. rewrite Hm in Hlt.
      apply IH; [lia|apply (well_named_child name attrs ch c Hw Hc)|lia].
    + cbn [Dom.childNodes] in Hr.
      pose proof (height_child name attrs ch r Hr) as Hlt. rewrite Hm in Hlt.
      pose proof (well_named_child name attrs ch r Hw Hr) as Hwr.
      destruct r as [rn ra rch|d|d|]; try destruct Hc.
      cbn [Dom.childNodes] in Hc.
      pose proof (height_child rn ra rch c Hc) as Hlt'.
      apply IH; [lia|apply (well_named_child rn ra rch c Hwr Hc)|lia].
    + apply IH; [cbn [height]; lia|reflexivity|cbn [height]; lia].
Qed.

(** X16: the visit of a tree of nodes ends, by returning or by
    throwing: with three units of recursion depth for each level of
    the tree and one more it never runs out of depth, provided that no
    element bears one of the names that make [visit] call itself on
    the same node without end (the empty name, LANG= and DIR=), and
    that the collaborators outside this file return or throw. *)
Theorem visit_terminates (node : Node) (fuel : nat) (v : Visitor) :
  well_named node = true ->
  3 * height node + 1 <= fuel ->
  fst (vis fuel node v) <> OutOfFuel.
Proof.
  intros Hw Hf.
  apply (visit_terminates_aux (height node) node (le_n _) Hw fuel Hf).
Qed.

End Termination.

Lemma sample_Polyglossia_ends lang : sample_Polyglossia lang <> OutOfFuel.
Proof.
  unfold sample_Polyglossia. destruct lang as [l|]; [|discriminate].
  destruct (seq_eqb l (lit "ar") || seq_eqb l (lit "he")); discriminate.
Qed.

Lemma sample_ToString_ends x : sample_ToString x <> OutOfFuel.
Proof. destruct x as [[|[|]| | | |]|]; discriminate. Qed.

Lemma visit_terminates_witness :
  let node :=
    Element (lit "DIV") [(lit "lang", lit "ar"); (lit "dir", lit "ltr")]
      [Element (lit "P") [] [Text (lit "x"); Element (lit "B") [] []]] in
  height node = 3
  /\ fst (sample_visit 10 node (sample_visitor true false)) <> OutOfFuel.
Proof.
  intros node. split; [reflexivity|].
  generalize (sample_visitor true false). intros v.
  apply (visit_terminates sample_linewrap sample_first_child
           sample_Polyglossia sample_query sample_ToString
           sample_cleanMath_array sample_Polyglossia_ends
           (fun n => ltac:(discriminate))
           sample_ToString_ends
           (fun l p => ltac:(discriminate)) node 10 v).
  - reflexivity.
  - cbn. lia.
Defined.

